(** * Zero-run-length bound validator: a shallow embedding of
      [validate_theorem.py] (class [NumberValidator]) and the properties
      of its extraction, run-finding, bound-analysis, statistics and
      report stages.

    Number model.
    - A Python [int] used as an index or a count is a [nat]; a bit of the
      expansion is a [Z] (the list holds whatever [int(mp.floor(..))] gave).
    - An [mpmath.mpf] is a rational rounded to [prec] significant bits
      (round to nearest, ties to even, unbounded exponent), [prec] being the
      binary precision [mp.prec] that [mp.dps = precision] selects
      (53 bits for [precision = 15]).
    - A Python [float] is a binary64 value: a rational or an infinity.  An
      operation on floats returns the binary64 value nearest to its exact
      result, ties to even, with gradual underflow and overflow to an
      infinity ([b64]); the sign of a zero is not kept.  A ratio is never
      negative and never a [nan]: it is an [xfloat], a rational or [+inf];
      [pyfloat] adds [-inf] and [nan].  [math.log2] and the square root
      used by [statistics.stdev] are parameters. *)

From Stdlib Require Import ZArith QArith Qround Qabs Qpower Lia Lqa Bool List String.
From Stdlib Require Import Permutation Sorted DecimalString.
From Stdlib Require Import Ascii.
Import ListNotations.

Set Warnings "-register-all".
Local Open Scope Z_scope.

(** ** Exceptions *)

Inductive exn : Type :=
| StatisticsError
| OtherError (name : string).

Inductive exc (A : Type) : Type :=
| OK (a : A)
| Raise (e : exn).

Arguments OK {A} a.
Arguments Raise {A} e.

Definition bind {A B : Type} (m : exc A) (k : A -> exc B) : exc B :=
  match m with
  | OK a => k a
  | Raise e => Raise e
  end.

Notation "x <- m ;; k" := (bind m (fun x => k))
  (at level 61, m at next level, right associativity).

(** ** Python floats: a rational or [float('inf')] *)

Inductive xfloat : Type :=
| Fin (q : Q)
| PInf.

Definition Qltb (x y : Q) : bool := negb (Qle_bool y x).

(** [a < b], [a <= b] on floats. *)
Definition xltb (a b : xfloat) : bool :=
  match a, b with
  | Fin x, Fin y => Qltb x y
  | Fin _, PInf => true
  | PInf, _ => false
  end.

Definition xleb (a b : xfloat) : bool :=
  match a, b with
  | Fin x, Fin y => Qle_bool x y
  | _, PInf => true
  | PInf, Fin _ => false
  end.

(** Numeric equality of floats ([==] in Python). *)
Definition xeq (a b : xfloat) : Prop :=
  match a, b with
  | Fin x, Fin y => (x == y)%Q
  | PInf, PInf => True
  | _, _ => False
  end.

Definition xfinite (a : xfloat) : bool :=
  match a with Fin _ => true | PInf => false end.

(** Any float: one of the above, [float('-inf')] or [nan]; no ratio is ever
    negative or a [nan]. *)
Inductive pyfloat : Type :=
| Real (x : xfloat)
| NInf
| NaN.

(** The built-in [max(a, b)]: the first argument unless the second is
    greater. *)
Definition xmax (a b : xfloat) : xfloat := if xltb a b then b else a.

Definition xadd (a b : xfloat) : xfloat :=
  match a, b with
  | Fin x, Fin y => Fin (x + y)
  | _, _ => PInf
  end.

(** Division of a float by a positive count. *)
Definition xdiv_nat (a : xfloat) (n : nat) : xfloat :=
  match a with
  | Fin x => Fin (x / inject_Z (Z.of_nat n))
  | PInf => PInf
  end.

(** ** mpmath numbers at [prec] bits *)

(** Nearest integer, ties to even. *)
Definition round_half_even (q : Q) : Z :=
  let f := Qfloor q in
  match Qcompare (q - inject_Z f) (1 # 2) with
  | Lt => f
  | Gt => f + 1
  | Eq => if Z.even f then f else f + 1
  end.

(** Exponent of the leading bit of a positive rational: the [e] with
    [2^e <= q < 2^(e+1)]. *)
Definition ilog2 (q : Q) : Z :=
  let e0 := Z.log2 (Qnum q) - Z.log2 (Zpos (Qden q)) in
  if Qle_bool (Qpower 2 e0) q then e0 else e0 - 1.

(** Rounding to [prec] significant bits. *)
Definition mpf_round (prec : Z) (q : Q) : Q :=
  if Qeq_bool q 0 then 0%Q
  else
    let scale := Qpower 2 (ilog2 (Qabs q) - prec + 1) in
    Qred (inject_Z (round_half_even (q / scale)) * scale).

Definition mpf_sub (prec : Z) (a b : Q) : Q := mpf_round prec (a - b).
Definition mpf_mul (prec : Z) (a b : Q) : Q := mpf_round prec (a * b).
Definition mpf_floor (a : Q) : Q := inject_Z (Qfloor a).

(** ** Binary64 arithmetic *)

(** The exponent of the last bit kept for [q]: 53 significant bits, and no
    bit below [2^-1074]. *)
Definition b64_quantum (q : Q) : Z := Z.max (ilog2 (Qabs q) - 52) (-1074).

(** The binary64 value nearest to [q], ties to even, before the range
    check. *)
Definition b64_nearest (q : Q) : Q :=
  if Qeq_bool q 0 then 0%Q
  else
    let scale := Qpower 2 (b64_quantum q) in
    Qred (inject_Z (round_half_even (q / scale)) * scale).

(** The float that an operation with exact result [q] returns: from
    [2^1024] on the rounded value is an infinity. *)
Definition b64 (q : Q) : pyfloat :=
  let r := b64_nearest q in
  if Qle_bool (2 ^ 1024) r then Real PInf
  else if Qle_bool r (- 2 ^ 1024) then NInf
  else Real (Fin r).

(** The same for an operation on non-negative operands, whose result is
    not negative. *)
Definition b64_nonneg (q : Q) : xfloat :=
  let r := b64_nearest q in
  if Qle_bool (2 ^ 1024) r then PInf else Fin r.

(** [float(n)] of a count, as [int / float] takes it; a count is the length
    of a run inside a list, which holds fewer than [2^63] items, so the
    conversion never overflows. *)
Definition float_of_nat (n : nat) : Q := b64_nearest (inject_Z (Z.of_nat n)).

(** [a + b] and [a / n] on floats that are not negative. *)
Definition xadd_b64 (a b : xfloat) : xfloat :=
  match a, b with
  | Fin x, Fin y => b64_nonneg (x + y)
  | _, _ => PInf
  end.

Definition xdiv_b64 (a : xfloat) (n : nat) : xfloat :=
  match a with
  | Fin x => b64_nonneg (x / inject_Z (Z.of_nat n))
  | PInf => PInf
  end.

(** [float] of an exact fraction that is not negative. *)
Definition xround (a : xfloat) : xfloat :=
  match a with
  | Fin x => b64_nonneg x
  | PInf => PInf
  end.

(** ** [get_binary_expansion] *)

(** One pass of the loop body: double, take the integer part as the bit,
    subtract it. *)
Definition expansion_step (prec : Z) (mp_frac : Q) : Z * Q :=
  let mp_frac := mpf_mul prec mp_frac 2 in
  let bit := Qfloor mp_frac in
  (bit, mpf_sub prec mp_frac (inject_Z bit)).

Fixpoint expansion_loop (prec : Z) (length : nat) (mp_frac : Q) : list Z :=
  match length with
  | O => []
  | S n =>
      let '(bit, mp_frac') := expansion_step prec mp_frac in
      bit :: expansion_loop prec n mp_frac'
  end.

(** [num] is the decimal value that [str(num)] prints. *)
Definition get_binary_expansion (prec : Z) (num : Q) (length : nat) : list Z :=
  let mp_num := mpf_round prec num in
  let mp_frac := mpf_sub prec mp_num (mpf_floor mp_num) in
  expansion_loop prec length mp_frac.

(** ** [find_zero_runs] *)

Record scan_state : Type := mk_scan {
  runs : list (nat * nat);
  current_run : nat;
  start_position : option nat
}.

(** [runs.append((start_position, current_run))]; it is only reached with
    [current_run > 0], when [start_position] is set (lemma [scan_start_set]). *)
Definition append_run (st : scan_state) : list (nat * nat) :=
  match start_position st with
  | Some s => runs st ++ [(s, current_run st)]
  | None => runs st
  end.

Definition scan_step (st : scan_state) (ib : nat * Z) : scan_state :=
  let '(i, bit) := ib in
  if bit =? 0 then
    mk_scan (runs st) (S (current_run st))
            (match start_position st with None => Some i | Some s => Some s end)
  else
    mk_scan (if (0 <? current_run st)%nat then append_run st else runs st)
            O None.

Definition enumerate {A : Type} (l : list A) : list (nat * A) :=
  combine (seq 0 (List.length l)) l.

Definition scan (binary : list Z) : scan_state :=
  fold_left scan_step (enumerate binary) (mk_scan [] O None).

Definition find_zero_runs (binary : list Z) : list (nat * nat) :=
  let st := scan binary in
  if (0 <? current_run st)%nat then append_run st else runs st.

(** ** The [statistics] functions used on the ratios *)

Definition xsum (data : list xfloat) : xfloat := fold_left xadd data (Fin 0).

(** [statistics.mean]: the exact sum over the count, as a fraction, then
    converted to the nearest float. *)
Definition mean (data : list xfloat) : exc xfloat :=
  match data with
  | [] => Raise StatisticsError
  | _ => OK (xround (xdiv_nat (xsum data) (List.length data)))
  end.

Fixpoint insert_sorted (x : xfloat) (l : list xfloat) : list xfloat :=
  match l with
  | [] => [x]
  | y :: t => if xleb x y then x :: y :: t else y :: insert_sorted x t
  end.

(** [sorted(data)] (stable). *)
Definition sorted (data : list xfloat) : list xfloat :=
  fold_right insert_sorted [] data.

(** [statistics.median]: [data[n // 2]] of the sorted data on odd [n],
    [(data[i - 1] + data[i]) / 2] with [i = n // 2] on even [n], the sum
    and the quotient being float operations. *)
Definition median (data : list xfloat) : exc xfloat :=
  let data := sorted data in
  let n := List.length data in
  if (n =? 0)%nat then Raise StatisticsError
  else if Nat.odd n then OK (nth (n / 2) data PInf)
  else
    let i := (n / 2)%nat in
    OK (xdiv_b64 (xadd_b64 (nth (i - 1) data PInf) (nth i data PInf)) 2).

Fixpoint finite_values (data : list xfloat) : option (list Q) :=
  match data with
  | [] => Some []
  | Fin q :: t => option_map (cons q) (finite_values t)
  | PInf :: _ => None
  end.

Definition Qsum (qs : list Q) : Q := fold_left Qplus qs 0%Q.

(** Sample variance: squared deviations from the mean over [n - 1]. *)
Definition variance (qs : list Q) : Q :=
  let n := inject_Z (Z.of_nat (List.length qs)) in
  let c := (Qsum qs / n)%Q in
  (Qsum (map (fun x => (x - c) * (x - c))%Q qs) / (n - 1))%Q.

Section Stdev.
(** The correctly rounded square root, and what [stdev] does with data
    that holds an infinity: [nan] on older Pythons (3.8, 3.9), an
    exception on newer ones ([AttributeError] on 3.11). *)
Variable sqrt : Q -> Q.
Variable stdev_nonfinite : list xfloat -> exc pyfloat.

(** [statistics.stdev]: fewer than two data points raise
    [StatisticsError]. *)
Definition stdev (data : list xfloat) : exc pyfloat :=
  if (List.length data <? 2)%nat then Raise StatisticsError
  else match finite_values data with
       | Some qs => OK (Real (Fin (sqrt (variance qs))))
       | None => stdev_nonfinite data
       end.
End Stdev.

(** ** [validate_number] *)

Module RunData.
Record t : Type := mk {
  position : nat;
  length : nat;
  bound : pyfloat;
  ratio : xfloat
}.
End RunData.

Module Violation.
Record t : Type := mk {
  position : nat;
  run_length : nat;
  bound : pyfloat;
  ratio : xfloat
}.
End Violation.

Record distribution : Type := mk_distribution {
  low : nat;      (* '0-33%' *)
  medium : nat;   (* '33-66%' *)
  high : nat      (* '66-100%' *)
}.

Record stats : Type := mk_stats {
  mean_ratio : xfloat;
  median_ratio : xfloat;
  std_ratio : pyfloat;
  ratio_distribution : distribution
}.

Record result : Type := mk_result {
  valid : bool;
  violations : list Violation.t;
  max_ratio : xfloat;
  total_runs : nat;
  binary_prefix : list Z;
  result_stats : option stats;   (* [None] is the empty dict *)
  number_type : string;
  factor : Q;
  factor_name : string;
  number : Q;
  run_data : list RunData.t
}.

(** The three list comprehensions of ['ratio_distribution']. *)
Definition bucket_low (r : xfloat) : bool := xltb r (Fin 0.33).
Definition bucket_medium (r : xfloat) : bool :=
  xleb (Fin 0.33) r && xltb r (Fin 0.66).
Definition bucket_high (r : xfloat) : bool := xleb (Fin 0.66) r.

Definition distribution_of (ratios : list xfloat) : distribution :=
  mk_distribution (List.length (filter bucket_low ratios))
                  (List.length (filter bucket_medium ratios))
                  (List.length (filter bucket_high ratios)).

(** State of the loop over [zero_runs]. *)
Record analysis : Type := mk_analysis {
  a_violations : list Violation.t;
  a_run_data : list RunData.t;
  a_max_ratio : xfloat
}.

Section Validate.
Variable log2 : Z -> Q.                              (* math.log2 *)
Variable sqrt : Q -> Q.
Variable stdev_nonfinite : list xfloat -> exc pyfloat.

(** [factor * math.log2(position + 1)], a float product. *)
Definition run_bound (factor : Q) (position : nat) : pyfloat :=
  b64 (factor * log2 (Z.of_nat position + 1)).

(** [run_length / bound if bound > 0 else float('inf')]: the quotient of
    floats, which is 0 for an infinite bound. *)
Definition run_ratio (factor : Q) (position run_length : nat) : xfloat :=
  match run_bound factor position with
  | Real (Fin bound) =>
      if Qltb 0 bound then b64_nonneg (float_of_nat run_length / bound)
      else PInf
  | Real PInf => Fin 0
  | NInf => PInf
  | NaN => PInf
  end.

Definition analyze_step (factor : Q) (st : analysis) (run : nat * nat)
  : analysis :=
  let '(position, run_length) := run in
  if (position <? 1)%nat then st
  else
    let bound := run_bound factor position in
    let ratio := run_ratio factor position run_length in
    mk_analysis
      (if xltb (Fin 1) ratio
       then a_violations st ++ [Violation.mk position run_length bound ratio]
       else a_violations st)
      (a_run_data st ++ [RunData.mk position run_length bound ratio])
      (xmax (a_max_ratio st) ratio).

Definition analyze (factor : Q) (zero_runs : list (nat * nat)) : analysis :=
  fold_left (analyze_step factor) zero_runs (mk_analysis [] [] (Fin 0)).

(** The [if run_data:] block. *)
Definition compute_stats (run_data : list RunData.t) : exc (option stats) :=
  match run_data with
  | [] => OK None
  | _ =>
      let ratios := map RunData.ratio run_data in
      m <- mean ratios ;;
      md <- median ratios ;;
      sd <- stdev sqrt stdev_nonfinite ratios ;;
      OK (Some (mk_stats m md sd (distribution_of ratios)))
  end.

(** [number] stands both for the value and for the decimal that [str]
    prints of it; [verbose] only selects printing and is left out. *)
Definition validate_number (prec : Z) (number factor : Q) (length : nat)
           (is_transcendental : bool) : exc result :=
  let binary := get_binary_expansion prec number length in
  let zero_runs := find_zero_runs binary in
  let number_type :=
    (if is_transcendental then "transcendental" else "algebraic")%string in
  let factor_name :=
    (if is_transcendental then "μ (irrationality measure)"
     else "d (degree)")%string in
  let a := analyze factor zero_runs in
  st <- compute_stats (a_run_data a) ;;
  OK (mk_result (Nat.eqb (List.length (a_violations a)) 0)
                (a_violations a)
                (a_max_ratio a)
                (List.length zero_runs)
                (firstn 50 binary)
                st number_type factor factor_name number
                (a_run_data a)).
End Validate.

(** ** [create_report] *)

(** The Python values that reach the report. *)
Inductive pyobj : Type :=
| PyInt (z : Z)
| PyFloat (x : pyfloat)
| PyMpf (q : Q)       (* mp.mpf, decimal.Decimal, np.integer, np.floating *)
| PyBool (b : bool)
| PyStr (s : string)
| PyList (l : list pyobj)
| PyTuple (l : list pyobj)
| PyDict (d : list (string * pyobj))   (* keys are never converted *)
| PyOther (repr : string).
  (* any other object: None, a complex number, np.bool_, mp.mpc, a set,
     an array; it is not looked into *)

(** [float(obj)] of a number of the four converted kinds is the nearest
    binary64 value. *)
Fixpoint convert_to_serializable (obj : pyobj) : pyobj :=
  match obj with
  | PyMpf q => PyFloat (b64 q)
  | PyList l => PyList (map convert_to_serializable l)
  | PyTuple l => PyList (map convert_to_serializable l)
  | PyDict d =>
      PyDict (map (fun kv => match kv with
                             | (k, v) => (k, convert_to_serializable v)
                             end) d)
  | _ => obj
  end.

(** [d[key]] on a dict; [None] stands for [KeyError] or a non-dict. *)
Fixpoint lookup (key : string) (d : list (string * pyobj)) : option pyobj :=
  match d with
  | [] => None
  | (k, v) :: t => if String.eqb k key then Some v else lookup key t
  end.

Definition getitem (obj : pyobj) (key : string) : option pyobj :=
  match obj with
  | PyDict d => lookup key d
  | _ => None
  end.

(** No float inside the value is an infinity. *)
Fixpoint finite_obj (obj : pyobj) : bool :=
  match obj with
  | PyFloat (Real x) => xfinite x
  | PyFloat NInf => false
  | PyFloat NaN => false
  | PyList l => forallb finite_obj l
  | PyTuple l => forallb finite_obj l
  | PyDict d => forallb (fun kv => finite_obj (snd kv)) d
  | _ => true
  end.

(** The dicts that [validate_number] builds, as Python values. *)
Definition violation_obj (v : Violation.t) : pyobj :=
  PyDict [("position", PyInt (Z.of_nat (Violation.position v)));
          ("run_length", PyInt (Z.of_nat (Violation.run_length v)));
          ("bound", PyFloat (Violation.bound v));
          ("ratio", PyFloat (Real (Violation.ratio v)))]%string.

Definition run_data_obj (d : RunData.t) : pyobj :=
  PyDict [("position", PyInt (Z.of_nat (RunData.position d)));
          ("length", PyInt (Z.of_nat (RunData.length d)));
          ("bound", PyFloat (RunData.bound d));
          ("ratio", PyFloat (Real (RunData.ratio d)))]%string.

Definition stats_obj (s : option stats) : pyobj :=
  match s with
  | None => PyDict []
  | Some s =>
      PyDict [("mean_ratio", PyFloat (Real (mean_ratio s)));
              ("median_ratio", PyFloat (Real (median_ratio s)));
              ("std_ratio", PyFloat (std_ratio s));
              ("ratio_distribution",
                PyDict [("0-33%", PyInt (Z.of_nat (low (ratio_distribution s))));
                        ("33-66%", PyInt (Z.of_nat (medium (ratio_distribution s))));
                        ("66-100%", PyInt (Z.of_nat (high (ratio_distribution s))))])
             ]%string
  end.

(** [str] of a Python [int]. *)
Definition str_int (z : Z) : string := NilZero.string_of_int (Z.to_int z).

Module Case.
Record t : Type := mk {
  number : Q;
  factor : Q;
  name : string;
  type : string
}.
End Case.

Definition report_entry (case : Case.t) (r : result) : pyobj :=
  PyDict [("name", PyStr (Case.name case));
          ("type", PyStr (Case.type case));
          ("number", PyFloat (Real (Fin (number r))));
          ("factor", PyFloat (Real (Fin (factor r))));
          ("factor_name", PyStr (factor_name r));
          ("valid", PyBool (valid r));
          ("max_ratio", PyFloat (Real (max_ratio r)));
          ("total_runs", PyInt (Z.of_nat (total_runs r)));
          ("violations",
            convert_to_serializable (PyList (map violation_obj (violations r))));
          ("stats", convert_to_serializable (stats_obj (result_stats r)));
          ("binary_prefix",
            PyStr (String.concat "" (map str_int (binary_prefix r))));
          ("run_data",
            convert_to_serializable (PyList (map run_data_obj (run_data r))))
         ]%string.

(** The [report_data] list handed to [json.dump]. *)
Definition create_report (results : list (Case.t * result)) : list pyobj :=
  map (fun cr => report_entry (fst cr) (snd cr)) results.

(** What a reader of the report takes back from one record. *)
Record parsed : Type := mk_parsed {
  p_name : string;
  p_type : string;
  p_valid : bool;
  p_total_runs : Z;
  p_violations : nat
}.

Definition parse_entry (item : pyobj) : option parsed :=
  match getitem item "name", getitem item "type", getitem item "valid",
        getitem item "total_runs", getitem item "violations" with
  | Some (PyStr n), Some (PyStr t), Some (PyBool v), Some (PyInt k),
    Some (PyList vs) => Some (mk_parsed n t v k (List.length vs))
  | _, _, _, _, _ => None
  end.

(** The call that [run_analysis] makes for one test case. *)
Definition validate_case (log2 : Z -> Q) (sqrt : Q -> Q)
           (stdev_nonfinite : list xfloat -> exc pyfloat)
           (prec : Z) (test_length : nat) (case : Case.t) : exc result :=
  validate_number log2 sqrt stdev_nonfinite prec
                  (Case.number case) (Case.factor case) test_length
                  (String.eqb (Case.type case) "transcendental").

(** ** [run_analysis] *)

Section RunAnalysis.
Variable log2 : Z -> Q.
Variable sqrt : Q -> Q.
Variable stdev_nonfinite : list xfloat -> exc pyfloat.

(** The loop of [run_analysis] over [test_cases], for a validator of
    [prec] bits and expansions of [test_length] bits. *)
Fixpoint run_analysis (prec : Z) (test_length : nat)
         (test_cases : list Case.t) : exc (list (Case.t * result)) :=
  match test_cases with
  | [] => OK []
  | case :: rest =>
      result <- validate_case log2 sqrt stdev_nonfinite prec test_length case ;;
      results <- run_analysis prec test_length rest ;;
      OK ((case, result) :: results)
  end.
End RunAnalysis.

(** ** The dashboard: [replace_special_chars] and [load_data] *)

(** [text.replace("", new)]: [new] before every character and at the end. *)
Fixpoint insert_between (new text : string) : string :=
  match text with
  | EmptyString => new
  | String c t => (new ++ String c (insert_between new t))%string
  end.

(** The scan of [str.replace] for a non-empty [old]: [skip] characters of an
    occurrence that has been replaced are still to be passed over. *)
Fixpoint replace_from (old new : string) (skip : nat) (text : string)
  : string :=
  match text with
  | EmptyString => EmptyString
  | String c t =>
      match skip with
      | S k => replace_from old new k t
      | O =>
          if String.prefix old text
          then (new ++ replace_from old new (String.length old - 1) t)%string
          else String c (replace_from old new O t)
      end
  end.

(** [text.replace(old, new)]: every occurrence, leftmost first and without
    overlap.  A [str] is held as its UTF-8 bytes; on well-formed UTF-8 the
    occurrences of a character sequence are the occurrences of its bytes. *)
Definition replace (old new text : string) : string :=
  match old with
  | EmptyString => insert_between new text
  | _ => replace_from old new O text
  end.

Definition replacements : list (string * string) :=
  [("√", "sqrt"); ("φ", "phi"); ("∛", "cbrt"); ("π", "pi")]%string.

Definition replace_special_chars (text : string) : string :=
  fold_left (fun text on => replace (fst on) (snd on) text) replacements text.

(** [obj[key]] with its exceptions. *)
Definition subscript (obj : pyobj) (key : string) : exc pyobj :=
  match obj with
  | PyDict d =>
      match lookup key d with
      | Some v => OK v
      | None => Raise (OtherError "KeyError")
      end
  | _ => Raise (OtherError "TypeError")
  end.

(** [replace_special_chars] called on any value: only a [str] has
    [replace]. *)
Definition replace_special_chars_of (obj : pyobj) : exc pyobj :=
  match obj with
  | PyStr s => OK (PyStr (replace_special_chars s))
  | _ => Raise (OtherError "AttributeError")
  end.

(** [obj == s] for a string literal [s]. *)
Definition eq_str (obj : pyobj) (s : string) : bool :=
  match obj with
  | PyStr t => String.eqb t s
  | _ => false
  end.

(** The body of the loop of [load_data]. *)
Definition process_item (item : pyobj) : exc pyobj :=
  name <- subscript item "name" ;;
  name <- replace_special_chars_of name ;;
  type <- subscript item "type" ;;
  st <- subscript item "stats" ;;
  meanRatio <- subscript st "mean_ratio" ;;
  st <- subscript item "stats" ;;
  medianRatio <- subscript st "median_ratio" ;;
  st <- subscript item "stats" ;;
  stdDev <- subscript st "std_ratio" ;;
  totalRuns <- subscript item "total_runs" ;;
  st <- subscript item "stats" ;;
  dist <- subscript st "ratio_distribution" ;;
  low <- subscript dist "0-33%" ;;
  st <- subscript item "stats" ;;
  dist <- subscript st "ratio_distribution" ;;
  medium <- subscript dist "33-66%" ;;
  st <- subscript item "stats" ;;
  dist <- subscript st "ratio_distribution" ;;
  high <- subscript dist "66-100%" ;;
  let processed_item :=
    [("name", name); ("type", type); ("meanRatio", meanRatio);
     ("medianRatio", medianRatio); ("stdDev", stdDev);
     ("totalRuns", totalRuns);
     ("distribution",
       PyDict [("low", low); ("medium", medium); ("high", high)])]%string in
  type' <- subscript item "type" ;;
  if eq_str type' "algebraic"
  then factor <- subscript item "factor" ;;
       OK (PyDict (processed_item ++ [("degree"%string, factor)]))
  else factor <- subscript item "factor" ;;
       OK (PyDict (processed_item ++ [("measure"%string, factor)])).

Fixpoint process_items (data : list pyobj) : exc (list pyobj) :=
  match data with
  | [] => OK []
  | item :: rest =>
      processed_item <- process_item item ;;
      processed_data <- process_items rest ;;
      OK (processed_item :: processed_data)
  end.

(** [load_data] on the value that [json.load] returns; every handler
    re-raises the exception.  Iterating a dict gives its keys, iterating a
    string its characters. *)
Definition load_data (data : pyobj) : exc (list pyobj) :=
  match data with
  | PyList l => process_items l
  | PyTuple l => process_items l
  | PyDict d => process_items (map (fun kv => PyStr (fst kv)) d)
  | PyStr s =>
      process_items (map (fun c => PyStr (String c EmptyString))
                         (list_ascii_of_string s))
  | _ => Raise (OtherError "TypeError")
  end.

(** * Specification vocabulary *)

(** ** Run finding *)

Definition zero_count (binary : list Z) : nat := count_occ Z.eq_dec binary 0.

Definition is_bit (b : Z) : Prop := b = 0 \/ b = 1.

(** The bit at index [k] exists and is not a zero. *)
Definition nonzero_at (binary : list Z) (k : nat) : Prop :=
  exists b, nth_error binary k = Some b /\ b <> 0.

Definition zeros_between (binary : list Z) (s e : nat) : Prop :=
  forall k, (s <= k < e)%nat -> nth_error binary k = Some 0.

Definition preceded (binary : list Z) (s : nat) : Prop :=
  s = O \/ nonzero_at binary (s - 1).

(** A run closed by a later non-zero bit. *)
Definition closed_run (binary : list Z) (r : nat * nat) : Prop :=
  (0 < snd r)%nat /\ zeros_between binary (fst r) (fst r + snd r)
  /\ preceded binary (fst r) /\ nonzero_at binary (fst r + snd r).

(** A reported run: zeros only, and no zero bit on either side. *)
Definition maximal_run (binary : list Z) (r : nat * nat) : Prop :=
  (0 < snd r)%nat /\ zeros_between binary (fst r) (fst r + snd r)
  /\ preceded binary (fst r)
  /\ (nth_error binary (fst r + snd r) = None
      \/ nonzero_at binary (fst r + snd r)).

(** [r1] ends strictly before [r2] starts. *)
Definition run_before (r1 r2 : nat * nat) : Prop :=
  (fst r1 + snd r1 < fst r2)%nat.

Definition total_length (rs : list (nat * nat)) : nat := list_sum (map snd rs).

(** Index [k] lies inside one of the runs [rs]. *)
Definition covered (rs : list (nat * nat)) (k : nat) : Prop :=
  exists r, In r rs /\ (fst r <= k < fst r + snd r)%nat.

(** The loop invariant of [find_zero_runs] after the prefix [pre]. *)
Record scan_inv (pre : list Z) (st : scan_state) : Prop := mk_scan_inv {
  inv_open :
    match start_position st with
    | None => current_run st = O /\ preceded pre (List.length pre)
    | Some s =>
        (0 < current_run st)%nat
        /\ (s + current_run st = List.length pre)%nat
        /\ zeros_between pre s (List.length pre)
        /\ preceded pre s
    end;
  inv_closed : Forall (closed_run pre) (runs st);
  inv_sorted : StronglySorted run_before (runs st);
  inv_count : (total_length (runs st) + current_run st = zero_count pre)%nat
}.

(** ** Analysis, statistics and report *)

(** The running maximum of the loop. *)
Definition running_max (init : xfloat) (ratios : list xfloat) : xfloat :=
  fold_left xmax ratios init.

(** The runs that the loop does not skip, and what the loop records for one
    of them. *)
Definition analysed (zero_runs : list (nat * nat)) : list (nat * nat) :=
  filter (fun r => negb (fst r <? 1)%nat) zero_runs.

Section AnalysisVocabulary.
Variable log2 : Z -> Q.
Variable factor : Q.

Definition ratio_of (r : nat * nat) : xfloat :=
  run_ratio log2 factor (fst r) (snd r).

Definition run_entry (r : nat * nat) : RunData.t :=
  RunData.mk (fst r) (snd r) (run_bound log2 factor (fst r)) (ratio_of r).

Definition run_violation (r : nat * nat) : Violation.t :=
  Violation.mk (fst r) (snd r) (run_bound log2 factor (fst r)) (ratio_of r).

Definition violates (r : nat * nat) : bool := xltb (Fin 1) (ratio_of r).
End AnalysisVocabulary.

(** What is assumed of [math.log2] on the integers it is applied to: it lies
    between the floor and the ceiling of the binary logarithm (so it is exact
    on powers of two). *)
Definition log2_sound (log2 : Z -> Q) : Prop :=
  forall n : Z, 1 <= n ->
    (inject_Z (Z.log2 n) <= log2 n <= inject_Z (Z.log2_up n))%Q.

(** An instance: the floor of the logarithm. *)
Definition log2_floor (n : Z) : Q := inject_Z (Z.log2 n).

(** Instances for running the validator on examples: a square root to
    53 fractional bits, and the two behaviours of [stdev] on non-finite
    data. *)
Definition sqrt_approx (q : Q) : Q :=
  Z.sqrt (Qfloor (q * inject_Z (2 ^ 106))) # (2 ^ 53).

Definition stdev_raises (data : list xfloat) : exc pyfloat :=
  Raise (OtherError "AttributeError").

Definition stdev_nan (data : list xfloat) : exc pyfloat := OK NaN.

(** What is required of the list [rs] of runs reported for [binary]. *)
Definition runs_correct (binary : list Z) (rs : list (nat * nat)) : Prop :=
  (* non-overlapping, in strictly ascending order of start *)
  (forall i j r1 r2, (i < j)%nat ->
     nth_error rs i = Some r1 -> nth_error rs j = Some r2 ->
     (fst r1 + snd r1 <= fst r2)%nat /\ (fst r1 < fst r2)%nat)
  (* the lengths add up to the number of zero bits *)
  /\ list_sum (map snd rs) = count_occ Z.eq_dec binary 0
  (* each run is a maximal block of zeros *)
  /\ (forall s l, In (s, l) rs ->
        (0 < l)%nat
        /\ (forall k, (s <= k < s + l)%nat -> nth_error binary k = Some 0)
        /\ (s = O \/ nth_error binary (s - 1) = Some 1)
        /\ (nth_error binary (s + l) = None
            \/ nth_error binary (s + l) = Some 1)).


(** A rational that is an integer. *)
Definition Qis_int (q : Q) : Prop := exists n : Z, (q == inject_Z n)%Q.

Definition finite_count (ratios : list xfloat) : nat :=
  List.length (filter xfinite ratios).

Definition in_one_bucket (r : xfloat) : Prop :=
  (bucket_low r = true /\ bucket_medium r = false /\ bucket_high r = false)
  \/ (bucket_low r = false /\ bucket_medium r = true /\ bucket_high r = false)
  \/ (bucket_low r = false /\ bucket_medium r = false /\ bucket_high r = true).

Definition xle (a b : xfloat) : Prop := xleb a b = true.

(** The midpoint of a sorted sequence as the specification states it: on an
    even count the exact average of the two middle elements. *)
Definition midpoint (s : list xfloat) : xfloat :=
  let n := List.length s in
  if Nat.odd n then nth (n / 2) s PInf
  else xdiv_nat (xadd (nth (n / 2 - 1) s PInf) (nth (n / 2) s PInf)) 2.

(** What the statistics of [run_data] must be as the specification states
    it, mean and median in exact arithmetic. *)
Definition stats_correct (sqrt : Q -> Q)
           (stdev_nonfinite : list xfloat -> exc pyfloat)
           (run_data : list RunData.t) : Prop :=
  let ratios := map RunData.ratio run_data in
  let n := List.length ratios in
  (* whatever is returned holds the mean and the median of the ratios *)
  (forall st, compute_stats sqrt stdev_nonfinite run_data = OK (Some st) ->
     mean_ratio st = xdiv_nat (xsum ratios) n
     /\ (forall qs, finite_values ratios = Some qs ->
           mean_ratio st = Fin (Qsum qs / inject_Z (Z.of_nat n)))
     /\ (exists s, Permutation s ratios /\ StronglySorted xle s
                   /\ median_ratio st = midpoint s)
     /\ ratio_distribution st = distribution_of ratios)
  (* statistics are returned when the ratios are finite *)
  /\ (Forall (fun x => xfinite x = true) ratios ->
      exists st, compute_stats sqrt stdev_nonfinite run_data = OK (Some st))
  (* the ratios 0.2 and 0.5 *)
  /\ (forall a b, ratios = [Fin a; Fin b] -> (a == 0.2)%Q -> (b == 0.5)%Q ->
      exists st, compute_stats sqrt stdev_nonfinite run_data = OK (Some st)
                 /\ xeq (mean_ratio st) (Fin 0.35)
                 /\ xeq (median_ratio st) (Fin 0.35)
                 /\ ratio_distribution st = mk_distribution 1 1 0).

(** ** Binary64 vocabulary *)

(** A non-negative binary64 value, up to the range check. *)
Definition b64_grid (q : Q) : Prop :=
  exists m e : Z, 0 <= m <= 2 ^ 53 /\ -1074 <= e
                  /\ (q == inject_Z m * 2 ^ e)%Q.



Definition factor_1e320 : Q := 253 # (2 ^ 1071).
Definition factor_1e308 : Q := 1012011266536553 # (2 ^ 1073).

(** The midpoint as [statistics.median] computes it: on an even count the
    sum of the two middle elements and its half are float operations. *)
Definition float_midpoint (s : list xfloat) : xfloat :=
  let n := List.length s in
  if Nat.odd n then nth (n / 2) s PInf
  else xdiv_b64 (xadd_b64 (nth (n / 2 - 1) s PInf) (nth (n / 2) s PInf)) 2.

(** What the statistics of [run_data] are, in binary64. *)
Definition stats_computed (sqrt : Q -> Q)
           (stdev_nonfinite : list xfloat -> exc pyfloat)
           (run_data : list RunData.t) : Prop :=
  let ratios := map RunData.ratio run_data in
  let n := List.length ratios in
  (* whatever is returned holds the mean and the median of the ratios *)
  (forall st, compute_stats sqrt stdev_nonfinite run_data = OK (Some st) ->
     (* the exact mean, rounded once *)
     mean_ratio st = xround (xdiv_nat (xsum ratios) n)
     /\ (forall qs, finite_values ratios = Some qs ->
           mean_ratio st = b64_nonneg (Qsum qs / inject_Z (Z.of_nat n)))
     /\ (exists s, Permutation s ratios /\ StronglySorted xle s
                   /\ median_ratio st = float_midpoint s)
     /\ ratio_distribution st = distribution_of ratios)
  (* statistics are returned when the ratios are finite *)
  /\ (Forall (fun x => xfinite x = true) ratios ->
      exists st, compute_stats sqrt stdev_nonfinite run_data = OK (Some st))
  (* the floats 0.2 and 0.5 *)
  /\ (ratios = [b64_nonneg 0.2; b64_nonneg 0.5] ->
      exists st, compute_stats sqrt stdev_nonfinite run_data = OK (Some st)
                 /\ mean_ratio st = b64_nonneg 0.35
                 /\ median_ratio st = b64_nonneg 0.35
                 /\ ratio_distribution st = mk_distribution 1 1 0).

(** A float that is not negative: [+inf] or a binary64 value. *)
Definition is_float (x : xfloat) : Prop :=
  match x with
  | Fin q => b64_grid q
  | PInf => True
  end.

(** The floats that bound the statistics: the values a ratio can take. *)
Definition ratio_value (x : xfloat) : Prop :=
  is_float x /\ forall q, x = Fin q -> (q < 2 ^ 1024)%Q.

(** A result with infinite ratios: 5/16 validated over 8 bits with a factor
    of 0, [stdev] returning [nan] on the two infinite ratios. *)
Definition infinite_ratio_result : exc result :=
  validate_number log2_floor sqrt_approx stdev_nan 53 (5 # 16) 0 8 false.

Definition sample_case : Case.t :=
  Case.mk (5 # 16) 0 "5/16" "algebraic".

(** ** Extraction *)

(** A non-negative number that fits in [prec] bits. *)
Definition representable (prec : Z) (q : Q) : Prop :=
  exists m e : Z, 0 <= m < 2 ^ prec /\ (q == inject_Z m * 2 ^ e)%Q.

(** What the loop of [get_binary_expansion] keeps: a fraction that fits and
    lies in [0, 1). *)
Definition fraction_ok (prec : Z) (f : Q) : Prop :=
  representable prec f /\ (0 <= f < 1)%Q.

(** The multiply-and-extract algorithm in exact arithmetic: [length] times,
    double the fraction, take its integer part as the bit, subtract it. *)
Fixpoint exact_expansion (length : nat) (f : Q) : list Z :=
  match length with
  | O => []
  | S n =>
      let f2 := (f * 2)%Q in
      let bit := Qfloor f2 in
      bit :: exact_expansion n (f2 - inject_Z bit)
  end.

(** The fraction that the loop starts from. *)
Definition initial_fraction (prec : Z) (num : Q) : Q :=
  mpf_sub prec (mpf_round prec num) (mpf_floor (mpf_round prec num)).

(** ** Vocabulary of the further properties *)

(** The number that a list of binary digits after the point writes. *)
Definition bits_value (bits : list Z) : Q :=
  fold_right (fun b acc => ((inject_Z b + acc) / 2)%Q) 0%Q bits.

(** Index [k] lies inside the run [r]. *)
Definition inside (r : nat * nat) (k : nat) : Prop :=
  (fst r <= k < fst r + snd r)%nat.

(** A run moved [d] places to the right. *)
Definition shift_run (d : nat) (r : nat * nat) : nat * nat :=
  ((d + fst r)%nat, snd r).

(** Scanning [l] from index [i] on, starting in state [st]. *)
Definition scan_from (i : nat) (st : scan_state) (l : list Z) : scan_state :=
  fold_left scan_step (combine (seq i (List.length l)) l) st.

Definition shift_state (rs0 : list (nat * nat)) (d : nat) (st : scan_state)
  : scan_state :=
  mk_scan (rs0 ++ map (shift_run d) (runs st)) (current_run st)
          (option_map (Nat.add d) (start_position st)).

(** The violation record that the loop stores for a run-data entry. *)
Definition violation_of (d : RunData.t) : Violation.t :=
  Violation.mk (RunData.position d) (RunData.length d)
               (RunData.bound d) (RunData.ratio d).

(** [ratio > 1] on a run-data entry. *)
Definition exceeds (d : RunData.t) : bool := xltb (Fin 1) (RunData.ratio d).

(** 1 when the list of bits starts with a zero. *)
Definition leading_zero (bits : list Z) : nat :=
  match bits with
  | 0 :: _ => 1
  | _ => 0
  end.

(** The bits that a string of the digits 0 and 1 spells. *)
Fixpoint bits_of_string (s : string) : list Z :=
  match s with
  | EmptyString => []
  | String c t => (if Ascii.eqb c "1" then 1 else 0) :: bits_of_string t
  end.

Fixpoint binary_digits (s : string) : bool :=
  match s with
  | EmptyString => true
  | String c t => (Ascii.eqb c "0" || Ascii.eqb c "1") && binary_digits t
  end.

(** No list item or dict value, at any depth reached through lists, tuples
    and dict values, is a tuple or a number of the converted kinds; dict
    keys and other objects are not looked into. *)
Fixpoint fully_converted (obj : pyobj) : bool :=
  match obj with
  | PyMpf _ => false
  | PyTuple _ => false
  | PyList l => forallb fully_converted l
  | PyDict d => forallb (fun kv => fully_converted (snd kv)) d
  | _ => true
  end.

(** [len(obj)] of a list or a dict, [None] otherwise. *)
Definition container_size (obj : pyobj) : option nat :=
  match obj with
  | PyList l => Some (List.length l)
  | PyTuple l => Some (List.length l)
  | PyDict d => Some (List.length d)
  | _ => None
  end.

(** [old in text]. *)
Fixpoint occurs (old text : string) : bool :=
  String.prefix old text
  || match text with
     | EmptyString => false
     | String _ t => occurs old t
     end.

(** Bytes of a multi-byte UTF-8 character. *)
Definition high_byte (c : ascii) : bool := (128 <=? nat_of_ascii c)%nat.

Fixpoint all_bytes (p : ascii -> bool) (s : string) : bool :=
  match s with
  | EmptyString => true
  | String c t => p c && all_bytes p t
  end.

Definition symbols : list string := map fst replacements.

Definition free_of_symbols (text : string) : Prop :=
  Forall (fun sym => occurs sym text = false) symbols.

Fixpoint drop (n : nat) (s : string) : string :=
  match n, s with
  | O, _ => s
  | S k, EmptyString => EmptyString
  | S k, String _ t => drop k t
  end.

(** A replacement of a multi-byte character by ASCII text. *)
Definition ascii_for_symbol (on : string * string) : Prop :=
  fst on <> EmptyString /\ all_bytes high_byte (fst on) = true
  /\ snd on <> EmptyString
  /\ all_bytes (fun c => negb (high_byte c)) (snd on) = true.

(** The record that [load_data] builds from the report record of a result
    with statistics [st]. *)
Definition dashboard_entry (case : Case.t) (r : result) (st : stats) : pyobj :=
  PyDict [("name", PyStr (replace_special_chars (Case.name case)));
          ("type", PyStr (Case.type case));
          ("meanRatio", PyFloat (Real (mean_ratio st)));
          ("medianRatio", PyFloat (Real (median_ratio st)));
          ("stdDev", PyFloat (std_ratio st));
          ("totalRuns", PyInt (Z.of_nat (total_runs r)));
          ("distribution",
            PyDict [("low", PyInt (Z.of_nat (low (ratio_distribution st))));
                    ("medium",
                      PyInt (Z.of_nat (medium (ratio_distribution st))));
                    ("high", PyInt (Z.of_nat (high (ratio_distribution st))))]);
          ((if String.eqb (Case.type case) "algebraic"
            then "degree" else "measure"),
            PyFloat (Real (Fin (factor r))))]%string.

(** The number of runs analysed for a test case. *)
Definition analysed_count (prec : Z) (test_length : nat) (case : Case.t)
  : nat :=
  List.length
    (analysed (find_zero_runs
                 (get_binary_expansion prec (Case.number case) test_length))).

(** * Properties *)

(** ** Run finding *)

Lemma combine_snoc {A B : Type} (l : list A) (l' : list B) (a : A) (b : B) :
  List.length l = List.length l' ->
  combine (l ++ [a]) (l' ++ [b]) = combine l l' ++ [(a, b)].
Proof.
  revert l'. induction l as [|x l IH]; intros [|y l'] H; simpl in *;
    try discriminate; auto.
  f_equal. apply IH. congruence.
Qed.

Lemma enumerate_snoc {A : Type} (l : list A) (a : A) :
  enumerate (l ++ [a]) = enumerate l ++ [(List.length l, a)].
Proof.
  unfold enumerate. rewrite last_length, seq_S. simpl.
  apply combine_snoc. now rewrite length_seq.
Qed.

Section Sortedness.
Context {A : Type}.
Variable R : A -> A -> Prop.

Lemma StronglySorted_snoc (l : list A) (a : A) :
  StronglySorted R l -> Forall (fun x => R x a) l ->
  StronglySorted R (l ++ [a]).
Proof.
  induction 1 as [|x l Hs IH Hx]; intros Hall; simpl.
  - repeat constructor.
  - inversion Hall; subst. constructor; auto.
    apply Forall_app; split; auto.
Qed.

Lemma StronglySorted_nth (l : list A) :
  StronglySorted R l ->
  forall i j a b, (i < j)%nat ->
    nth_error l i = Some a -> nth_error l j = Some b -> R a b.
Proof.
  induction 1 as [|x l Hs IH Hx]; intros i j a b Hij Hi Hj.
  - destruct i; discriminate.
  - destruct j as [|j]; [lia|]. simpl in Hj.
    destruct i as [|i]; simpl in Hi.
    + injection Hi as <-. rewrite Forall_forall in Hx.
      apply Hx. eapply nth_error_In; eauto.
    + apply (IH i j); auto. lia.
Qed.
End Sortedness.

Lemma scan_snoc (pre : list Z) (b : Z) :
  scan (pre ++ [b]) = scan_step (scan pre) (List.length pre, b).
Proof.
  unfold scan. now rewrite enumerate_snoc, fold_left_app.
Qed.

Lemma zero_count_snoc (pre : list Z) (b : Z) :
  zero_count (pre ++ [b]) =
  (zero_count pre + if (b =? 0)%Z then 1 else 0)%nat.
Proof.
  unfold zero_count. rewrite count_occ_app. simpl.
  destruct (Z.eq_dec b 0) as [->|Hb]; simpl; auto.
  apply Z.eqb_neq in Hb. now rewrite Hb.
Qed.

Lemma total_length_snoc (rs : list (nat * nat)) (r : nat * nat) :
  total_length (rs ++ [r]) = (total_length rs + snd r)%nat.
Proof.
  unfold total_length. rewrite map_app, list_sum_app. simpl. lia.
Qed.

(** Facts about a prefix survive one more bit. *)
Lemma nonzero_at_snoc pre b k : nonzero_at pre k -> nonzero_at (pre ++ [b]) k.
Proof.
  intros (x & Hx & Hnz). exists x. split; auto.
  rewrite nth_error_app1; auto. apply nth_error_Some. congruence.
Qed.

Lemma zeros_between_snoc pre b s e :
  zeros_between pre s e -> zeros_between (pre ++ [b]) s e.
Proof.
  intros H k Hk. specialize (H k Hk).
  rewrite nth_error_app1; auto. apply nth_error_Some. congruence.
Qed.

Lemma preceded_snoc pre b s : preceded pre s -> preceded (pre ++ [b]) s.
Proof. intros [H|H]; [now left | right; now apply nonzero_at_snoc]. Qed.

Lemma closed_run_snoc pre b r : closed_run pre r -> closed_run (pre ++ [b]) r.
Proof.
  intros (Hl & Hz & Hp & Hn). repeat split; auto using
    zeros_between_snoc, preceded_snoc, nonzero_at_snoc.
Qed.

Lemma nth_error_last (pre : list Z) (b : Z) :
  nth_error (pre ++ [b]) (List.length pre) = Some b.
Proof. rewrite nth_error_app2, Nat.sub_diag; auto. Qed.

Lemma preceded_next pre b : b <> 0 -> preceded (pre ++ [b]) (S (List.length pre)).
Proof.
  intros Hb. right. exists b. split; auto.
  simpl. rewrite Nat.sub_0_r. apply nth_error_last.
Qed.

(** A closed run lies before a later stretch of zeros that reaches the end
    of the prefix. *)
Lemma closed_before_open pre r s :
  closed_run pre r -> zeros_between pre s (List.length pre) ->
  (fst r + snd r < s)%nat.
Proof.
  intros (_ & _ & _ & (b & Hb & Hnz)) Hz.
  assert (Hlt : (fst r + snd r < List.length pre)%nat)
    by (apply nth_error_Some; congruence).
  destruct (Nat.lt_ge_cases (fst r + snd r) s) as [|Hge]; auto.
  rewrite (Hz (fst r + snd r)%nat) in Hb by lia. congruence.
Qed.

Lemma scan_inv_nil : scan_inv [] (scan []).
Proof.
  constructor; simpl; auto.
  - split; auto. now left.
  - constructor.
Qed.

Lemma scan_inv_step pre st b :
  scan_inv pre st -> scan_inv (pre ++ [b]) (scan_step st (List.length pre, b)).
Proof.
  intros [Hopen Hclosed Hsorted Hcount]. unfold scan_step.
  destruct (Z.eqb_spec b 0) as [->|Hb].
  - (* a zero bit: open or extend the run *)
    constructor; simpl.
    + rewrite last_length.
      destruct (start_position st) as [s|].
      * destruct Hopen as (Hc & Hs & Hz & Hp).
        repeat split; try lia; auto using preceded_snoc.
        intros k Hk. destruct (Nat.eq_dec k (List.length pre)) as [->|Hne].
        -- apply nth_error_last.
        -- apply (zeros_between_snoc pre 0 s (List.length pre) Hz). lia.
      * destruct Hopen as (Hc & Hp).
        repeat split; try lia; auto using preceded_snoc.
        intros k Hk. replace k with (List.length pre) by lia.
        apply nth_error_last.
    + eapply Forall_impl; [|exact Hclosed]. intros r. apply closed_run_snoc.
    + exact Hsorted.
    + rewrite zero_count_snoc. simpl. lia.
  - (* a non-zero bit: close the run, if one is open *)
    unfold append_run.
    destruct (start_position st) as [s|].
    + destruct Hopen as (Hc & Hs & Hz & Hp).
      apply Nat.ltb_lt in Hc as Hc'. rewrite Hc'.
      constructor; simpl.
      * split; auto. rewrite last_length. now apply preceded_next.
      * apply Forall_app. split.
        -- eapply Forall_impl; [|exact Hclosed]. intros r. apply closed_run_snoc.
        -- constructor; [|constructor].
           repeat split; simpl; auto using zeros_between_snoc, preceded_snoc.
           ++ rewrite Hs. now apply zeros_between_snoc.
           ++ rewrite Hs. exists b. split; auto. apply nth_error_last.
      * apply StronglySorted_snoc; auto.
        eapply Forall_impl; [|exact Hclosed]. intros r Hr.
        unfold run_before. simpl. eapply closed_before_open; eauto.
      * rewrite total_length_snoc, zero_count_snoc. simpl.
        apply Z.eqb_neq in Hb. rewrite Hb. lia.
    + destruct Hopen as (Hc & Hp). rewrite Hc. simpl.
      constructor; simpl.
      * split; auto. rewrite last_length. now apply preceded_next.
      * eapply Forall_impl; [|exact Hclosed]. intros r. apply closed_run_snoc.
      * exact Hsorted.
      * rewrite zero_count_snoc. apply Z.eqb_neq in Hb. rewrite Hb. lia.
Qed.

Lemma scan_invariant (binary : list Z) : scan_inv binary (scan binary).
Proof.
  induction binary as [|b pre IH] using rev_ind.
  - apply scan_inv_nil.
  - rewrite scan_snoc. now apply scan_inv_step.
Qed.

(** [runs.append((start_position, current_run))] never stores [None]. *)
Lemma scan_start_set (binary : list Z) :
  (0 < current_run (scan binary))%nat ->
  exists s, start_position (scan binary) = Some s.
Proof.
  intros Hc. destruct (scan_invariant binary) as [Hopen _ _ _].
  destruct (start_position (scan binary)) as [s|]; eauto.
  destruct Hopen; lia.
Qed.

Lemma closed_run_maximal binary r : closed_run binary r -> maximal_run binary r.
Proof. intros (? & ? & ? & ?). repeat split; auto. Qed.

Lemma find_zero_runs_maximal (binary : list Z) :
  Forall (maximal_run binary) (find_zero_runs binary).
Proof.
  unfold find_zero_runs, append_run.
  destruct (scan_invariant binary) as [Hopen Hclosed _ _].
  assert (Hruns : Forall (maximal_run binary) (runs (scan binary)))
    by (eapply Forall_impl; [|exact Hclosed]; apply closed_run_maximal).
  destruct (start_position (scan binary)) as [s|].
  - destruct Hopen as (Hc & Hs & Hz & Hp).
    apply Nat.ltb_lt in Hc as Hc'. rewrite Hc'.
    apply Forall_app. split; auto. constructor; [|constructor].
    repeat split; simpl; auto; rewrite Hs; auto.
    left. apply nth_error_None. lia.
  - destruct Hopen as (-> & _). exact Hruns.
Qed.

Lemma find_zero_runs_sorted (binary : list Z) :
  StronglySorted run_before (find_zero_runs binary).
Proof.
  unfold find_zero_runs, append_run.
  destruct (scan_invariant binary) as [Hopen Hclosed Hsorted _].
  destruct (start_position (scan binary)) as [s|].
  - destruct Hopen as (Hc & Hs & Hz & Hp).
    apply Nat.ltb_lt in Hc as Hc'. rewrite Hc'.
    apply StronglySorted_snoc; auto.
    eapply Forall_impl; [|exact Hclosed]. intros r Hr.
    unfold run_before. simpl. eapply closed_before_open; eauto.
  - destruct Hopen as (-> & _). exact Hsorted.
Qed.

Lemma find_zero_runs_total (binary : list Z) :
  total_length (find_zero_runs binary) = zero_count binary.
Proof.
  unfold find_zero_runs, append_run.
  destruct (scan_invariant binary) as [Hopen _ _ Hcount].
  destruct (start_position (scan binary)) as [s|].
  - destruct Hopen as (Hc & _).
    apply Nat.ltb_lt in Hc as Hc'. rewrite Hc'.
    rewrite total_length_snoc. simpl. lia.
  - destruct Hopen as (Hc & _). rewrite Hc in *. simpl. lia.
Qed.

(** Every zero bit seen so far lies in a closed run or in the open one. *)
Lemma scan_cover (binary : list Z) (k : nat) :
  nth_error binary k = Some 0 ->
  covered (runs (scan binary)) k
  \/ exists s, start_position (scan binary) = Some s /\ (s <= k)%nat.
Proof.
  revert k. induction binary as [|b pre IH] using rev_ind; intros k Hk.
  - destruct k; discriminate.
  - rewrite scan_snoc. destruct (scan_invariant pre) as [Hopen _ _ _].
    unfold scan_step, append_run.
    destruct (Nat.lt_ge_cases k (List.length pre)) as [Hlt|Hge].
    + rewrite nth_error_app1 in Hk by auto.
      destruct (IH k Hk) as [(r & Hin & Hr)|(s & Hs & Hsk)].
      * left. exists r. split; auto.
        destruct (b =? 0); simpl; auto.
        destruct (0 <? current_run (scan pre))%nat; auto.
        destruct (start_position (scan pre)); auto. apply in_or_app. now left.
      * rewrite Hs in *. destruct Hopen as (Hc & Hlen & _ & _).
        destruct (b =? 0); simpl.
        -- right. eauto.
        -- apply Nat.ltb_lt in Hc as Hc'. rewrite Hc'. left.
           exists (s, current_run (scan pre)). split.
           ++ apply in_or_app. right. now left.
           ++ simpl. lia.
    + assert (k = List.length pre).
      { apply Nat.le_antisymm; auto.
        assert (k < List.length (pre ++ [b]))%nat
          by (apply nth_error_Some; congruence).
        rewrite last_length in *. lia. }
      subst k. rewrite nth_error_last in Hk. injection Hk as ->.
      simpl. right.
      destruct (start_position (scan pre)) as [s|]; [|eauto].
      destruct Hopen as (_ & Hlen & _ & _). exists s. split; auto. lia.
Qed.

(** Exhaustive: every zero bit belongs to a reported run ... *)
Lemma find_zero_runs_cover (binary : list Z) (k : nat) :
  nth_error binary k = Some 0 -> covered (find_zero_runs binary) k.
Proof.
  intros Hk. unfold find_zero_runs, append_run.
  destruct (scan_invariant binary) as [Hopen _ _ _].
  assert (Hlt : (k < List.length binary)%nat)
    by (apply nth_error_Some; congruence).
  destruct (scan_cover binary k Hk) as [(r & Hin & Hr)|(s & Hs & Hsk)].
  - exists r. split; auto.
    destruct (0 <? current_run (scan binary))%nat; auto.
    destruct (start_position (scan binary)); auto. apply in_or_app. now left.
  - rewrite Hs in *. destruct Hopen as (Hc & Hlen & _ & _).
    apply Nat.ltb_lt in Hc as Hc'. rewrite Hc'.
    exists (s, current_run (scan binary)). split.
    + apply in_or_app. right. now left.
    + simpl. lia.
Qed.

(** ... and to one only. *)
Lemma find_zero_runs_cover_unique (binary : list Z) (k : nat) (r1 r2 : nat * nat) :
  In r1 (find_zero_runs binary) -> In r2 (find_zero_runs binary) ->
  (fst r1 <= k < fst r1 + snd r1)%nat -> (fst r2 <= k < fst r2 + snd r2)%nat ->
  r1 = r2.
Proof.
  intros H1 H2 Hk1 Hk2.
  apply In_nth_error in H1 as (i & Hi). apply In_nth_error in H2 as (j & Hj).
  pose proof (find_zero_runs_sorted binary) as Hs.
  destruct (Nat.lt_trichotomy i j) as [Hlt|[->|Hlt]].
  - pose proof (StronglySorted_nth _ _ Hs i j r1 r2 Hlt Hi Hj) as Hb.
    unfold run_before in Hb. lia.
  - congruence.
  - pose proof (StronglySorted_nth _ _ Hs j i r2 r1 Hlt Hj Hi) as Hb.
    unfold run_before in Hb. lia.
Qed.


(** ** Comparisons on rationals and floats *)

Lemma Qltb_lt (x y : Q) : Qltb x y = true <-> (x < y)%Q.
Proof.
  unfold Qltb. rewrite negb_true_iff, <- not_true_iff_false, Qle_bool_iff.
  split; [apply Qnot_le_lt | apply Qlt_not_le].
Qed.

Lemma Qltb_ge (x y : Q) : Qltb x y = false <-> (y <= x)%Q.
Proof.
  unfold Qltb. rewrite negb_false_iff. apply Qle_bool_iff.
Qed.

Lemma Qle_bool_false (x y : Q) : Qle_bool x y = false <-> (y < x)%Q.
Proof.
  rewrite <- not_true_iff_false, Qle_bool_iff.
  split; [apply Qnot_le_lt | apply Qlt_not_le].
Qed.

Lemma xltb_irrefl (a : xfloat) : xltb a a = false.
Proof. destruct a; simpl; auto. apply Qltb_ge. apply Qle_refl. Qed.

Lemma xleb_refl (a : xfloat) : xleb a a = true.
Proof. destruct a; simpl; auto. apply Qle_bool_iff. apply Qle_refl. Qed.

Lemma xleb_trans (a b c : xfloat) :
  xleb a b = true -> xleb b c = true -> xleb a c = true.
Proof.
  destruct a, b, c; simpl; auto; try discriminate.
  rewrite !Qle_bool_iff. apply Qle_trans.
Qed.

Lemma xltb_xleb (a b : xfloat) : xltb a b = true -> xleb a b = true.
Proof.
  destruct a, b; simpl; auto. rewrite Qltb_lt, Qle_bool_iff. apply Qlt_le_weak.
Qed.

Lemma xltb_false_xleb (a b : xfloat) : xltb a b = false -> xleb b a = true.
Proof.
  destruct a, b; simpl; auto; try discriminate.
  now rewrite Qltb_ge, Qle_bool_iff.
Qed.

Lemma xleb_total (a b : xfloat) : xleb a b = true \/ xleb b a = true.
Proof.
  destruct (xltb a b) eqn:E; [left; now apply xltb_xleb
                             | right; now apply xltb_false_xleb].
Qed.

Lemma xmax_ub_l (a b : xfloat) : xleb a (xmax a b) = true.
Proof.
  unfold xmax. destruct (xltb a b) eqn:E; [now apply xltb_xleb|apply xleb_refl].
Qed.

Lemma xmax_ub_r (a b : xfloat) : xleb b (xmax a b) = true.
Proof.
  unfold xmax. destruct (xltb a b) eqn:E; [apply xleb_refl|].
  now apply xltb_false_xleb.
Qed.

Lemma running_max_ge_init (ratios : list xfloat) (init : xfloat) :
  xleb init (running_max init ratios) = true.
Proof.
  revert init. induction ratios as [|x l IH]; intros init; simpl.
  - apply xleb_refl.
  - eapply xleb_trans; [apply xmax_ub_l | apply IH].
Qed.

Lemma running_max_ub (ratios : list xfloat) (init x : xfloat) :
  In x ratios -> xleb x (running_max init ratios) = true.
Proof.
  revert init. induction ratios as [|y l IH]; intros init Hin; simpl.
  - destruct Hin.
  - destruct Hin as [->|Hin]; [|now apply IH].
    eapply xleb_trans; [apply xmax_ub_r | apply running_max_ge_init].
Qed.

Lemma xltb_not_xleb (a b : xfloat) : xltb a b = true -> xleb b a = false.
Proof.
  destruct a, b; simpl; auto; try discriminate.
  rewrite Qltb_lt, <- not_true_iff_false, Qle_bool_iff. apply Qlt_not_le.
Qed.

(** The running maximum is the start value or one of the ratios. *)
Lemma running_max_cases (ratios : list xfloat) (init : xfloat) :
  running_max init ratios = init \/ In (running_max init ratios) ratios.
Proof.
  revert init. induction ratios as [|y l IH]; intros init; [now left|].
  change (running_max init (y :: l)) with (running_max (xmax init y) l).
  destruct (IH (xmax init y)) as [E|Hin]; [|right; now right].
  rewrite E. unfold xmax. destruct (xltb init y); [right|left]; simpl; auto.
Qed.

(** It is one of the ratios as soon as one of them exceeds the start value. *)
Lemma running_max_attained (ratios : list xfloat) (init x : xfloat) :
  In x ratios -> xltb init x = true -> In (running_max init ratios) ratios.
Proof.
  intros Hin Hlt. destruct (running_max_cases ratios init) as [E|H]; auto.
  pose proof (running_max_ub ratios init x Hin) as Hub.
  rewrite E in Hub. apply xltb_not_xleb in Hlt. congruence.
Qed.

(** ** The loop over the runs *)

Section Analysis.
Variable log2 : Z -> Q.
Variable factor : Q.

Lemma analyze_step_eq (st : analysis) (r : nat * nat) :
  analyze_step log2 factor st r =
  if (fst r <? 1)%nat then st
  else mk_analysis
         (if violates log2 factor r
          then a_violations st ++ [run_violation log2 factor r]
          else a_violations st)
         (a_run_data st ++ [run_entry log2 factor r])
         (xmax (a_max_ratio st) (ratio_of log2 factor r)).
Proof. now destruct r. Qed.

Lemma analyze_fold (zero_runs : list (nat * nat)) (st : analysis) :
  fold_left (analyze_step log2 factor) zero_runs st =
  mk_analysis
    (a_violations st
     ++ map (run_violation log2 factor)
            (filter (violates log2 factor) (analysed zero_runs)))
    (a_run_data st ++ map (run_entry log2 factor) (analysed zero_runs))
    (running_max (a_max_ratio st)
                 (map (ratio_of log2 factor) (analysed zero_runs))).
Proof.
  revert st. induction zero_runs as [|r rs IH]; intros st.
  - cbn. rewrite !app_nil_r. now destruct st.
  - cbn [fold_left]. rewrite IH, analyze_step_eq. unfold analysed.
    cbn [filter]. destruct (fst r <? 1)%nat; cbn [negb]; auto.
    cbn [filter map a_violations a_run_data a_max_ratio running_max fold_left].
    destruct (violates log2 factor r); cbn [map]; now rewrite <- ?app_assoc.
Qed.

Lemma analyze_eq (zero_runs : list (nat * nat)) :
  analyze log2 factor zero_runs =
  mk_analysis
    (map (run_violation log2 factor)
         (filter (violates log2 factor) (analysed zero_runs)))
    (map (run_entry log2 factor) (analysed zero_runs))
    (running_max (Fin 0) (map (ratio_of log2 factor) (analysed zero_runs))).
Proof. unfold analyze. now rewrite analyze_fold. Qed.

(** A run at position 0 leaves the analysis as it is. *)
Lemma analyze_skip_zero (l : nat) (rest : list (nat * nat)) :
  analyze log2 factor ((O, l) :: rest) = analyze log2 factor rest.
Proof. reflexivity. Qed.

Lemma analysed_In (zero_runs : list (nat * nat)) (r : nat * nat) :
  In r (analysed zero_runs) <-> In r zero_runs /\ (1 <= fst r)%nat.
Proof.
  unfold analysed. rewrite filter_In, negb_true_iff, Nat.ltb_ge. tauto.
Qed.

Lemma ratio_of_run_entry (rs : list (nat * nat)) :
  map RunData.ratio (map (run_entry log2 factor) rs)
  = map (ratio_of log2 factor) rs.
Proof. rewrite map_map. reflexivity. Qed.
End Analysis.

(** ** Statistics *)

Lemma insert_sorted_length (x : xfloat) (l : list xfloat) :
  List.length (insert_sorted x l) = S (List.length l).
Proof.
  induction l as [|y t IH]; simpl; auto.
  destruct (xleb x y); simpl; auto.
Qed.

Lemma sorted_length (data : list xfloat) :
  List.length (sorted data) = List.length data.
Proof.
  induction data as [|x t IH]; simpl; auto.
  now rewrite insert_sorted_length, IH.
Qed.

Lemma finite_values_Forall (data : list xfloat) :
  Forall (fun x => xfinite x = true) data ->
  exists qs, finite_values data = Some qs.
Proof.
  induction 1 as [|x l Hx Hl (qs & IH)]; simpl; eauto.
  destruct x; [|discriminate]. rewrite IH. simpl. eauto.
Qed.

Section StatsFacts.
Variable sqrt : Q -> Q.
Variable stdev_nonfinite : list xfloat -> exc pyfloat.

Lemma compute_stats_nil : compute_stats sqrt stdev_nonfinite [] = OK None.
Proof. reflexivity. Qed.

(** One analysed run: [stdev] has a single data point. *)
Lemma compute_stats_single (d : RunData.t) :
  compute_stats sqrt stdev_nonfinite [d] = Raise StatisticsError.
Proof. reflexivity. Qed.

Lemma mean_OK (data : list xfloat) :
  data <> [] ->
  mean data = OK (xround (xdiv_nat (xsum data) (List.length data))).
Proof. destruct data; [congruence | reflexivity]. Qed.

Lemma median_OK (data : list xfloat) :
  data <> [] -> exists md, median data = OK md.
Proof.
  intros Hne. unfold median. rewrite sorted_length.
  destruct data as [|x t]; [congruence|]. simpl (_ =? _)%nat. cbv iota.
  destruct (Nat.odd _); eauto.
Qed.

Lemma stdev_OK (data : list xfloat) :
  (2 <= List.length data)%nat ->
  Forall (fun x => xfinite x = true) data ->
  exists sd, stdev sqrt stdev_nonfinite data = OK sd.
Proof.
  intros Hlen Hfin. unfold stdev.
  apply Nat.ltb_ge in Hlen. rewrite Hlen.
  destruct (finite_values_Forall data Hfin) as (qs & ->). eauto.
Qed.

(** Two or more analysed runs with finite ratios: all four statistics are
    produced. *)
Lemma compute_stats_OK (run_data : list RunData.t) :
  (2 <= List.length run_data)%nat ->
  Forall (fun d => xfinite (RunData.ratio d) = true) run_data ->
  exists m md sd,
    mean (map RunData.ratio run_data) = OK m
    /\ median (map RunData.ratio run_data) = OK md
    /\ stdev sqrt stdev_nonfinite (map RunData.ratio run_data) = OK sd
    /\ compute_stats sqrt stdev_nonfinite run_data =
       OK (Some (mk_stats m md sd (distribution_of (map RunData.ratio run_data)))).
Proof.
  intros Hlen Hfin.
  assert (Hne : map RunData.ratio run_data <> [])
    by (destruct run_data; simpl in *; [lia | congruence]).
  destruct (median_OK _ Hne) as (md & Hmd).
  destruct (stdev_OK (map RunData.ratio run_data)) as (sd & Hsd).
  { now rewrite length_map. }
  { now apply Forall_map. }
  exists (xround (xdiv_nat (xsum (map RunData.ratio run_data))
                           (List.length (map RunData.ratio run_data)))), md, sd.
  rewrite (mean_OK _ Hne), Hmd, Hsd. repeat split.
  unfold compute_stats. destruct run_data; [simpl in Hlen; lia|].
  rewrite (mean_OK _ Hne), Hmd, Hsd. reflexivity.
Qed.
End StatsFacts.

(** ** The logarithm *)

Lemma log2_floor_sound : log2_sound log2_floor.
Proof.
  intros n Hn. unfold log2_floor. split; [apply Qle_refl|].
  rewrite <- Zle_Qle. apply Z.le_log2_log2_up.
Qed.

Lemma log2_sound_ge_1 (log2 : Z -> Q) :
  log2_sound log2 -> forall n, 2 <= n -> (1 <= log2 n)%Q.
Proof.
  intros H n Hn. destruct (H n ltac:(lia)) as [Hlo _].
  eapply Qle_trans; [|exact Hlo].
  change 1%Q with (inject_Z 1). rewrite <- Zle_Qle.
  change 1 with (Z.log2 2). now apply Z.log2_le_mono.
Qed.

Lemma log2_sound_pow2 (log2 : Z -> Q) :
  log2_sound log2 -> forall k, 0 <= k -> (log2 (2 ^ k)%Z == inject_Z k)%Q.
Proof.
  intros H k Hk. destruct (H (2 ^ k)) as [Hlo Hhi].
  { pose proof (Z.pow_pos_nonneg 2 k). lia. }
  rewrite Z.log2_pow2 in Hlo by auto.
  rewrite Z.log2_up_pow2 in Hhi by auto.
  now apply Qle_antisym.
Qed.

(** ** Validation *)

Lemma filter_nil_iff {A : Type} (f : A -> bool) (l : list A) :
  filter f l = [] <-> forall x, In x l -> f x = false.
Proof.
  induction l as [|a l IH]; simpl.
  - split; [intros _ x [] | auto].
  - destruct (f a) eqn:E.
    + split; [discriminate|]. intros H. specialize (H a (or_introl eq_refl)).
      congruence.
    + rewrite IH. split.
      * intros H x [<-|Hx]; auto.
      * intros H x Hx. apply H. now right.
Qed.

Lemma length_eqb_0 {A : Type} (l : list A) :
  Nat.eqb (List.length l) 0 = true <-> l = [].
Proof. destruct l; simpl; split; congruence. Qed.

Section ValidateFacts.
Variable log2 : Z -> Q.
Variable sqrt : Q -> Q.
Variable stdev_nonfinite : list xfloat -> exc pyfloat.

(** What a returned result holds. *)
Lemma validate_number_inv prec number factor length is_transcendental r :
  validate_number log2 sqrt stdev_nonfinite prec number factor length
                  is_transcendental = OK r ->
  let binary := get_binary_expansion prec number length in
  let zero_runs := find_zero_runs binary in
  let a := analyze log2 factor zero_runs in
  compute_stats sqrt stdev_nonfinite (a_run_data a) = OK (result_stats r)
  /\ valid r = Nat.eqb (List.length (a_violations a)) 0
  /\ violations r = a_violations a
  /\ max_ratio r = a_max_ratio a
  /\ total_runs r = List.length zero_runs
  /\ binary_prefix r = firstn 50 binary
  /\ run_data r = a_run_data a.
Proof.
  unfold validate_number. intros H.
  destruct (compute_stats _ _ _) as [st|e]; [|discriminate].
  simpl in H. injection H as <-. simpl. repeat split.
Qed.

(** With finite ratios the call returns unless exactly one run is analysed,
    in which case [stdev] raises. *)
Lemma validate_number_returns prec number factor length is_transcendental :
  Forall (fun x => xfinite x = true)
         (map (ratio_of log2 factor)
              (analysed (find_zero_runs
                           (get_binary_expansion prec number length)))) ->
  List.length
    (analysed (find_zero_runs (get_binary_expansion prec number length)))
  <> 1%nat ->
  exists r, validate_number log2 sqrt stdev_nonfinite prec number factor
                            length is_transcendental = OK r.
Proof.
  intros Hfin Hlen. unfold validate_number.
  rewrite analyze_eq. cbn [a_run_data].
  set (rs := analysed _) in *.
  destruct rs as [|r1 [|r2 rs']] eqn:E.
  - simpl. eauto.
  - simpl in Hlen. congruence.
  - destruct (compute_stats_OK sqrt stdev_nonfinite
                (map (run_entry log2 factor) (r1 :: r2 :: rs')))
      as (m & md & sd & _ & _ & _ & ->).
    + simpl. lia.
    + apply Forall_map. apply Forall_map in Hfin. exact Hfin.
    + simpl. eauto.
Qed.

Lemma validate_number_one_analysed prec number factor length is_transcendental :
  List.length
    (analysed (find_zero_runs (get_binary_expansion prec number length)))
  = 1%nat ->
  validate_number log2 sqrt stdev_nonfinite prec number factor length
                  is_transcendental = Raise StatisticsError.
Proof.
  intros Hlen. unfold validate_number. rewrite analyze_eq. cbn [a_run_data].
  destruct (analysed _) as [|r1 [|r2 rs']]; try discriminate.
  reflexivity.
Qed.
End ValidateFacts.

(** ** The claims on run finding and bound analysis *)

Lemma nonzero_bit_is_1 (binary : list Z) (k : nat) :
  Forall is_bit binary -> nonzero_at binary k -> nth_error binary k = Some 1.
Proof.
  intros Hbits (b & Hb & Hnz). rewrite Hb. f_equal.
  rewrite Forall_forall in Hbits.
  destruct (Hbits b (nth_error_In _ _ Hb)); congruence.
Qed.

(** C4: for every binary sequence the runs returned by [find_zero_runs] are
    pairwise non-overlapping and listed in strictly ascending order of start
    position, their lengths sum to the number of zero bits of the input, and
    each run is maximal: the bit just before its start and the bit just after
    its end are 1 or lie outside the sequence. *)
Theorem find_zero_runs_correct (binary : list Z) :
  Forall is_bit binary -> runs_correct binary (find_zero_runs binary).
Proof.
  intros Hbits. split; [|split].
  - intros i j r1 r2 Hij H1 H2.
    pose proof (StronglySorted_nth _ _ (find_zero_runs_sorted binary)
                  i j r1 r2 Hij H1 H2) as Hb.
    unfold run_before in Hb. lia.
  - apply find_zero_runs_total.
  - intros s l Hin.
    pose proof (find_zero_runs_maximal binary) as Hmax.
    rewrite Forall_forall in Hmax.
    destruct (Hmax _ Hin) as (Hl & Hz & Hp & Ha). simpl in *.
    repeat split; auto.
    + destruct Hp as [Hp|Hp]; [now left | right].
      now apply nonzero_bit_is_1.
    + destruct Ha as [Ha|Ha]; [now left | right].
      now apply nonzero_bit_is_1.
Qed.

Lemma find_zero_runs_correct_witness :
  Forall is_bit [0; 0; 1; 0; 1; 1; 0; 0; 0]
  /\ runs_correct [0; 0; 1; 0; 1; 1; 0; 0; 0]
                  (find_zero_runs [0; 0; 1; 0; 1; 1; 0; 0; 0]).
Proof.
  assert (H : Forall is_bit [0; 0; 1; 0; 1; 1; 0; 0; 0])
    by (repeat constructor; unfold is_bit; auto).
  split; [exact H | exact (find_zero_runs_correct _ H)].
Defined.

(** ** Extraction *)

(** At 53 bits the rounding gives the binary64 neighbours: 0.1 becomes
    3602879701896397 / 2^55, and a tie goes to the even significand. *)
Example mpf_round_tenth :
  mpf_round 53 0.1 = (3602879701896397 # 36028797018963968)%Q.
Proof. vm_compute. reflexivity. Qed.

Example mpf_round_tie :
  mpf_round 2 5 = 4%Q /\ mpf_round 2 7 = 8%Q /\ mpf_round 2 (-5) = (-4)%Q.
Proof. vm_compute. repeat split. Qed.

(** The expansion of 0.5 over 8 bits and its single run. *)
Example expansion_of_half :
  get_binary_expansion 53 0.5 8 = [1; 0; 0; 0; 0; 0; 0; 0]
  /\ find_zero_runs [1; 0; 0; 0; 0; 0; 0; 0] = [(1, 7)]%nat.
Proof. vm_compute. split; reflexivity. Qed.

Lemma Qpower_2_nonneg (k : Z) : 0 <= k -> (2 ^ k == inject_Z (2 ^ k))%Q.
Proof. intros Hk. now rewrite Zpower_Qpower. Qed.

Lemma Qpower_2_neg (k : Z) : k < 0 -> (2 ^ k == / inject_Z (2 ^ (- k)))%Q.
Proof.
  intros Hk. replace k with (- - k) at 1 by lia.
  rewrite Qpower_opp, Qpower_2_nonneg by lia. reflexivity.
Qed.

Lemma inject_Z_pow2_nonzero (k : Z) : 0 <= k -> ~ (inject_Z (2 ^ k) == 0)%Q.
Proof.
  intros Hk H.
  pose proof (proj1 (inject_Z_injective (2 ^ k) 0) H) as Hz.
  pose proof (Z.pow_pos_nonneg 2 k eq_refl Hk) as Hpos.
  rewrite Hz in Hpos. discriminate Hpos.
Qed.

Lemma round_half_even_int (q : Q) (n : Z) :
  (q == inject_Z n)%Q -> round_half_even q = n.
Proof.
  intros H. unfold round_half_even.
  rewrite (Qfloor_comp _ _ H), Qfloor_Z.
  assert (E : (q - inject_Z n == 0)%Q) by (rewrite H; ring).
  assert (Hlt : (q - inject_Z n < 1 # 2)%Q) by (rewrite E; reflexivity).
  pose proof (proj1 (Qlt_alt _ _) Hlt) as Hc. now rewrite Hc.
Qed.

Lemma mpf_round_0 (prec : Z) (q : Q) : (q == 0)%Q -> mpf_round prec q = 0%Q.
Proof. intros H. unfold mpf_round. now rewrite (Qeq_eq_bool _ _ H). Qed.

(** Rounding an integer gives an integer. *)
Lemma mpf_round_int (prec z : Z) : Qis_int (mpf_round prec (inject_Z z)).
Proof.
  unfold mpf_round. destruct (Qeq_bool (inject_Z z) 0).
  { exists 0. reflexivity. }
  set (k := ilog2 (Qabs (inject_Z z)) - prec + 1).
  destruct (Z_lt_le_dec k 0) as [Hk|Hk].
  - exists z. rewrite Qred_correct.
    pose proof (inject_Z_pow2_nonzero (- k) ltac:(lia)) as Hnz.
    assert (Hq : (inject_Z z / 2 ^ k == inject_Z (z * 2 ^ (- k)))%Q).
    { rewrite (Qpower_2_neg k Hk), inject_Z_mult. now field. }
    rewrite (round_half_even_int _ _ Hq), (Qpower_2_neg k Hk), inject_Z_mult.
    now field.
  - set (m := round_half_even (inject_Z z / 2 ^ k)). exists (m * 2 ^ k).
    now rewrite Qred_correct, (Qpower_2_nonneg k Hk), <- inject_Z_mult.
Qed.

Lemma expansion_loop_0 (prec : Z) (length : nat) :
  expansion_loop prec length 0 = repeat 0 length.
Proof.
  induction length as [|n IH]; [reflexivity|].
  change (expansion_loop prec (S n) 0) with (0 :: expansion_loop prec n 0).
  now rewrite IH.
Qed.

(** An integer-valued input has the all-zero expansion. *)
Lemma get_binary_expansion_integer (prec z : Z) (length : nat) :
  get_binary_expansion prec (inject_Z z) length = repeat 0 length.
Proof.
  unfold get_binary_expansion.
  destruct (mpf_round_int prec z) as (m & Hm).
  unfold mpf_sub, mpf_floor. rewrite mpf_round_0; [apply expansion_loop_0|].
  rewrite (Qfloor_comp _ _ Hm), Qfloor_Z, Hm. ring.
Qed.

Lemma get_binary_expansion_length (prec : Z) (num : Q) (length : nat) :
  List.length (get_binary_expansion prec num length) = length.
Proof.
  unfold get_binary_expansion. generalize (mpf_sub prec (mpf_round prec num)
                                             (mpf_floor (mpf_round prec num))).
  induction length as [|n IH]; intros f; simpl; auto.
Qed.

(** *** Powers of two *)

Lemma P2_pos (e : Z) : (0 < 2 ^ e)%Q.
Proof. apply Qpower_0_lt. reflexivity. Qed.

Lemma P2_plus (a b : Z) : (2 ^ (a + b) == 2 ^ a * 2 ^ b)%Q.
Proof. apply Qpower_plus. discriminate. Qed.

Lemma P2_le (a b : Z) : a <= b -> (2 ^ a <= 2 ^ b)%Q.
Proof. intros H. apply Qpower_le_compat_l; auto. discriminate. Qed.

Lemma P2_lt_inv (a b : Z) : (2 ^ a < 2 ^ b)%Q -> a < b.
Proof. intros H. apply (Qpower_lt_compat_l_inv 2); auto. reflexivity. Qed.

Lemma P2_diff (a b : Z) :
  0 <= a -> 0 <= b -> (2 ^ (a - b) == inject_Z (2 ^ a) / inject_Z (2 ^ b))%Q.
Proof.
  intros Ha Hb. rewrite Qpower_minus by discriminate.
  now rewrite !Qpower_2_nonneg.
Qed.

Lemma inject_Z_pos (n : Z) : 0 < n -> (0 < inject_Z n)%Q.
Proof. intros H. change 0%Q with (inject_Z 0). now rewrite <- Zlt_Qlt. Qed.

Lemma Qdiv_le_cross (a b c d : Q) :
  (0 < b)%Q -> (0 < d)%Q -> (a * d <= c * b)%Q -> (a / b <= c / d)%Q.
Proof.
  intros Hb Hd H. apply Qle_shift_div_r; auto.
  assert (E : (c / d * b == c * b / d)%Q) by (field; lra).
  rewrite E. now apply Qle_shift_div_l.
Qed.

Lemma Qdiv_lt_cross (a b c d : Q) :
  (0 < b)%Q -> (0 < d)%Q -> (a * d < c * b)%Q -> (a / b < c / d)%Q.
Proof.
  intros Hb Hd H. apply Qlt_shift_div_r; auto.
  assert (E : (c / d * b == c * b / d)%Q) by (field; lra).
  rewrite E. now apply Qlt_shift_div_l.
Qed.

(** *** The leading exponent *)

Lemma ilog2_spec (q : Q) :
  (0 < q)%Q -> (2 ^ ilog2 q <= q < 2 ^ (ilog2 q + 1))%Q.
Proof.
  intros Hq. unfold ilog2.
  destruct q as [n d]. cbn [Qnum Qden].
  assert (Hn : 0 < n) by (unfold Qlt in Hq; simpl in Hq; lia).
  set (a := Z.log2 n). set (b := Z.log2 (Z.pos d)).
  assert (Ha : 0 <= a) by apply Z.log2_nonneg.
  assert (Hb : 0 <= b) by apply Z.log2_nonneg.
  destruct (Z.log2_spec n Hn) as [Ha1 Ha2]. fold a in Ha1, Ha2.
  destruct (Z.log2_spec (Z.pos d) eq_refl) as [Hb1 Hb2]. fold b in Hb1, Hb2.
  assert (Hpa : 0 < 2 ^ a) by (apply Z.pow_pos_nonneg; lia).
  assert (Hpb : 0 < 2 ^ b) by (apply Z.pow_pos_nonneg; lia).
  rewrite Z.pow_succ_r in Ha2, Hb2 by auto.
  assert (Eq : (n # d == inject_Z n / inject_Z (Z.pos d))%Q) by apply Qmake_Qdiv.
  assert (Hd : (0 < inject_Z (Z.pos d))%Q) by reflexivity.
  assert (Hlow : (2 ^ (a - b - 1) <= n # d)%Q).
  { replace (a - b - 1) with (a - (b + 1)) by lia.
    rewrite Eq, P2_diff by lia. apply Qdiv_le_cross; auto.
    - apply inject_Z_pos. apply Z.pow_pos_nonneg; lia.
    - rewrite <- !inject_Z_mult, <- Zle_Qle.
      rewrite Z.pow_add_r, Z.pow_1_r by lia. nia. }
  assert (Hup : (n # d < 2 ^ (a - b + 1))%Q).
  { replace (a - b + 1) with (a + 1 - b) by lia.
    rewrite Eq, P2_diff by lia. apply Qdiv_lt_cross; auto.
    - now apply inject_Z_pos.
    - rewrite <- !inject_Z_mult, <- Zlt_Qlt.
      rewrite Z.pow_add_r, Z.pow_1_r by lia. nia. }
  destruct (Qle_bool (2 ^ (a - b)) (n # d)) eqn:E.
  - apply Qle_bool_iff in E. now split.
  - apply Qle_bool_false in E. split.
    + exact Hlow.
    + now replace (a - b - 1 + 1) with (a - b) by lia.
Qed.

(** *** Rounding to the nearest integer *)

Lemma round_half_even_cases (q : Q) :
  round_half_even q = Qfloor q
  \/ (round_half_even q = Qfloor q + 1
      /\ (1 # 2 <= q - inject_Z (Qfloor q))%Q).
Proof.
  unfold round_half_even.
  destruct (Qcompare (q - inject_Z (Qfloor q)) (1 # 2)) eqn:E.
  - apply Qeq_alt in E. destruct (Z.even (Qfloor q)); [now left | right].
    split; auto. rewrite E. apply Qle_refl.
  - now left.
  - apply Qgt_alt in E. right. split; auto. now apply Qlt_le_weak.
Qed.

Lemma round_half_even_ge (a : Z) (q : Q) :
  (inject_Z a <= q)%Q -> a <= round_half_even q.
Proof.
  intros H. apply Qfloor_resp_le in H. rewrite Qfloor_Z in H.
  destruct (round_half_even_cases q) as [-> | [-> _]]; lia.
Qed.

Lemma round_half_even_le (b : Z) (q : Q) :
  (q <= inject_Z b)%Q -> round_half_even q <= b.
Proof.
  intros H. pose proof (Qfloor_resp_le _ _ H) as Hf. rewrite Qfloor_Z in Hf.
  destruct (round_half_even_cases q) as [-> | [-> Hhalf]]; auto.
  destruct (Z.eq_dec (Qfloor q) b) as [E|]; [|lia].
  rewrite E in Hhalf. lra.
Qed.

(** *** Numbers that fit in [prec] bits *)

Lemma representable_0 (prec : Z) (q : Q) :
  0 < prec -> (q == 0)%Q -> representable prec q.
Proof.
  intros Hp E. exists 0, 0. split.
  - split; [lia|]. apply Z.pow_pos_nonneg; lia.
  - rewrite E. reflexivity.
Qed.

Lemma Qabs_nonneg_eq (q : Q) : (0 <= q)%Q -> Qabs q = q.
Proof.
  destruct q as [n d]. unfold Qle. simpl. intros H.
  unfold Qabs. f_equal. apply Z.abs_eq. lia.
Qed.

Lemma Qeq_bool_pos (q : Q) : (0 < q)%Q -> Qeq_bool q 0 = false.
Proof.
  intros H. destruct (Qeq_bool q 0) eqn:E; auto.
  apply Qeq_bool_eq in E. rewrite E in H. discriminate H.
Qed.

(** The significand chosen for a positive number. *)
Lemma mpf_round_pos (prec : Z) (q : Q) :
  0 < prec -> (0 < q)%Q ->
  exists m k : Z,
    2 ^ (prec - 1) <= m <= 2 ^ prec
    /\ (mpf_round prec q == inject_Z m * 2 ^ k)%Q.
Proof.
  intros Hp Hq. unfold mpf_round.
  rewrite (Qeq_bool_pos q Hq), (Qabs_nonneg_eq q (Qlt_le_weak _ _ Hq)).
  set (k := ilog2 q - prec + 1).
  destruct (ilog2_spec q Hq) as [Hlo Hhi].
  exists (round_half_even (q / 2 ^ k)), k. split; [|apply Qred_correct].
  pose proof (P2_pos k) as Hk. split.
  - apply round_half_even_ge. rewrite <- Qpower_2_nonneg by lia.
    apply Qle_shift_div_l; auto. rewrite <- P2_plus.
    now replace (prec - 1 + k) with (ilog2 q) by (unfold k; lia).
  - apply round_half_even_le. rewrite <- Qpower_2_nonneg by lia.
    apply Qle_shift_div_r; auto. rewrite <- P2_plus.
    replace (prec + k) with (ilog2 q + 1) by (unfold k; lia).
    now apply Qlt_le_weak.
Qed.

Lemma mpf_round_nonneg (prec : Z) (q : Q) :
  0 < prec -> (0 <= q)%Q -> (0 <= mpf_round prec q)%Q.
Proof.
  intros Hp Hq. destruct (Qle_lt_or_eq _ _ Hq) as [Hpos|E].
  - destruct (mpf_round_pos prec q Hp Hpos) as (m & k & [Hm _] & ->).
    apply Qmult_le_0_compat; [|apply Qlt_le_weak, P2_pos].
    change 0%Q with (inject_Z 0). rewrite <- Zle_Qle.
    pose proof (Z.pow_pos_nonneg 2 (prec - 1)). lia.
  - rewrite mpf_round_0; [apply Qle_refl | now symmetry].
Qed.

Lemma mpf_round_representable (prec : Z) (q : Q) :
  0 < prec -> (0 <= q)%Q -> representable prec (mpf_round prec q).
Proof.
  intros Hp Hq. destruct (Qle_lt_or_eq _ _ Hq) as [Hpos|E].
  - destruct (mpf_round_pos prec q Hp Hpos) as (m & k & [Hm1 Hm2] & Em).
    assert (H0 : 0 < 2 ^ (prec - 1)) by (apply Z.pow_pos_nonneg; lia).
    assert (H2 : 2 ^ prec = 2 * 2 ^ (prec - 1)).
    { replace prec with (Z.succ (prec - 1)) at 1 by lia.
      apply Z.pow_succ_r. lia. }
    destruct (Z.eq_dec m (2 ^ prec)) as [E|Hne].
    + exists (2 ^ (prec - 1)), (k + 1). split; [lia|].
      rewrite Em, E, H2, inject_Z_mult, P2_plus. change (2 ^ 1)%Q with 2%Q.
      change (inject_Z 2) with 2%Q. ring.
    + exists m, k. split; [lia | exact Em].
  - apply representable_0; auto. rewrite mpf_round_0; [reflexivity|].
    now symmetry.
Qed.

(** Rounding leaves a number that fits as it is. *)
Lemma mpf_round_exact (prec : Z) (q : Q) :
  0 < prec -> representable prec q -> (mpf_round prec q == q)%Q.
Proof.
  intros Hp (m & e & [Hm0 Hm] & E).
  destruct (Z.eq_dec m 0) as [->|Hne].
  { assert (E0 : (q == 0)%Q) by (rewrite E; ring).
    rewrite (mpf_round_0 prec q E0). now symmetry. }
  assert (Hq : (0 < q)%Q).
  { rewrite E. apply Qmult_lt_0_compat; [|apply P2_pos].
    apply inject_Z_pos. lia. }
  unfold mpf_round.
  rewrite (Qeq_bool_pos q Hq), (Qabs_nonneg_eq q (Qlt_le_weak _ _ Hq)).
  set (k := ilog2 q - prec + 1).
  destruct (ilog2_spec q Hq) as [Hlo _].
  assert (Hk : k <= e).
  { assert (Hlt : (2 ^ ilog2 q < 2 ^ (prec + e))%Q).
    { eapply Qle_lt_trans; [exact Hlo|]. rewrite E, P2_plus.
      apply Qmult_lt_compat_r; [apply P2_pos|].
      rewrite Qpower_2_nonneg by lia. rewrite <- Zlt_Qlt. lia. }
    apply P2_lt_inv in Hlt. unfold k. lia. }
  assert (Hint : (q / 2 ^ k == inject_Z (m * 2 ^ (e - k)))%Q).
  { rewrite E, inject_Z_mult, <- Qpower_2_nonneg by lia.
    replace e with (e - k + k) at 1 by lia. rewrite P2_plus.
    field. pose proof (P2_pos k). lra. }
  rewrite Qred_correct, (round_half_even_int _ _ Hint), E.
  rewrite inject_Z_mult, <- Qpower_2_nonneg by lia.
  replace e with (e - k + k) at 2 by lia. rewrite (P2_plus (e - k) k). ring.
Qed.

(** *** Closure under the steps of the loop *)

Lemma representable_double (prec : Z) (q : Q) :
  representable prec q -> representable prec (q * 2).
Proof.
  intros (m & e & Hm & E). exists m, (e + 1). split; auto.
  rewrite E, P2_plus. change (2 ^ 1)%Q with 2%Q. ring.
Qed.

Lemma representable_eq (prec : Z) (p q : Q) :
  (p == q)%Q -> representable prec p -> representable prec q.
Proof. intros E (m & e & Hm & Ep). exists m, e. split; auto. now rewrite <- E. Qed.

(** A number of [1, 2) that fits has a non-positive exponent. *)
Lemma representable_minus_1 (prec : Z) (q : Q) :
  representable prec q -> (1 <= q < 2)%Q -> representable prec (q - 1).
Proof.
  intros (m & e & [Hm0 Hm] & E) [H1 H2].
  destruct (Z_lt_le_dec 0 e) as [He|He].
  - (* a positive exponent gives 0 or at least 2 *)
    exfalso. rewrite E in H1, H2.
    rewrite Qpower_2_nonneg, <- inject_Z_mult in H1, H2 by lia.
    change 1%Q with (inject_Z 1) in H1. change 2%Q with (inject_Z 2) in H2.
    rewrite <- Zle_Qle in H1. rewrite <- Zlt_Qlt in H2.
    assert (Hp2 : 2 <= 2 ^ e).
    { change 2 with (2 ^ 1) at 1. apply Z.pow_le_mono_r; lia. }
    clear E Hm. set (p := 2 ^ e) in *. clearbody p.
    destruct (Z.eq_dec m 0) as [->|Hne]; nia.
  - set (j := - e).
    assert (Hj : (2 ^ e == / inject_Z (2 ^ j))%Q).
    { destruct (Z.eq_dec e 0) as [->|Hne]; [reflexivity|].
      apply Qpower_2_neg. lia. }
    assert (Hpj : 0 < 2 ^ j) by (apply Z.pow_pos_nonneg; unfold j; lia).
    assert (Hge : 2 ^ j <= m).
    { rewrite E, Hj in H1.
      assert (H : (inject_Z (2 ^ j) <= inject_Z m)%Q).
      { apply (Qmult_le_r _ _ (/ inject_Z (2 ^ j))).
        - apply Qinv_lt_0_compat. now apply inject_Z_pos.
        - rewrite Qmult_inv_r; auto. apply inject_Z_pow2_nonzero.
          unfold j. lia. }
      now rewrite <- Zle_Qle in H. }
    exists (m - 2 ^ j), e. split; [lia|].
    rewrite E, Hj. unfold Zminus. rewrite inject_Z_plus, inject_Z_opp.
    field. apply inject_Z_pow2_nonzero. unfold j. lia.
Qed.

(** The fractional part of a number that fits, fits. *)
Lemma representable_frac (prec : Z) (q : Q) :
  0 < prec -> representable prec q ->
  representable prec (q - inject_Z (Qfloor q)).
Proof.
  intros Hp (m & e & [Hm0 Hm] & E).
  destruct (Z_lt_le_dec e 0) as [He|He].
  - set (j := - e).
    assert (Hj : (2 ^ e == / inject_Z (2 ^ j))%Q) by (apply Qpower_2_neg; lia).
    assert (Hpj : 0 < 2 ^ j) by (apply Z.pow_pos_nonneg; unfold j; lia).
    assert (Hnz : ~ (inject_Z (2 ^ j) == 0)%Q)
      by (apply inject_Z_pow2_nonzero; unfold j; lia).
    assert (Eq : (q == inject_Z m / inject_Z (2 ^ j))%Q)
      by (rewrite E, Hj; reflexivity).
    assert (Hfl : Qfloor q = m / 2 ^ j)
      by (rewrite (Qfloor_comp _ _ Eq); symmetry; apply Zdiv_Qdiv).
    exists (m mod 2 ^ j), e. split.
    + pose proof (Z.mod_pos_bound m (2 ^ j) Hpj).
      pose proof (Z.mod_le m (2 ^ j) Hm0 Hpj). lia.
    + rewrite Hfl, Hj, Eq.
      rewrite (Z.div_mod m (2 ^ j)) at 1 by lia.
      rewrite inject_Z_plus, inject_Z_mult. now field.
  - apply representable_0; auto.
    assert (Eq : (q == inject_Z (m * 2 ^ e))%Q)
      by (rewrite E, inject_Z_mult, Qpower_2_nonneg by lia; reflexivity).
    rewrite (Qfloor_comp _ _ Eq), Qfloor_Z, Eq. ring.
Qed.

(** *** The loop keeps a fitting fraction below 1 *)

Lemma expansion_step_ok (prec : Z) (f : Q) :
  0 < prec -> fraction_ok prec f ->
  fst (expansion_step prec f) = Qfloor (f * 2)
  /\ (snd (expansion_step prec f)
      == f * 2 - inject_Z (fst (expansion_step prec f)))%Q
  /\ is_bit (fst (expansion_step prec f))
  /\ fraction_ok prec (snd (expansion_step prec f)).
Proof.
  intros Hp [Hrep [H0 H1]]. unfold expansion_step, mpf_mul, mpf_sub.
  cbn [fst snd].
  pose proof (mpf_round_exact prec (f * 2) Hp (representable_double _ _ Hrep))
    as E2.
  set (f2 := mpf_round prec (f * 2)) in *.
  assert (Hf2 : (0 <= f2 < 2)%Q) by (rewrite E2; lra).
  assert (Hrep2 : representable prec f2).
  { apply (representable_eq _ (f * 2)); [now symmetry|].
    now apply representable_double. }
  pose proof (Qfloor_le f2) as Hfl1. pose proof (Qlt_floor f2) as Hfl2.
  assert (Hbit : Qfloor f2 = 0 \/ Qfloor f2 = 1).
  { assert (0 <= Qfloor f2).
    { change 0 with (Qfloor (inject_Z 0)). apply Qfloor_resp_le. apply Hf2. }
    assert (Qfloor f2 < 2).
    { rewrite Zlt_Qlt. eapply Qle_lt_trans; [exact Hfl1 | apply Hf2]. }
    lia. }
  set (bit := Qfloor f2) in *.
  assert (Hfr : (0 <= f2 - inject_Z bit < 1)%Q).
  { rewrite inject_Z_plus in Hfl2. change (inject_Z 1) with 1%Q in Hfl2. lra. }
  assert (Hrep3 : representable prec (f2 - inject_Z bit)).
  { destruct Hbit as [-> | ->].
    - apply (representable_eq _ f2); auto. change (inject_Z 0) with 0%Q. ring.
    - change (inject_Z 1) with 1%Q in *.
      apply representable_minus_1; auto; lra. }
  pose proof (mpf_round_exact prec _ Hp Hrep3) as E3.
  split; [apply (Qfloor_comp _ _ E2)|]. split; [now rewrite E3, E2|].
  split; [exact Hbit|]. split.
  - apply (representable_eq _ (f2 - inject_Z bit)); [now symmetry | exact Hrep3].
  - rewrite E3. exact Hfr.
Qed.

Lemma exact_expansion_comp (length : nat) (f g : Q) :
  (f == g)%Q -> exact_expansion length f = exact_expansion length g.
Proof.
  revert f g. induction length as [|n IH]; intros f g E; [reflexivity|].
  cbn [exact_expansion]. cbv zeta.
  assert (E2 : (f * 2 == g * 2)%Q) by now rewrite E.
  rewrite (Qfloor_comp _ _ E2). f_equal. apply IH. now rewrite E2.
Qed.

(** On a fitting fraction the loop computes what exact arithmetic does. *)
Lemma expansion_loop_exact (prec : Z) (length : nat) (f : Q) :
  0 < prec -> fraction_ok prec f ->
  expansion_loop prec length f = exact_expansion length f.
Proof.
  intros Hp. revert f. induction length as [|n IH]; intros f Hf; [reflexivity|].
  cbn [expansion_loop exact_expansion]. cbv zeta.
  destruct (expansion_step_ok prec f Hp Hf) as (Hbit & Hnext & _ & Hok).
  destruct (expansion_step prec f) as [bit f']. cbn [fst snd] in *.
  subst bit. f_equal. rewrite (IH f' Hok). now apply exact_expansion_comp.
Qed.

Lemma expansion_loop_binary (prec : Z) (length : nat) (f : Q) :
  0 < prec -> fraction_ok prec f -> Forall is_bit (expansion_loop prec length f).
Proof.
  intros Hp. revert f. induction length as [|n IH]; intros f Hf.
  - constructor.
  - cbn [expansion_loop].
    destruct (expansion_step_ok prec f Hp Hf) as (_ & _ & Hbit & Hnext).
    destruct (expansion_step prec f) as [bit f']. cbn [fst snd] in *.
    constructor; auto.
Qed.

Lemma initial_fraction_fits (prec : Z) (num : Q) :
  0 < prec ->
  representable prec (initial_fraction prec num)
  /\ (0 <= initial_fraction prec num)%Q.
Proof.
  intros Hp. unfold initial_fraction, mpf_sub, mpf_floor.
  set (x := mpf_round prec num).
  pose proof (Qfloor_le x) as H1.
  assert (Hx : (0 <= x - inject_Z (Qfloor x))%Q) by lra.
  split; [now apply mpf_round_representable | now apply mpf_round_nonneg].
Qed.

(** The bits are binary as long as the starting fraction is below 1. *)
Theorem get_binary_expansion_binary (prec : Z) (num : Q) (length : nat) :
  0 < prec -> (initial_fraction prec num < 1)%Q ->
  Forall is_bit (get_binary_expansion prec num length).
Proof.
  intros Hp Hlt. destruct (initial_fraction_fits prec num Hp) as [Hrep H0].
  apply expansion_loop_binary; auto. now split.
Qed.

(** That is the case of every non-negative input. *)
Theorem get_binary_expansion_nonneg (prec : Z) (num : Q) (length : nat) :
  0 < prec -> (0 <= num)%Q ->
  Forall is_bit (get_binary_expansion prec num length).
Proof.
  intros Hp Hnum. apply get_binary_expansion_binary; auto.
  unfold initial_fraction, mpf_sub, mpf_floor.
  set (x := mpf_round prec num).
  assert (Hrep : representable prec (x - inject_Z (Qfloor x))).
  { apply representable_frac; auto. now apply mpf_round_representable. }
  rewrite (mpf_round_exact prec _ Hp Hrep).
  pose proof (Qlt_floor x) as H2.
  rewrite inject_Z_plus in H2. change (inject_Z 1) with 1%Q in H2. lra.
Qed.

(** For an input that fits in [prec] bits the result is the exact expansion
    of its fractional part. *)
Theorem get_binary_expansion_exact (prec : Z) (num : Q) (length : nat) :
  0 < prec -> representable prec num ->
  get_binary_expansion prec num length
  = exact_expansion length (num - inject_Z (Qfloor num)).
Proof.
  intros Hp Hnum. unfold get_binary_expansion.
  fold (initial_fraction prec num).
  destruct (initial_fraction_fits prec num Hp) as [Hrep H0].
  pose proof (mpf_round_exact prec num Hp Hnum) as Ex.
  assert (Ef : (initial_fraction prec num == num - inject_Z (Qfloor num))%Q).
  { unfold initial_fraction, mpf_sub, mpf_floor.
    set (x := mpf_round prec num) in *.
    assert (Hx : representable prec (x - inject_Z (Qfloor x))).
    { apply representable_frac; auto.
      apply (representable_eq _ num); [now symmetry | exact Hnum]. }
    rewrite (mpf_round_exact prec _ Hp Hx), (Qfloor_comp _ _ Ex), Ex.
    reflexivity. }
  rewrite expansion_loop_exact; auto.
  - now apply exact_expansion_comp.
  - split; auto. split; auto. rewrite Ef.
    pose proof (Qlt_floor num) as H2.
    rewrite inject_Z_plus in H2. change (inject_Z 1) with 1%Q in H2. lra.
Qed.

Lemma representable_half (prec : Z) : 0 < prec -> representable prec (1 # 2).
Proof.
  intros Hp. exists 1, (-1). split; [|reflexivity].
  split; [lia|]. change 1 with (2 ^ 0) at 1. apply Z.pow_lt_mono_r; lia.
Qed.

(** With a starting fraction of exactly 1 the first element is 2. *)
Lemma get_binary_expansion_first_2 (prec : Z) (num : Q) (length : nat) :
  0 < prec -> (initial_fraction prec num == 1)%Q ->
  hd_error (get_binary_expansion prec num (S length)) = Some 2.
Proof.
  intros Hp E. unfold get_binary_expansion. fold (initial_fraction prec num).
  set (f := initial_fraction prec num) in *. cbn [expansion_loop].
  unfold expansion_step, mpf_mul.
  assert (Hrep : representable prec (f * 2)).
  { exists 1, 1. split.
    - split; [lia|]. change 1 with (2 ^ 0) at 1. apply Z.pow_lt_mono_r; lia.
    - rewrite E. reflexivity. }
  pose proof (mpf_round_exact prec _ Hp Hrep) as E2.
  assert (E3 : (mpf_round prec (f * 2) == inject_Z 2)%Q)
    by (rewrite E2, E; reflexivity).
  cbn [hd_error]. now rewrite (Qfloor_comp _ _ E3), Qfloor_Z.
Qed.

(** ** Binary64 arithmetic *)

Lemma round_half_even_mono (a b : Q) :
  (a <= b)%Q -> round_half_even a <= round_half_even b.
Proof.
  intros Hab. pose proof (Qfloor_resp_le _ _ Hab) as Hf.
  destruct (Z.eq_dec (Qfloor a) (Qfloor b)) as [E|Hne].
  - unfold round_half_even. rewrite <- E.
    set (f := Qfloor a) in *.
    destruct (Qcompare_spec (a - inject_Z f) (1 # 2)) as [Ca|Ca|Ca];
      destruct (Qcompare_spec (b - inject_Z f) (1 # 2)) as [Cb|Cb|Cb];
      try (destruct (Z.even f); lia); try lia; exfalso; lra.
  - assert (Qfloor a + 1 <= Qfloor b) by lia.
    destruct (round_half_even_cases a) as [-> | [-> _]];
      destruct (round_half_even_cases b) as [-> | [-> _]]; lia.
Qed.

Lemma ilog2_unique (q : Q) (e : Z) :
  (0 < q)%Q -> (2 ^ e <= q < 2 ^ (e + 1))%Q -> ilog2 q = e.
Proof.
  intros Hq [Hlo Hhi]. destruct (ilog2_spec q Hq) as [Hlo' Hhi'].
  assert (ilog2 q < e + 1)
    by (apply P2_lt_inv; eapply Qle_lt_trans; eauto).
  assert (e < ilog2 q + 1)
    by (apply P2_lt_inv; eapply Qle_lt_trans; eauto).
  lia.
Qed.

Lemma ilog2_comp (p q : Q) : (0 < p)%Q -> (p == q)%Q -> ilog2 p = ilog2 q.
Proof.
  intros Hp E. apply ilog2_unique; auto.
  rewrite E. apply ilog2_spec. now rewrite <- E.
Qed.

Lemma ilog2_mono (p q : Q) : (0 < p)%Q -> (p <= q)%Q -> ilog2 p <= ilog2 q.
Proof.
  intros Hp Hpq.
  assert (Hq : (0 < q)%Q) by (eapply Qlt_le_trans; eauto).
  destruct (ilog2_spec p Hp) as [Hlo _]. destruct (ilog2_spec q Hq) as [_ Hhi].
  assert (ilog2 p < ilog2 q + 1); [|lia].
  apply P2_lt_inv. eapply Qle_lt_trans; [exact Hlo|].
  eapply Qle_lt_trans; eauto.
Qed.

Lemma b64_nearest_0 (q : Q) : (q == 0)%Q -> b64_nearest q = 0%Q.
Proof. intros H. unfold b64_nearest. now rewrite (Qeq_eq_bool _ _ H). Qed.

Lemma b64_nearest_pos (q : Q) :
  (0 < q)%Q ->
  (b64_nearest q
   == inject_Z (round_half_even (q / 2 ^ b64_quantum q)) * 2 ^ b64_quantum q)%Q.
Proof.
  intros Hq. unfold b64_nearest. rewrite (Qeq_bool_pos q Hq).
  cbv zeta. apply Qred_correct.
Qed.

Lemma b64_quantum_pos (q : Q) :
  (0 < q)%Q ->
  -1074 <= b64_quantum q /\ ilog2 q - 52 <= b64_quantum q
  /\ (q < 2 ^ (b64_quantum q + 53))%Q.
Proof.
  intros Hq. unfold b64_quantum.
  rewrite (Qabs_nonneg_eq q (Qlt_le_weak _ _ Hq)).
  split; [lia|]. split; [lia|].
  destruct (ilog2_spec q Hq) as [_ Hhi].
  eapply Qlt_le_trans; [exact Hhi|]. apply P2_le. lia.
Qed.

Lemma b64_quantum_comp (p q : Q) :
  (0 < p)%Q -> (p == q)%Q -> b64_quantum p = b64_quantum q.
Proof.
  intros Hp E. unfold b64_quantum.
  assert (Hq : (0 < q)%Q) by now rewrite <- E.
  rewrite (Qabs_nonneg_eq p (Qlt_le_weak _ _ Hp)).
  rewrite (Qabs_nonneg_eq q (Qlt_le_weak _ _ Hq)).
  now rewrite (ilog2_comp p q Hp E).
Qed.

Lemma b64_quantum_mono (p q : Q) :
  (0 < p)%Q -> (p <= q)%Q -> b64_quantum p <= b64_quantum q.
Proof.
  intros Hp Hpq. unfold b64_quantum.
  assert (Hq : (0 < q)%Q) by (eapply Qlt_le_trans; eauto).
  rewrite (Qabs_nonneg_eq p (Qlt_le_weak _ _ Hp)).
  rewrite (Qabs_nonneg_eq q (Qlt_le_weak _ _ Hq)).
  pose proof (ilog2_mono p q Hp Hpq). lia.
Qed.

Lemma round_half_even_comp (p q : Q) :
  (p == q)%Q -> round_half_even p = round_half_even q.
Proof.
  intros E. apply Z.le_antisymm; apply round_half_even_mono; rewrite E;
    apply Qle_refl.
Qed.

Lemma b64_nearest_comp (p q : Q) :
  (p == q)%Q -> (b64_nearest p == b64_nearest q)%Q.
Proof.
  intros E. destruct (Qlt_le_dec 0 p) as [Hp|Hp].
  - assert (Hq : (0 < q)%Q) by now rewrite <- E.
    rewrite (b64_nearest_pos p Hp), (b64_nearest_pos q Hq).
    rewrite (b64_quantum_comp p q Hp E).
    rewrite (round_half_even_comp (p / 2 ^ b64_quantum q)
                                  (q / 2 ^ b64_quantum q)); [reflexivity|].
    now rewrite E.
  - unfold b64_nearest.
    destruct (Qeq_bool p 0) eqn:E0.
    + apply Qeq_bool_eq in E0.
      assert (E1 : (q == 0)%Q) by now rewrite <- E.
      now rewrite (Qeq_eq_bool _ _ E1).
    + assert (E1 : Qeq_bool q 0 = false).
      { destruct (Qeq_bool q 0) eqn:E1; auto. apply Qeq_bool_eq in E1.
        rewrite <- E in E1. apply Qeq_eq_bool in E1. congruence. }
      rewrite E1. cbv zeta. rewrite !Qred_correct.
      assert (Eq : b64_quantum p = b64_quantum q).
      { unfold b64_quantum. f_equal. f_equal. apply ilog2_comp.
        - apply Qeq_bool_neq in E0.
          destruct (Qle_lt_or_eq _ _ Hp) as [Hlt|X]; [|contradiction].
          apply Qabs_case; intros; lra.
        - now rewrite E. }
      rewrite Eq.
      rewrite (round_half_even_comp (p / 2 ^ b64_quantum q)
                                    (q / 2 ^ b64_quantum q)); [reflexivity|].
      now rewrite E.
Qed.

Lemma b64_nearest_nonneg (q : Q) : (0 <= q)%Q -> (0 <= b64_nearest q)%Q.
Proof.
  intros H. destruct (Qle_lt_or_eq _ _ H) as [Hq|E].
  - rewrite (b64_nearest_pos q Hq).
    apply Qmult_le_0_compat; [|apply Qlt_le_weak, P2_pos].
    change 0%Q with (inject_Z 0). rewrite <- Zle_Qle.
    apply round_half_even_ge. change (inject_Z 0) with 0%Q.
    apply Qle_shift_div_l; [apply P2_pos|]. lra.
  - rewrite b64_nearest_0 by now symmetry. apply Qle_refl.
Qed.

(** The rounded value stays within the binade of [q]. *)
Lemma b64_nearest_le_binade (q : Q) :
  (0 < q)%Q -> (b64_nearest q <= 2 ^ (b64_quantum q + 53))%Q.
Proof.
  intros Hq. destruct (b64_quantum_pos q Hq) as (_ & _ & Hlt).
  rewrite (b64_nearest_pos q Hq). set (k := b64_quantum q) in *.
  assert (Hr : round_half_even (q / 2 ^ k) <= 2 ^ 53).
  { apply round_half_even_le. rewrite <- Qpower_2_nonneg by lia.
    apply Qle_shift_div_r; [apply P2_pos|]. rewrite <- P2_plus.
    replace (53 + k) with (k + 53) by lia. now apply Qlt_le_weak. }
  apply (Qle_trans _ (inject_Z (2 ^ 53) * 2 ^ k)).
  - apply Qmult_le_compat_r; [|apply Qlt_le_weak, P2_pos].
    now rewrite <- Zle_Qle.
  - rewrite <- Qpower_2_nonneg, <- P2_plus by lia. apply P2_le. lia.
Qed.

Lemma b64_nearest_ge_binade (q : Q) :
  (0 < q)%Q -> b64_quantum q = ilog2 q - 52 ->
  (2 ^ ilog2 q <= b64_nearest q)%Q.
Proof.
  intros Hq Eq. destruct (ilog2_spec q Hq) as [Hlo _].
  rewrite (b64_nearest_pos q Hq). set (k := b64_quantum q) in *.
  assert (Hr : 2 ^ 52 <= round_half_even (q / 2 ^ k)).
  { apply round_half_even_ge. rewrite <- Qpower_2_nonneg by lia.
    apply Qle_shift_div_l; [apply P2_pos|]. rewrite <- P2_plus.
    replace (52 + k) with (ilog2 q) by lia. exact Hlo. }
  apply (Qle_trans _ (inject_Z (2 ^ 52) * 2 ^ k)).
  - rewrite <- Qpower_2_nonneg, <- P2_plus by lia. apply P2_le. lia.
  - apply Qmult_le_compat_r; [|apply Qlt_le_weak, P2_pos].
    now rewrite <- Zle_Qle.
Qed.

(** Rounding to nearest is monotone. *)
Lemma b64_nearest_mono (p q : Q) :
  (0 <= p)%Q -> (p <= q)%Q -> (b64_nearest p <= b64_nearest q)%Q.
Proof.
  intros H0 Hpq. destruct (Qle_lt_or_eq _ _ H0) as [Hp|E].
  2:{ rewrite (b64_nearest_0 p) by now symmetry.
      apply b64_nearest_nonneg. lra. }
  assert (Hq : (0 < q)%Q) by (eapply Qlt_le_trans; eauto).
  pose proof (b64_quantum_mono p q Hp Hpq) as Hm.
  destruct (Z.eq_dec (b64_quantum p) (b64_quantum q)) as [Eq|Hne].
  - rewrite (b64_nearest_pos p Hp), (b64_nearest_pos q Hq), Eq.
    apply Qmult_le_r; [apply P2_pos|]. rewrite <- Zle_Qle.
    apply round_half_even_mono.
    apply Qmult_le_r; [apply Qinv_lt_0_compat, P2_pos | exact Hpq].
  - eapply Qle_trans; [apply (b64_nearest_le_binade p Hp)|].
    assert (Eq : b64_quantum q = ilog2 q - 52).
    { destruct (b64_quantum_pos p Hp) as (Hp1 & _).
      unfold b64_quantum in *.
      rewrite (Qabs_nonneg_eq q (Qlt_le_weak _ _ Hq)) in *. lia. }
    eapply Qle_trans; [|apply (b64_nearest_ge_binade q Hq Eq)].
    apply P2_le. lia.
Qed.

(** A binary64 value is its own rounding. *)
Lemma b64_nearest_grid (q : Q) : b64_grid q -> (b64_nearest q == q)%Q.
Proof.
  intros (m & e & [Hm0 Hm] & He & E).
  destruct (Z.eq_dec m 0) as [->|Hne].
  { assert (E0 : (q == 0)%Q) by (rewrite E; ring).
    rewrite (b64_nearest_0 q E0). now symmetry. }
  assert (Hmpos : (0 < inject_Z m)%Q) by (apply inject_Z_pos; lia).
  assert (Hq : (0 < q)%Q)
    by (rewrite E; apply Qmult_lt_0_compat; [exact Hmpos | apply P2_pos]).
  (* the case m = 2^53 is 2^52 at the next exponent *)
  assert (Hgrid : exists m' e', 0 < m' < 2 ^ 53 /\ -1074 <= e'
                                /\ (q == inject_Z m' * 2 ^ e')%Q).
  { destruct (Z.eq_dec m (2 ^ 53)) as [->|Hlt].
    - exists (2 ^ 52), (e + 1). split; [lia|]. split; [lia|].
      rewrite E, P2_plus. change (2 ^ 1)%Q with 2%Q.
      change (inject_Z (2 ^ 53)) with (inject_Z (2 ^ 52) * 2)%Q. ring.
    - exists m, e. split; [lia|]. split; auto. }
  clear m e Hm0 Hm He E Hne Hmpos.
  destruct Hgrid as (m & e & [Hm0 Hm] & He & E).
  assert (Hmpos : (0 < inject_Z m)%Q) by (apply inject_Z_pos; lia).
  (* the leading bit of q *)
  assert (Hlog : ilog2 q = Z.log2 m + e).
  { apply ilog2_unique; auto. rewrite E.
    destruct (Z.log2_spec m Hm0) as [Hlo Hhi].
    pose proof (Z.log2_nonneg m) as Hnn.
    split.
    - rewrite P2_plus. apply Qmult_le_r; [apply P2_pos|].
      rewrite Qpower_2_nonneg by lia. now rewrite <- Zle_Qle.
    - replace (Z.log2 m + e + 1) with (Z.succ (Z.log2 m) + e) by lia.
      rewrite P2_plus. apply Qmult_lt_r; [apply P2_pos|].
      rewrite Qpower_2_nonneg by lia. now rewrite <- Zlt_Qlt. }
  assert (Hl53 : Z.log2 m < 53) by (apply Z.log2_lt_pow2; lia).
  assert (Hk : b64_quantum q <= e).
  { unfold b64_quantum. rewrite (Qabs_nonneg_eq q (Qlt_le_weak _ _ Hq)). lia. }
  rewrite (b64_nearest_pos q Hq).
  set (k := b64_quantum q) in *.
  assert (Hint : (q / 2 ^ k == inject_Z (m * 2 ^ (e - k)))%Q).
  { rewrite E, inject_Z_mult, <- Qpower_2_nonneg by lia.
    unfold Zminus. rewrite P2_plus, Qpower_opp. field.
    pose proof (P2_pos k). lra. }
  rewrite (round_half_even_int _ _ Hint), E.
  rewrite inject_Z_mult, <- Qpower_2_nonneg by lia.
  unfold Zminus. rewrite P2_plus, Qpower_opp. field.
  pose proof (P2_pos k). lra.
Qed.

(** What rounding returns is a binary64 value. *)
Lemma b64_nearest_is_grid (q : Q) : (0 <= q)%Q -> b64_grid (b64_nearest q).
Proof.
  intros H. destruct (Qle_lt_or_eq _ _ H) as [Hq|E].
  2:{ exists 0, 0. split; [lia|]. split; [lia|].
      rewrite b64_nearest_0 by now symmetry. reflexivity. }
  destruct (b64_quantum_pos q Hq) as (Hk & _ & Hlt).
  exists (round_half_even (q / 2 ^ b64_quantum q)), (b64_quantum q).
  split; [|split; [exact Hk | apply (b64_nearest_pos q Hq)]].
  split.
  - apply round_half_even_ge. change (inject_Z 0) with 0%Q.
    apply Qle_shift_div_l; [apply P2_pos|]. lra.
  - apply round_half_even_le. rewrite <- Qpower_2_nonneg by lia.
    apply Qle_shift_div_r; [apply P2_pos|].
    rewrite Qmult_comm, <- P2_plus. now apply Qlt_le_weak.
Qed.

Lemma b64_nearest_ge (y q : Q) :
  b64_grid y -> (y <= q)%Q -> (y <= b64_nearest q)%Q.
Proof.
  intros Hy Hle. rewrite <- (b64_nearest_grid y Hy).
  apply b64_nearest_mono; auto.
  destruct Hy as (m & e & [Hm _] & _ & ->).
  apply Qmult_le_0_compat; [|apply Qlt_le_weak, P2_pos].
  change 0%Q with (inject_Z 0). now rewrite <- Zle_Qle.
Qed.

Lemma b64_nearest_le (y q : Q) :
  b64_grid y -> (0 <= q)%Q -> (q <= y)%Q -> (b64_nearest q <= y)%Q.
Proof.
  intros Hy H0 Hle. rewrite <- (b64_nearest_grid y Hy).
  now apply b64_nearest_mono.
Qed.

Lemma b64_grid_pow2 (k : Z) : -1074 <= k -> b64_grid (2 ^ k).
Proof.
  intros Hk. exists 1, k. split; [lia|]. split; auto. ring.
Qed.

Lemma b64_grid_nat (n : Z) : 0 <= n <= 2 ^ 53 -> b64_grid (inject_Z n).
Proof.
  intros Hn. exists n, 0. split; auto. split; [lia|].
  change (2 ^ 0)%Q with 1%Q. ring.
Qed.

(** ** Binary64 results *)

Lemma b64_nearest_red (q : Q) : Qred (b64_nearest q) = b64_nearest q.
Proof.
  unfold b64_nearest. destruct (Qeq_bool q 0); [reflexivity|].
  cbv zeta. apply Qred_complete, Qred_correct.
Qed.

Lemma b64_nearest_ext (p q : Q) :
  (p == q)%Q -> b64_nearest p = b64_nearest q.
Proof.
  intros E. rewrite <- (b64_nearest_red p), <- (b64_nearest_red q).
  apply Qred_complete. now apply b64_nearest_comp.
Qed.

Lemma b64_nonneg_ext (p q : Q) : (p == q)%Q -> b64_nonneg p = b64_nonneg q.
Proof. intros E. unfold b64_nonneg. now rewrite (b64_nearest_ext p q E). Qed.

Lemma b64_ext (p q : Q) : (p == q)%Q -> b64 p = b64 q.
Proof. intros E. unfold b64. now rewrite (b64_nearest_ext p q E). Qed.

Lemma P2_lt (a b : Z) : a < b -> (2 ^ a < 2 ^ b)%Q.
Proof.
  intros H. replace b with (a + (b - a)) by lia. rewrite P2_plus.
  rewrite <- (Qmult_1_r (2 ^ a)) at 1.
  apply Qmult_lt_l; [apply P2_pos|].
  rewrite Qpower_2_nonneg by lia. change 1%Q with (inject_Z 1).
  rewrite <- Zlt_Qlt. apply Z.pow_gt_1; lia.
Qed.

Lemma b64_nonneg_cases (q : Q) :
  b64_nonneg q = PInf \/ b64_nonneg q = Fin (b64_nearest q).
Proof.
  unfold b64_nonneg. destruct (Qle_bool (2 ^ 1024) (b64_nearest q)); auto.
Qed.

(** A result below [2^1024] is finite. *)
Lemma b64_nonneg_finite (q : Q) (k : Z) :
  (0 <= q)%Q -> -1074 <= k < 1024 -> (q <= 2 ^ k)%Q ->
  b64_nonneg q = Fin (b64_nearest q) /\ (b64_nearest q <= 2 ^ k)%Q.
Proof.
  intros H0 Hk Hle.
  assert (Hr : (b64_nearest q <= 2 ^ k)%Q)
    by (apply b64_nearest_le; auto; apply b64_grid_pow2; lia).
  split; [|exact Hr]. unfold b64_nonneg.
  replace (Qle_bool (2 ^ 1024) (b64_nearest q)) with false; [reflexivity|].
  symmetry. apply Qle_bool_false.
  eapply Qle_lt_trans; [exact Hr|]. apply P2_lt. lia.
Qed.

Lemma b64_nonneg_nonneg (q : Q) :
  (0 <= q)%Q -> xleb (Fin 0) (b64_nonneg q) = true.
Proof.
  intros H. unfold b64_nonneg.
  destruct (Qle_bool (2 ^ 1024) (b64_nearest q)); [reflexivity|].
  cbn [xleb]. apply Qle_bool_iff. now apply b64_nearest_nonneg.
Qed.

(** The float of a non-negative exact value: an infinity, or the nearest
    binary64 value. *)
Lemma b64_of_nonneg (q : Q) :
  (0 <= q)%Q -> b64 q = Real (b64_nonneg q).
Proof.
  intros H. unfold b64, b64_nonneg.
  destruct (Qle_bool (2 ^ 1024) (b64_nearest q)); [reflexivity|].
  replace (Qle_bool (b64_nearest q) (- 2 ^ 1024)) with false; [reflexivity|].
  symmetry. apply Qle_bool_false.
  apply (Qlt_le_trans _ 0); [|now apply b64_nearest_nonneg].
  pose proof (P2_pos 1024). lra.
Qed.

Lemma float_of_nat_exact (n : nat) :
  Z.of_nat n <= 2 ^ 53 -> (float_of_nat n == inject_Z (Z.of_nat n))%Q.
Proof.
  intros H. apply b64_nearest_grid, b64_grid_nat. lia.
Qed.

Lemma float_of_nat_nonneg (n : nat) : (0 <= float_of_nat n)%Q.
Proof.
  apply b64_nearest_nonneg. change 0%Q with (inject_Z 0).
  rewrite <- Zle_Qle. lia.
Qed.


(** ** Bound analysis *)

Section BoundFacts.
Variable log2 : Z -> Q.
Variable factor : Q.

(** A ratio is never negative. *)
Lemma run_ratio_nonneg (position run_length : nat) :
  xleb (Fin 0) (run_ratio log2 factor position run_length) = true.
Proof.
  unfold run_ratio.
  destruct (run_bound log2 factor position) as [[b|]| |]; try reflexivity.
  destruct (Qltb 0 b) eqn:Hb; [|reflexivity].
  apply Qltb_lt in Hb. apply b64_nonneg_nonneg.
  apply Qle_shift_div_l; auto. rewrite Qmult_0_l.
  apply float_of_nat_nonneg.
Qed.


Hypothesis log2_ok : log2_sound log2.

Lemma log2_position (position : nat) :
  (1 <= position)%nat -> (1 <= log2 (Z.of_nat position + 1)%Z)%Q.
Proof. intros Hp. apply log2_sound_ge_1; auto. lia. Qed.

(** For a factor of at least [2^k] the computed bound is at least [2^k]. *)
Lemma run_bound_ge (k : Z) (position : nat) :
  -1074 <= k -> (2 ^ k <= factor)%Q -> (1 <= position)%nat ->
  run_bound log2 factor position = Real PInf
  \/ exists b, run_bound log2 factor position = Real (Fin b)
               /\ (2 ^ k <= b)%Q.
Proof.
  intros Hk Hf Hp. unfold run_bound.
  pose proof (log2_position position Hp) as HL.
  set (L := log2 (Z.of_nat position + 1)%Z) in *.
  pose proof (P2_pos k) as Hpos.
  assert (Hx : (2 ^ k <= factor * L)%Q) by nra.
  rewrite b64_of_nonneg by lra.
  destruct (b64_nonneg_cases (factor * L)) as [-> | ->];
    [now left | right].
  eexists. split; [reflexivity|].
  apply b64_nearest_ge; auto. now apply b64_grid_pow2.
Qed.

(** With a positive bound the ratio is the float quotient. *)
Lemma run_ratio_quotient (position run_length : nat) :
  (2 ^ (-1074) <= factor)%Q -> (1 <= position)%nat ->
  run_ratio log2 factor position run_length
  = match run_bound log2 factor position with
    | Real (Fin bound) => b64_nonneg (float_of_nat run_length / bound)
    | _ => Fin 0
    end.
Proof.
  intros Hf Hp. unfold run_ratio.
  destruct (run_bound_ge (-1074) position ltac:(lia) Hf Hp)
    as [-> | (b & -> & Hb)]; [reflexivity|].
  pose proof (P2_pos (-1074)) as Hpos.
  now rewrite (proj2 (Qltb_lt 0 b)) by lra.
Qed.

(** The quotient does not overflow unless the factor is tiny. *)
Lemma run_ratio_finite (position run_length : nat) :
  (2 ^ (-969) <= factor)%Q -> (1 <= position)%nat ->
  Z.of_nat run_length <= 2 ^ 53 ->
  xfinite (run_ratio log2 factor position run_length) = true.
Proof.
  intros Hf Hp H53.
  assert (Hf' : (2 ^ (-1074) <= factor)%Q)
    by (eapply Qle_trans; [apply (P2_le (-1074) (-969)); lia | exact Hf]).
  rewrite (run_ratio_quotient position run_length Hf' Hp).
  destruct (run_bound_ge (-969) position ltac:(lia) Hf Hp)
    as [-> | (b & -> & Hb)]; [reflexivity|].
  pose proof (P2_pos (-969)) as Hpos.
  assert (Hq : (0 <= float_of_nat run_length / b <= 2 ^ 1022)%Q).
  { rewrite (float_of_nat_exact run_length H53).
    assert (Hn : (0 <= inject_Z (Z.of_nat run_length) <= 2 ^ 53)%Q).
    { split.
      - change 0%Q with (inject_Z 0). rewrite <- Zle_Qle. lia.
      - rewrite Qpower_2_nonneg by lia. now rewrite <- Zle_Qle. }
    split.
    - apply Qle_shift_div_l; [lra|]. lra.
    - apply Qle_shift_div_r; [lra|].
      apply (Qle_trans _ (2 ^ 1022 * 2 ^ (-969))).
      + rewrite <- P2_plus. apply Hn.
      + apply Qmult_le_l; [apply P2_pos | exact Hb]. }
  destruct (b64_nonneg_finite _ 1022 (proj1 Hq) ltac:(lia) (proj2 Hq))
    as [-> _].
  reflexivity.
Qed.
End BoundFacts.

(** ** The claims on bound analysis *)

Lemma analysed_ratios_finite (log2 : Z -> Q) (factor : Q)
      (zero_runs : list (nat * nat)) :
  log2_sound log2 -> (2 ^ (-969) <= factor)%Q ->
  Forall (fun run => Z.of_nat (snd run) <= 2 ^ 53) zero_runs ->
  Forall (fun x => xfinite x = true)
         (map (ratio_of log2 factor) (analysed zero_runs)).
Proof.
  intros Hlog Hf Hlen. apply Forall_map, Forall_forall. intros r Hr.
  apply analysed_In in Hr as [Hin Hp]. rewrite Forall_forall in Hlen.
  apply run_ratio_finite; auto.
Qed.

Lemma running_max_finite (ratios : list xfloat) (init : xfloat) :
  xfinite init = true -> Forall (fun x => xfinite x = true) ratios ->
  xfinite (running_max init ratios) = true.
Proof.
  intros Hi Hall. destruct (running_max_cases ratios init) as [->|Hin]; auto.
  rewrite Forall_forall in Hall. now apply Hall.
Qed.

(** C10: for a run with start position at least 1 analysed under a factor
    that is a positive float (at least [2^-1074]), the computed bound
    [factor * log2(position + 1)] is strictly positive (or [+inf]), so the
    ratio is the float quotient and never the infinite fallback.  The
    quotient itself is finite when the factor is at least [2^-969] and the
    run is no longer than [2^53]; then every ratio that enters the
    statistics, the violations and [max_ratio] is finite. *)
Theorem positive_factor_quotient_branch (log2 : Z -> Q) (factor : Q) :
  log2_sound log2 -> (2 ^ (-1074) <= factor)%Q ->
  (forall position run_length : nat, (1 <= position)%nat ->
     (run_bound log2 factor position = Real PInf
      \/ exists b, run_bound log2 factor position = Real (Fin b)
                   /\ (0 < b)%Q)
     /\ run_ratio log2 factor position run_length
        = match run_bound log2 factor position with
          | Real (Fin bound) => b64_nonneg (float_of_nat run_length / bound)
          | _ => Fin 0
          end
     /\ ((2 ^ (-969) <= factor)%Q -> Z.of_nat run_length <= 2 ^ 53 ->
         xfinite (run_ratio log2 factor position run_length) = true))
  /\ (forall zero_runs : list (nat * nat),
        (2 ^ (-969) <= factor)%Q ->
        Forall (fun run => Z.of_nat (snd run) <= 2 ^ 53) zero_runs ->
        let a := analyze log2 factor zero_runs in
        Forall (fun d => xfinite (RunData.ratio d) = true) (a_run_data a)
        /\ Forall (fun v => xfinite (Violation.ratio v) = true) (a_violations a)
        /\ xfinite (a_max_ratio a) = true).
Proof.
  intros Hlog Hf. split.
  - intros p l Hp. split; [|split].
    + destruct (run_bound_ge log2 factor Hlog (-1074) p ltac:(lia) Hf Hp)
        as [E | (b & E & Hb)]; [now left | right].
      exists b. split; auto. pose proof (P2_pos (-1074)). lra.
    + now apply run_ratio_quotient.
    + intros Hf' Hl. now apply run_ratio_finite.
  - intros zero_runs Hf' Hlen a. subst a. rewrite analyze_eq.
    cbn [a_run_data a_violations a_max_ratio].
    pose proof (analysed_ratios_finite log2 factor zero_runs Hlog Hf' Hlen)
      as Hfin.
    split; [|split].
    + apply Forall_map. now apply Forall_map in Hfin.
    + apply Forall_map. apply Forall_forall. intros r Hr.
      apply filter_In in Hr as [Hr _]. apply Forall_map in Hfin.
      rewrite Forall_forall in Hfin. exact (Hfin r Hr).
    + now apply running_max_finite.
Qed.

Lemma positive_factor_quotient_branch_witness :
  log2_sound log2_floor /\ (2 ^ (-1074) <= 2)%Q
  /\ run_ratio log2_floor 2 1 7
     = match run_bound log2_floor 2 1 with
       | Real (Fin bound) => b64_nonneg (float_of_nat 7 / bound)
       | _ => Fin 0
       end
  /\ xfinite (a_max_ratio (analyze log2_floor 2 [(1, 7); (9, 3)]%nat)) = true.
Proof.
  assert (Hf : (2 ^ (-1074) <= 2)%Q) by (vm_compute; discriminate).
  assert (Hf' : (2 ^ (-969) <= 2)%Q) by (vm_compute; discriminate).
  assert (Hlen : Forall (fun run : nat * nat => Z.of_nat (snd run) <= 2 ^ 53)
                        [(1, 7); (9, 3)]%nat)
    by (repeat constructor; vm_compute; discriminate).
  destruct (positive_factor_quotient_branch log2_floor 2 log2_floor_sound Hf)
    as [H1 H2].
  split; [exact log2_floor_sound | split; [exact Hf | split]].
  - exact (proj1 (proj2 (H1 1%nat 7%nat (le_n 1)))).
  - exact (proj2 (proj2 (H2 [(1, 7); (9, 3)]%nat Hf' Hlen))).
Defined.

(** C10 as stated fails: with the positive factor [1e-320] the bound of
    the run [(1, 1)] is positive, and the quotient [1 / 1e-320] overflows
    to [+inf]; the validation of 0.625 then fails in [stdev]. *)
Theorem tiny_factor_ratio_overflows :
  (0 < factor_1e320)%Q
  /\ run_bound log2_floor factor_1e320 1 = Real (Fin factor_1e320)
  /\ run_ratio log2_floor factor_1e320 1 1 = PInf
  /\ validate_number log2_floor sqrt_approx stdev_raises 53 (5 # 8)
                     factor_1e320 8 false
     = Raise (OtherError "AttributeError").
Proof.
  split; [reflexivity|]. split; [vm_compute; reflexivity|].
  split; vm_compute; reflexivity.
Qed.

(** The run of 0.5: a factor of 2 and the run (1, 7) give the bound 2 and the
    ratio 3.5, a violation. *)
Example bound_at_position_1 (log2 : Z -> Q) :
  log2_sound log2 ->
  run_bound log2 2 1 = Real (Fin 2)
  /\ run_ratio log2 2 1 7 = Fin (7 # 2)
  /\ violates log2 2 (1, 7)%nat = true.
Proof.
  intros Hlog.
  assert (E : (2 * log2 (Z.of_nat 1 + 1)%Z == 2)%Q).
  { simpl (Z.of_nat 1 + 1)%Z.
    rewrite (log2_sound_pow2 log2 Hlog 1 ltac:(lia)). reflexivity. }
  assert (Hb : run_bound log2 2 1 = Real (Fin 2)).
  { unfold run_bound. rewrite (b64_ext _ _ E). vm_compute. reflexivity. }
  assert (Hr : run_ratio log2 2 1 7 = Fin (7 # 2)).
  { unfold run_ratio. rewrite Hb. vm_compute. reflexivity. }
  split; [exact Hb|]. split; [exact Hr|].
  unfold violates, ratio_of. cbn [fst snd]. rewrite Hr. reflexivity.
Qed.

Section VerdictFacts.
Variable log2 : Z -> Q.
Variable sqrt : Q -> Q.
Variable stdev_nonfinite : list xfloat -> exc pyfloat.




End VerdictFacts.




(** ** The claims on whole validations *)

(** C5: a zero run starting at position 0 produces no run analysis (it adds
    nothing to the violations, the ratios or [max_ratio]) but is counted in
    [total_runs]; in particular an integer-valued input with length 5 yields
    the bits [0,0,0,0,0], the single run (0,5), [total_runs = 1] and an empty
    list of run analyses. *)
Theorem position_zero_run_excluded
        (log2 : Z -> Q) (sqrt : Q -> Q)
        (stdev_nonfinite : list xfloat -> exc pyfloat)
        (prec : Z) (factor : Q) (is_transcendental : bool) :
  (forall (number : Q) (length : nat) (r : result),
     validate_number log2 sqrt stdev_nonfinite prec number factor length
                     is_transcendental = OK r ->
     let zero_runs := find_zero_runs (get_binary_expansion prec number length) in
     total_runs r = List.length zero_runs
     /\ Forall (fun d => (1 <= RunData.position d)%nat) (run_data r)
     /\ Forall (fun v => (1 <= Violation.position v)%nat) (violations r)
     /\ forall l rest, zero_runs = (O, l) :: rest ->
          total_runs r = S (List.length rest)
          /\ violations r = a_violations (analyze log2 factor rest)
          /\ run_data r = a_run_data (analyze log2 factor rest)
          /\ max_ratio r = a_max_ratio (analyze log2 factor rest))
  /\ (forall z : Z,
        get_binary_expansion prec (inject_Z z) 5 = [0; 0; 0; 0; 0]
        /\ find_zero_runs [0; 0; 0; 0; 0] = [(0, 5)]%nat
        /\ exists r,
            validate_number log2 sqrt stdev_nonfinite prec (inject_Z z) factor
                            5 is_transcendental = OK r
            /\ binary_prefix r = [0; 0; 0; 0; 0]
            /\ total_runs r = 1%nat
            /\ run_data r = [] /\ violations r = []
            /\ max_ratio r = Fin 0 /\ result_stats r = None).
Proof.
  split.
  - intros number length r Hret.
    destruct (validate_number_inv _ _ _ _ _ _ _ _ _ Hret)
      as (_ & _ & Hviol & Hmax & Htot & _ & Hrd).
    cbv zeta. split; [exact Htot|]. split; [|split].
    + rewrite Hrd, analyze_eq. cbn [a_run_data].
      apply Forall_map, Forall_forall. intros run Hin.
      now apply analysed_In in Hin.
    + rewrite Hviol, analyze_eq. cbn [a_violations].
      apply Forall_map, Forall_forall. intros run Hin.
      apply filter_In in Hin as [Hin _]. now apply analysed_In in Hin.
    + intros l rest E. rewrite Htot, Hviol, Hrd, Hmax, E.
      rewrite analyze_skip_zero. repeat split.
  - intros z. split; [apply get_binary_expansion_integer|].
    split; [reflexivity|].
    unfold validate_number. rewrite get_binary_expansion_integer.
    eexists. split; [reflexivity|]. repeat split.
Qed.

(** C2 fails on the code.  With exactly one analysed run the [if run_data:]
    block is entered and [stdev] is called on a single ratio: the validation
    of 0.5 over 8 bits (one run, at position 1) raises [StatisticsError]
    whatever the precision and the factor, instead of returning empty
    statistics. *)
Theorem validate_number_single_run_raises
        (log2 : Z -> Q) (sqrt : Q -> Q)
        (stdev_nonfinite : list xfloat -> exc pyfloat)
        (prec : Z) (factor : Q) (is_transcendental : bool) :
  0 < prec ->
  get_binary_expansion prec (1 # 2) 8 = [1; 0; 0; 0; 0; 0; 0; 0]
  /\ find_zero_runs [1; 0; 0; 0; 0; 0; 0; 0] = [(1, 7)]%nat
  /\ validate_number log2 sqrt stdev_nonfinite prec (1 # 2) factor 8
                     is_transcendental = Raise StatisticsError.
Proof.
  intros Hp.
  assert (E : get_binary_expansion prec (1 # 2) 8 = [1; 0; 0; 0; 0; 0; 0; 0])
    by (rewrite get_binary_expansion_exact by auto using representable_half;
        reflexivity).
  split; [exact E|]. split; [reflexivity|].
  apply validate_number_one_analysed. rewrite E. reflexivity.
Qed.

Lemma validate_number_single_run_raises_witness :
  0 < 3325
  /\ validate_number log2_floor sqrt_approx stdev_raises 3325 (1 # 2) 2 8 false
     = Raise StatisticsError.
Proof.
  split; [reflexivity|].
  exact (proj2 (proj2 (validate_number_single_run_raises
                         log2_floor sqrt_approx stdev_raises 3325 2 false
                         eq_refl))).
Defined.

(** C3 fails on the code.  At 53 bits ([precision = 15], the precision of a
    binary64) the fractional part of -1e-17 is computed as [-1e-17 - (-1)],
    which rounds to 1.0; the first doubling gives 2.0 and the first element
    of the result is 2.  (The elements are 0 or 1 whenever the starting
    fraction is below 1, which includes every non-negative input:
    [get_binary_expansion_binary], [get_binary_expansion_nonneg].) *)
Theorem get_binary_expansion_not_binary :
  initial_fraction 53 (Qmake (-1) (10 ^ 17)) = 1%Q
  /\ get_binary_expansion 53 (Qmake (-1) (10 ^ 17)) 5 = [2; 0; 0; 0; 0]
  /\ ~ Forall is_bit (get_binary_expansion 53 (Qmake (-1) (10 ^ 17)) 5).
Proof.
  assert (E : get_binary_expansion 53 (Qmake (-1) (10 ^ 17)) 5
              = [2; 0; 0; 0; 0]) by (vm_compute; reflexivity).
  split; [vm_compute; reflexivity|]. split; [exact E|].
  rewrite E. intros H. inversion H as [|b l Hb Hl]; subst.
  destruct Hb; discriminate.
Qed.

(** ** The ratio distribution *)

Lemma bucket_low_iff (q : Q) : bucket_low (Fin q) = true <-> (q < 0.33)%Q.
Proof. apply Qltb_lt. Qed.

Lemma bucket_medium_iff (q : Q) :
  bucket_medium (Fin q) = true <-> (0.33 <= q < 0.66)%Q.
Proof.
  unfold bucket_medium. simpl. now rewrite andb_true_iff, Qle_bool_iff, Qltb_lt.
Qed.

Lemma bucket_high_iff (q : Q) : bucket_high (Fin q) = true <-> (0.66 <= q)%Q.
Proof. apply Qle_bool_iff. Qed.

Lemma buckets_partition (r : xfloat) : in_one_bucket r.
Proof.
  destruct r as [q|]; [|right; right; repeat split].
  unfold in_one_bucket, bucket_low, bucket_medium, bucket_high. simpl.
  destruct (Qlt_le_dec q 0.33) as [H1|H1].
  - left. repeat split.
    + now apply Qltb_lt.
    + apply andb_false_iff. left. now apply Qle_bool_false.
    + apply Qle_bool_false. lra.
  - destruct (Qlt_le_dec q 0.66) as [H2|H2].
    + right; left. repeat split.
      * now apply Qltb_ge.
      * apply andb_true_iff. split; [now apply Qle_bool_iff | now apply Qltb_lt].
      * now apply Qle_bool_false.
    + right; right. repeat split.
      * now apply Qltb_ge.
      * apply andb_false_iff. right. now apply Qltb_ge.
      * now apply Qle_bool_iff.
Qed.

Lemma low_bucket_only (q : Q) :
  (q < 0.33)%Q ->
  bucket_low (Fin q) = true /\ bucket_medium (Fin q) = false
  /\ bucket_high (Fin q) = false.
Proof.
  intros H. apply bucket_low_iff in H.
  destruct (buckets_partition (Fin q)) as [?|[(L & _)|(L & _)]]; auto;
    congruence.
Qed.

Lemma medium_bucket_only (q : Q) :
  (0.33 <= q < 0.66)%Q ->
  bucket_low (Fin q) = false /\ bucket_medium (Fin q) = true
  /\ bucket_high (Fin q) = false.
Proof.
  intros H. apply bucket_medium_iff in H.
  destruct (buckets_partition (Fin q)) as [(_ & M & _)|[?|(_ & M & _)]]; auto;
    congruence.
Qed.

Lemma distribution_total (ratios : list xfloat) :
  (low (distribution_of ratios) + medium (distribution_of ratios)
   + high (distribution_of ratios))%nat = List.length ratios.
Proof.
  unfold distribution_of. cbn [low medium high].
  induction ratios as [|r l IH]; [reflexivity|]. cbn [filter List.length].
  destruct (buckets_partition r) as [(-> & -> & ->)|[(-> & -> & ->)|(-> & -> & ->)]];
    cbn [List.length]; lia.
Qed.

Lemma finite_count_all (ratios : list xfloat) :
  Forall (fun r => xfinite r = true) ratios ->
  finite_count ratios = List.length ratios.
Proof.
  unfold finite_count. induction 1 as [|r l Hr Hl IH]; simpl; auto.
  rewrite Hr. simpl. now rewrite IH.
Qed.

(** C6 as stated fails: with a factor of 0 both runs get the infinite ratio,
    both are counted in the high bucket, and no ratio is finite. *)
Lemma distribution_counts_infinite_ratios :
  let ratios :=
    map RunData.ratio (a_run_data (analyze log2_floor 0 [(1, 7); (9, 3)]%nat)) in
  let d := distribution_of ratios in
  ratios = [PInf; PInf]
  /\ d = mk_distribution 0 0 2
  /\ finite_count ratios = 0%nat
  /\ (low d + medium d + high d)%nat <> finite_count ratios.
Proof. vm_compute. repeat split; discriminate. Qed.

(** C6, amended: the buckets are [r < 0.33], [0.33 <= r < 0.66] and
    [r >= 0.66], the last one holding the infinite ratio too; 0.33 falls in
    the middle and 0.66 in the high bucket; every ratio is in exactly one
    bucket, and the three counts sum to the number of all ratios (which is
    the number of finite ratios when all are finite). *)
Theorem distribution_partition (ratios : list xfloat) :
  let d := distribution_of ratios in
  (forall q, bucket_low (Fin q) = true <-> (q < 0.33)%Q)
  /\ (forall q, bucket_medium (Fin q) = true <-> (0.33 <= q < 0.66)%Q)
  /\ (forall q, bucket_high (Fin q) = true <-> (0.66 <= q)%Q)
  /\ bucket_medium (Fin 0.33) = true /\ bucket_high (Fin 0.66) = true
  /\ bucket_high PInf = true
  /\ (forall r, in_one_bucket r)
  /\ low d = List.length (filter bucket_low ratios)
  /\ medium d = List.length (filter bucket_medium ratios)
  /\ high d = List.length (filter bucket_high ratios)
  /\ (low d + medium d + high d)%nat = List.length ratios
  /\ (Forall (fun r => xfinite r = true) ratios ->
      (low d + medium d + high d)%nat = finite_count ratios).
Proof.
  cbv zeta. split; [exact bucket_low_iff|]. split; [exact bucket_medium_iff|].
  split; [exact bucket_high_iff|]. repeat (split; [reflexivity|]).
  split; [exact buckets_partition|]. repeat (split; [reflexivity|]).
  split; [apply distribution_total|].
  intros Hfin. rewrite (finite_count_all _ Hfin). apply distribution_total.
Qed.

(** ** Mean and median *)

Lemma xleb_false_flip (a b : xfloat) : xleb a b = false -> xleb b a = true.
Proof.
  intros H. destruct (xleb_total a b) as [H'|H']; auto. congruence.
Qed.

Lemma insert_sorted_perm (x : xfloat) (l : list xfloat) :
  Permutation (insert_sorted x l) (x :: l).
Proof.
  induction l as [|y t IH]; simpl; auto.
  destruct (xleb x y); auto.
  rewrite IH. apply perm_swap.
Qed.

Lemma sorted_perm (data : list xfloat) : Permutation (sorted data) data.
Proof.
  induction data as [|x t IH]; simpl; auto.
  rewrite insert_sorted_perm. now constructor.
Qed.

Lemma insert_sorted_HdRel (y x : xfloat) (t : list xfloat) :
  HdRel xle y t -> xle y x -> HdRel xle y (insert_sorted x t).
Proof.
  intros Hhd Hyx. destruct t as [|z t]; simpl.
  - now constructor.
  - destruct (xleb x z); constructor; auto. now inversion Hhd.
Qed.

Lemma insert_sorted_Sorted (x : xfloat) (l : list xfloat) :
  Sorted xle l -> Sorted xle (insert_sorted x l).
Proof.
  induction 1 as [|y t Hs IH Hhd]; simpl.
  - repeat constructor.
  - destruct (xleb x y) eqn:E.
    + constructor; [now constructor | now constructor].
    + constructor; auto. apply insert_sorted_HdRel; auto.
      now apply xleb_false_flip.
Qed.

Lemma sorted_Sorted (data : list xfloat) : StronglySorted xle (sorted data).
Proof.
  apply Sorted_StronglySorted.
  - intros a b c. apply xleb_trans.
  - induction data as [|x t IH]; simpl; [constructor|].
    now apply insert_sorted_Sorted.
Qed.

Lemma xsum_fold (qs : list Q) (acc : Q) (data : list xfloat) :
  finite_values data = Some qs ->
  fold_left xadd data (Fin acc) = Fin (fold_left Qplus qs acc).
Proof.
  revert qs acc. induction data as [|[q|] t IH]; intros qs acc H; simpl in *.
  - now injection H as <-.
  - destruct (finite_values t) as [qs'|]; [|discriminate].
    injection H as <-. simpl. now apply IH.
  - discriminate.
Qed.

Lemma xsum_finite (data : list xfloat) (qs : list Q) :
  finite_values data = Some qs -> xsum data = Fin (Qsum qs).
Proof. apply xsum_fold. Qed.

Lemma compute_stats_inv sqrt stdev_nonfinite run_data st :
  compute_stats sqrt stdev_nonfinite run_data = OK (Some st) ->
  let ratios := map RunData.ratio run_data in
  mean ratios = OK (mean_ratio st)
  /\ median ratios = OK (median_ratio st)
  /\ stdev sqrt stdev_nonfinite ratios = OK (std_ratio st)
  /\ ratio_distribution st = distribution_of ratios.
Proof.
  unfold compute_stats. destruct run_data as [|d t]; [discriminate|].
  set (ratios := map RunData.ratio (d :: t)).
  destruct (mean ratios) as [m|]; [|discriminate]. simpl.
  destruct (median ratios) as [md|]; [|discriminate]. simpl.
  destruct (stdev _ _ ratios) as [sd|]; [|discriminate]. simpl.
  intros H. injection H as <-. repeat split.
Qed.

(** C7: for at least two ratios the statistics hold the arithmetic mean,
    computed exactly and rounded once to the nearest float, and the median,
    the midpoint of the sorted ratios, which on an even count is
    [(a + b) / 2] of the two middle elements in float arithmetic; the floats
    [0.2, 0.5] give mean 0.35, median 0.35 and the counts low 1, medium 1,
    high 0. *)
Theorem statistics_mean_median
        (sqrt : Q -> Q) (stdev_nonfinite : list xfloat -> exc pyfloat)
        (run_data : list RunData.t) :
  (2 <= List.length run_data)%nat ->
  stats_computed sqrt stdev_nonfinite run_data.
Proof.
  intros Hlen. unfold stats_computed. cbv zeta.
  set (ratios := map RunData.ratio run_data).
  assert (Hne : ratios <> [])
    by (subst ratios; destruct run_data; simpl in *; [lia | congruence]).
  split; [|split].
  - intros st Hst.
    destruct (compute_stats_inv _ _ _ _ Hst) as (Hm & Hmd & _ & Hd).
    fold ratios in Hm, Hmd, Hd.
    rewrite (mean_OK _ Hne) in Hm. injection Hm as Hm.
    split; [now symmetry|]. split; [|split; [|exact Hd]].
    + intros qs Hqs. rewrite <- Hm, (xsum_finite _ _ Hqs). reflexivity.
    + exists (sorted ratios). split; [apply sorted_perm|].
      split; [apply sorted_Sorted|].
      unfold median in Hmd. unfold float_midpoint.
      destruct (List.length (sorted ratios) =? 0)%nat; [discriminate|].
      destruct (Nat.odd _); now injection Hmd as <-.
  - intros Hfin.
    destruct (compute_stats_OK sqrt stdev_nonfinite run_data Hlen)
      as (m & md & sd & _ & _ & _ & ->); eauto.
    apply Forall_map in Hfin. exact Hfin.
  - intros E.
    assert (Hfin : Forall (fun x => xfinite x = true) ratios)
      by (rewrite E; repeat constructor).
    destruct (compute_stats_OK sqrt stdev_nonfinite run_data Hlen)
      as (m & md & sd & Hm & Hmd & _ & ->).
    { apply Forall_map in Hfin. exact Hfin. }
    fold ratios in Hm, Hmd |- *. rewrite E in Hm, Hmd |- *.
    eexists. split; [reflexivity|].
    cbn [mean_ratio median_ratio ratio_distribution].
    assert (Em : mean [b64_nonneg 0.2; b64_nonneg 0.5] = OK (b64_nonneg 0.35))
      by (vm_compute; reflexivity).
    assert (Emd : median [b64_nonneg 0.2; b64_nonneg 0.5]
                  = OK (b64_nonneg 0.35))
      by (vm_compute; reflexivity).
    split; [congruence|]. split; [congruence|].
    vm_compute. reflexivity.
Qed.

Lemma statistics_mean_median_witness :
  (2 <= List.length [RunData.mk 2 1 (Real (Fin 5)) (b64_nonneg 0.2);
                     RunData.mk 4 5 (Real (Fin 10)) (b64_nonneg 0.5)])%nat
  /\ stats_computed sqrt_approx stdev_raises
       [RunData.mk 2 1 (Real (Fin 5)) (b64_nonneg 0.2);
        RunData.mk 4 5 (Real (Fin 10)) (b64_nonneg 0.5)].
Proof.
  split; [apply le_n|].
  apply (statistics_mean_median sqrt_approx stdev_raises
           [RunData.mk 2 1 (Real (Fin 5)) (b64_nonneg 0.2);
            RunData.mk 4 5 (Real (Fin 10)) (b64_nonneg 0.5)]).
  apply le_n.
Defined.

(** C7 as stated fails: 0.640625 validated with the factor [1e-308] has the
    two finite ratios [1e308, 1e308]; their sum overflows, so the median
    reported is [+inf], not the average of the two middle elements. *)
Theorem median_overflows_on_finite_ratios :
  exists r st,
    validate_number log2_floor sqrt_approx stdev_raises 53 (41 # 64)
                    factor_1e308 6 false = OK r
    /\ result_stats r = Some st
    /\ List.length (run_data r) = 2%nat
    /\ Forall (fun d => xfinite (RunData.ratio d) = true) (run_data r)
    /\ xfinite (max_ratio r) = true
    /\ median_ratio st = PInf
    /\ ~ stats_correct sqrt_approx stdev_raises (run_data r).
Proof.
  eexists. eexists. split; [vm_compute; reflexivity|].
  split; [reflexivity|]. split; [reflexivity|].
  split; [repeat constructor|]. split; [reflexivity|].
  split; [reflexivity|].
  intros (H & _).
  edestruct H as (_ & _ & (s & Hperm & _ & Hmid) & _);
    [vm_compute; reflexivity|].
  cbn [median_ratio] in Hmid. cbn [map RunData.ratio] in Hperm.
  apply Permutation_sym, Permutation_length_2_inv in Hperm.
  destruct Hperm as [-> | ->]; discriminate Hmid.
Qed.

(** ** The report *)

Lemma convert_violation_obj (v : Violation.t) :
  convert_to_serializable (violation_obj v) = violation_obj v.
Proof. reflexivity. Qed.

Lemma convert_run_data_obj (d : RunData.t) :
  convert_to_serializable (run_data_obj d) = run_data_obj d.
Proof. reflexivity. Qed.

Lemma convert_stats_obj (s : option stats) :
  convert_to_serializable (stats_obj s) = stats_obj s.
Proof. destruct s; reflexivity. Qed.

Lemma convert_violations (vs : list Violation.t) :
  convert_to_serializable (PyList (map violation_obj vs))
  = PyList (map violation_obj vs).
Proof.
  cbn [convert_to_serializable]. f_equal. rewrite map_map.
  apply map_ext. intros v. apply convert_violation_obj.
Qed.

Lemma convert_run_data (ds : list RunData.t) :
  convert_to_serializable (PyList (map run_data_obj ds))
  = PyList (map run_data_obj ds).
Proof.
  cbn [convert_to_serializable]. f_equal. rewrite map_map.
  apply map_ext. intros d. apply convert_run_data_obj.
Qed.

(** The record written for one result, after [convert_to_serializable]. *)
Lemma report_entry_eq (case : Case.t) (r : result) :
  report_entry case r =
  PyDict [("name", PyStr (Case.name case));
          ("type", PyStr (Case.type case));
          ("number", PyFloat (Real (Fin (number r))));
          ("factor", PyFloat (Real (Fin (factor r))));
          ("factor_name", PyStr (factor_name r));
          ("valid", PyBool (valid r));
          ("max_ratio", PyFloat (Real (max_ratio r)));
          ("total_runs", PyInt (Z.of_nat (total_runs r)));
          ("violations", PyList (map violation_obj (violations r)));
          ("stats", stats_obj (result_stats r));
          ("binary_prefix",
            PyStr (String.concat "" (map str_int (binary_prefix r))));
          ("run_data", PyList (map run_data_obj (run_data r)))]%string.
Proof.
  unfold report_entry.
  now rewrite convert_violations, convert_run_data, convert_stats_obj.
Qed.

Lemma finite_violations (vs : list Violation.t) :
  forallb finite_obj (map violation_obj vs) = true ->
  Forall (fun v => xfinite (Violation.ratio v) = true) vs.
Proof.
  induction vs as [|v t IH]; [constructor|].
  cbn [map forallb]. intros H. apply andb_true_iff in H as [Hv Ht].
  constructor; auto. cbn in Hv.
  destruct (Violation.bound v) as [[b|]| |]; cbn in Hv; try discriminate;
    now rewrite andb_true_r in Hv.
Qed.

Lemma finite_run_data (ds : list RunData.t) :
  forallb finite_obj (map run_data_obj ds) = true ->
  Forall (fun d => xfinite (RunData.ratio d) = true) ds.
Proof.
  induction ds as [|d t IH]; [constructor|].
  cbn [map forallb]. intros H. apply andb_true_iff in H as [Hd Ht].
  constructor; auto. cbn in Hd.
  destruct (RunData.bound d) as [[b|]| |]; cbn in Hd; try discriminate;
    now rewrite andb_true_r in Hd.
Qed.

(** C8 as stated fails: the report record of that result holds the infinite
    ratios as they are. *)
Lemma create_report_keeps_infinity :
  exists r,
    infinite_ratio_result = OK r
    /\ max_ratio r = PInf
    /\ map Violation.ratio (violations r) = [PInf; PInf]
    /\ getitem (report_entry sample_case r) "max_ratio"
       = Some (PyFloat (Real PInf))
    /\ finite_obj (report_entry sample_case r) = false.
Proof.
  eexists. split; [vm_compute; reflexivity|]. repeat split.
Qed.

(** C8, amended: [create_report] does not fail and converts no ratio: the
    record holds [max_ratio] and the ratio of every violation and of every
    run analysis as the same float, so that the record is free of infinities
    only if the result is. *)
Theorem create_report_passes_ratios (case : Case.t) (r : result) :
  getitem (report_entry case r) "max_ratio"
  = Some (PyFloat (Real (max_ratio r)))
  /\ getitem (report_entry case r) "violations"
     = Some (PyList (map violation_obj (violations r)))
  /\ getitem (report_entry case r) "run_data"
     = Some (PyList (map run_data_obj (run_data r)))
  /\ (forall v, getitem (violation_obj v) "ratio"
                = Some (PyFloat (Real (Violation.ratio v))))
  /\ (forall d, getitem (run_data_obj d) "ratio"
                = Some (PyFloat (Real (RunData.ratio d))))
  /\ (finite_obj (report_entry case r) = true ->
      xfinite (max_ratio r) = true
      /\ Forall (fun v => xfinite (Violation.ratio v) = true) (violations r)
      /\ Forall (fun d => xfinite (RunData.ratio d) = true) (run_data r)).
Proof.
  rewrite report_entry_eq. repeat (split; [reflexivity|]).
  cbn [finite_obj forallb snd]. rewrite !andb_true_iff.
  intros (_ & _ & _ & _ & _ & _ & Hmax & _ & Hv & _ & _ & Hd & _).
  split; [exact Hmax|].
  split; [now apply finite_violations | now apply finite_run_data].
Qed.

(** C9: serialising a result to its report record and reading the record back
    gives the name and the number type of the test case, the valid flag, the
    number of runs and the number of violations of the result; the records
    keep the order of the results.  The type written is the one
    [validate_number] stored when it was called as [run_analysis] calls it. *)
Theorem report_round_trip (results : list (Case.t * result)) :
  (forall case r,
     parse_entry (report_entry case r)
     = Some (mk_parsed (Case.name case) (Case.type case) (valid r)
                       (Z.of_nat (total_runs r))
                       (List.length (violations r))))
  /\ map parse_entry (create_report results)
     = map (fun cr => Some (mk_parsed (Case.name (fst cr)) (Case.type (fst cr))
                                      (valid (snd cr))
                                      (Z.of_nat (total_runs (snd cr)))
                                      (List.length (violations (snd cr)))))
           results
  /\ (forall log2 sqrt stdev_nonfinite prec test_length case r,
        validate_case log2 sqrt stdev_nonfinite prec test_length case = OK r ->
        Case.type case = "algebraic"%string
        \/ Case.type case = "transcendental"%string ->
        number_type r = Case.type case).
Proof.
  assert (H : forall case r,
             parse_entry (report_entry case r)
             = Some (mk_parsed (Case.name case) (Case.type case) (valid r)
                               (Z.of_nat (total_runs r))
                               (List.length (violations r)))).
  { intros case r. rewrite report_entry_eq. unfold parse_entry. cbn.
    now rewrite length_map. }
  split; [exact H|]. split.
  - unfold create_report. rewrite map_map. apply map_ext. intros [c r]. apply H.
  - intros log2 sqrt sn prec n case r Hret Hty.
    unfold validate_case, validate_number in Hret.
    destruct (compute_stats _ _ _); [|discriminate]. simpl in Hret.
    injection Hret as <-. cbn [number_type].
    destruct Hty as [-> | ->]; reflexivity.
Qed.

(** * Further properties *)

(** ** More on [get_binary_expansion] *)

Lemma expansion_loop_length (prec : Z) (length : nat) (f : Q) :
  List.length (expansion_loop prec length f) = length.
Proof.
  revert f. induction length as [|n IH]; intros f; [reflexivity|].
  cbn [expansion_loop]. destruct (expansion_step prec f) as [bit f'].
  simpl. now rewrite IH.
Qed.

Lemma expansion_loop_prefix (prec : Z) (n m : nat) (f : Q) :
  firstn n (expansion_loop prec (n + m) f) = expansion_loop prec n f.
Proof.
  revert f. induction n as [|n IH]; intros f; [reflexivity|].
  cbn [Nat.add expansion_loop]. destruct (expansion_step prec f) as [bit f'].
  cbn [firstn]. now rewrite IH.
Qed.

Lemma half_pow_succ (n : nat) :
  ((1 # 2) ^ Z.of_nat (S n) == (1 # 2) ^ Z.of_nat n * (1 # 2))%Q.
Proof.
  rewrite Nat2Z.inj_succ. unfold Z.succ. rewrite Qpower_plus by discriminate.
  reflexivity.
Qed.

Lemma exact_expansion_value (length : nat) (f : Q) :
  (0 <= f < 1)%Q ->
  (0 <= f - bits_value (exact_expansion length f) < (1 # 2) ^ Z.of_nat length)%Q.
Proof.
  revert f. induction length as [|n IH]; intros f Hf.
  - simpl. change ((1 # 2) ^ 0)%Q with 1%Q. lra.
  - cbn [exact_expansion]. cbv zeta. cbn [bits_value fold_right].
    fold (bits_value (exact_expansion n (f * 2 - inject_Z (Qfloor (f * 2))))).
    set (bit := Qfloor (f * 2)).
    pose proof (Qfloor_le (f * 2)) as H1. pose proof (Qlt_floor (f * 2)) as H2.
    fold bit in H1, H2.
    rewrite inject_Z_plus in H2. change (inject_Z 1) with 1%Q in H2.
    assert (Hf' : (0 <= f * 2 - inject_Z bit < 1)%Q) by lra.
    specialize (IH _ Hf'). set (v := bits_value _) in *.
    rewrite half_pow_succ. set (p := ((1 # 2) ^ Z.of_nat n)%Q) in *.
    assert (E : (f - (inject_Z bit + v) / 2
                 == (f * 2 - inject_Z bit - v) * (1 # 2))%Q) by field.
    rewrite E. split.
    + apply Qmult_le_0_compat; lra.
    + apply Qmult_lt_compat_r; [reflexivity | lra].
Qed.

Lemma exact_expansion_0 (length : nat) : exact_expansion length 0 = repeat 0 length.
Proof.
  induction length as [|n IH]; [reflexivity|].
  cbn [exact_expansion]. cbv zeta. cbn [repeat]. f_equal.
  rewrite <- IH. apply exact_expansion_comp. reflexivity.
Qed.

Lemma nth_repeat_0 (i n : nat) : nth i (repeat 0 n) 0 = 0.
Proof. revert i. induction n; intros [|i]; simpl; auto. Qed.

Lemma exact_expansion_dyadic (j : nat) :
  forall (length : nat) (f : Q) (i : nat),
    (0 <= f < 1)%Q -> Qis_int (f * inject_Z (2 ^ Z.of_nat j)) ->
    (j <= i)%nat -> nth i (exact_expansion length f) 0 = 0.
Proof.
  induction j as [|j IH]; intros n f i Hf (m & Hm) Hi.
  - assert (E : (f == inject_Z m)%Q).
    { rewrite <- Hm. change (inject_Z (2 ^ Z.of_nat 0)) with 1%Q. ring. }
    assert (m = 0).
    { rewrite E in Hf. destruct Hf as [H0 H1].
      change 0%Q with (inject_Z 0) in H0. change 1%Q with (inject_Z 1) in H1.
      rewrite <- Zle_Qle in H0. rewrite <- Zlt_Qlt in H1. lia. }
    subst m. rewrite (exact_expansion_comp n f 0 E), exact_expansion_0.
    apply nth_repeat_0.
  - destruct n as [|n]; [now destruct i|].
    destruct i as [|i]; [lia|].
    cbn [exact_expansion]. cbv zeta. cbn [nth].
    pose proof (Qfloor_le (f * 2)) as H1. pose proof (Qlt_floor (f * 2)) as H2.
    rewrite inject_Z_plus in H2. change (inject_Z 1) with 1%Q in H2.
    apply IH; [lra| |lia].
    exists (m - Qfloor (f * 2) * 2 ^ Z.of_nat j).
    unfold Zminus. rewrite inject_Z_plus, inject_Z_opp, inject_Z_mult, <- Hm.
    rewrite Nat2Z.inj_succ, Z.pow_succ_r, inject_Z_mult by lia.
    change (inject_Z 2) with 2%Q. ring.
Qed.

(** Rounding a number below 1 gives at most 1. *)
Lemma mpf_round_below_1 (prec : Z) (x : Q) :
  0 < prec -> (0 <= x < 1)%Q -> (mpf_round prec x <= 1)%Q.
Proof.
  intros Hp [H0 H1]. destruct (Qle_lt_or_eq _ _ H0) as [Hpos|E].
  2:{ rewrite mpf_round_0 by now symmetry. discriminate. }
  unfold mpf_round.
  rewrite (Qeq_bool_pos x Hpos), (Qabs_nonneg_eq x H0), Qred_correct.
  set (k := ilog2 x - prec + 1).
  destruct (ilog2_spec x Hpos) as [Hlo Hhi].
  assert (Hneg : ilog2 x < 0).
  { apply P2_lt_inv. eapply Qle_lt_trans; [exact Hlo|exact H1]. }
  assert (Hm : round_half_even (x / 2 ^ k) <= 2 ^ prec).
  { apply round_half_even_le. rewrite <- Qpower_2_nonneg by lia.
    apply Qle_shift_div_r; [apply P2_pos|]. rewrite <- P2_plus.
    replace (prec + k) with (ilog2 x + 1) by (unfold k; lia).
    now apply Qlt_le_weak. }
  apply (Qle_trans _ (inject_Z (2 ^ prec) * 2 ^ k)).
  - apply Qmult_le_compat_r; [|apply Qlt_le_weak, P2_pos].
    now rewrite <- Zle_Qle.
  - rewrite <- Qpower_2_nonneg, <- P2_plus by lia.
    change 1%Q with (2 ^ 0)%Q. apply P2_le. unfold k. lia.
Qed.

Lemma initial_fraction_le_1 (prec : Z) (num : Q) :
  0 < prec -> (initial_fraction prec num <= 1)%Q.
Proof.
  intros Hp. unfold initial_fraction, mpf_sub, mpf_floor.
  set (x := mpf_round prec num).
  pose proof (Qfloor_le x) as H1. pose proof (Qlt_floor x) as H2.
  rewrite inject_Z_plus in H2. change (inject_Z 1) with 1%Q in H2.
  apply mpf_round_below_1; auto. lra.
Qed.

(** X1: [get_binary_expansion] returns exactly [length] elements, and the
    expansion to a shorter length is the prefix of the expansion to a longer
    one: the digits already produced do not depend on how many more are
    asked for. *)
Theorem expansion_length_and_prefix (prec : Z) (num : Q) (n m : nat) :
  List.length (get_binary_expansion prec num n) = n
  /\ firstn n (get_binary_expansion prec num (n + m))
     = get_binary_expansion prec num n.
Proof.
  unfold get_binary_expansion. split.
  - apply expansion_loop_length.
  - apply expansion_loop_prefix.
Qed.

(** X2: at any positive precision the starting value
    [mp_num - mp.floor(mp_num)] lies in [0, 1], both ends included; a
    non-empty expansion consists of 0s and 1s exactly when that value is
    below 1, and when it is 1 the expansion is a 2 followed by zeros. *)
Theorem expansion_binary_iff (prec : Z) (num : Q) (n : nat) :
  0 < prec ->
  (0 <= initial_fraction prec num <= 1)%Q
  /\ (Forall is_bit (get_binary_expansion prec num (S n))
      <-> (initial_fraction prec num < 1)%Q)
  /\ ((initial_fraction prec num == 1)%Q ->
      get_binary_expansion prec num (S n) = 2 :: repeat 0 n).
Proof.
  intros Hp.
  destruct (initial_fraction_fits prec num Hp) as [Hrep H0].
  pose proof (initial_fraction_le_1 prec num Hp) as H1.
  split; [now split|]. split.
  - split.
    + intros Hbits. destruct (Qle_lt_or_eq _ _ H1) as [Hlt|E]; auto.
      pose proof (get_binary_expansion_first_2 prec num n Hp E) as H2.
      destruct (get_binary_expansion prec num (S n)) as [|b l]; [discriminate|].
      injection H2 as ->. inversion Hbits as [|? ? Hb _]; subst.
      destruct Hb; discriminate.
    + now apply get_binary_expansion_binary.
  - intros E. unfold get_binary_expansion. fold (initial_fraction prec num).
    set (f := initial_fraction prec num) in *. cbn [expansion_loop].
    unfold expansion_step, mpf_mul, mpf_sub.
    assert (Hrep2 : representable prec (f * 2)).
    { exists 1, 1. split.
      - split; [lia|]. change 1 with (2 ^ 0) at 1. apply Z.pow_lt_mono_r; lia.
      - rewrite E. reflexivity. }
    pose proof (mpf_round_exact prec _ Hp Hrep2) as E2.
    assert (E3 : (mpf_round prec (f * 2) == inject_Z 2)%Q)
      by (rewrite E2, E; reflexivity).
    rewrite (Qfloor_comp _ _ E3), Qfloor_Z. f_equal.
    rewrite mpf_round_0 by (rewrite E3; reflexivity).
    apply expansion_loop_0.
Qed.

Lemma expansion_binary_iff_witness :
  0 < 53
  /\ (Forall is_bit (get_binary_expansion 53 (5 # 16) 4)
      <-> (initial_fraction 53 (5 # 16) < 1)%Q).
Proof.
  split; [reflexivity|].
  exact (proj1 (proj2 (expansion_binary_iff 53 (5 # 16) 3 eq_refl))).
Defined.

Lemma representable_5_16 : representable 53 (5 # 16).
Proof. exists 5, (-4). split; [lia | reflexivity]. Qed.

(** X3: when the starting value is below 1, the digits returned are a
    binary approximation of it from below: read as a binary fraction they
    lie within [2^-length] of the starting value. *)
Theorem expansion_approximates (prec : Z) (num : Q) (n : nat) :
  0 < prec -> (initial_fraction prec num < 1)%Q ->
  (0 <= initial_fraction prec num
        - bits_value (get_binary_expansion prec num n)
   < (1 # 2) ^ Z.of_nat n)%Q.
Proof.
  intros Hp Hlt. destruct (initial_fraction_fits prec num Hp) as [Hrep H0].
  unfold get_binary_expansion. fold (initial_fraction prec num).
  rewrite expansion_loop_exact by (auto; split; auto).
  apply exact_expansion_value. now split.
Qed.

Lemma expansion_approximates_witness :
  0 < 53 /\ (initial_fraction 53 (5 # 16) < 1)%Q
  /\ (0 <= initial_fraction 53 (5 # 16)
           - bits_value (get_binary_expansion 53 (5 # 16) 3)
      < (1 # 2) ^ Z.of_nat 3)%Q.
Proof.
  split; [reflexivity|]. split; [vm_compute; reflexivity|].
  apply (expansion_approximates 53 (5 # 16) 3); [reflexivity|].
  vm_compute. reflexivity.
Defined.

(** X4: when the decimal that [str(num)] prints is a non-negative number
    that fits in the working precision (as for 0.5 or 0.3125; not for 0.1,
    whose printed decimal 1/10 fits in no precision), no rounding takes
    place: the result is the exact multiply-and-extract expansion of the
    fractional part of that decimal, within [2^-length] of it. *)
Theorem expansion_exact_on_fitting_input (prec : Z) (num : Q) (n : nat) :
  0 < prec -> representable prec num ->
  get_binary_expansion prec num n
  = exact_expansion n (num - inject_Z (Qfloor num))
  /\ (0 <= (num - inject_Z (Qfloor num))
           - bits_value (get_binary_expansion prec num n)
      < (1 # 2) ^ Z.of_nat n)%Q.
Proof.
  intros Hp Hrep. rewrite (get_binary_expansion_exact prec num n Hp Hrep).
  split; [reflexivity|]. apply exact_expansion_value.
  pose proof (Qfloor_le num) as H1. pose proof (Qlt_floor num) as H2.
  rewrite inject_Z_plus in H2. change (inject_Z 1) with 1%Q in H2. lra.
Qed.

Lemma expansion_exact_on_fitting_input_witness :
  0 < 53 /\ representable 53 (5 # 16)
  /\ get_binary_expansion 53 (5 # 16) 6
     = exact_expansion 6 ((5 # 16) - inject_Z (Qfloor (5 # 16))).
Proof.
  split; [reflexivity|]. split; [exact representable_5_16|].
  exact (proj1 (expansion_exact_on_fitting_input 53 (5 # 16) 6 eq_refl
                  representable_5_16)).
Defined.

(** X5: when the decimal that [str(num)] prints is a non-negative number
    that fits in the working precision and is a multiple of [2^-j], every
    digit from index [j] on is 0. *)
Theorem expansion_dyadic_tail (prec : Z) (num : Q) (n j i : nat) :
  0 < prec -> representable prec num ->
  Qis_int (num * inject_Z (2 ^ Z.of_nat j)) -> (j <= i)%nat ->
  nth i (get_binary_expansion prec num n) 0 = 0.
Proof.
  intros Hp Hrep (m & Hm) Hi.
  rewrite (get_binary_expansion_exact prec num n Hp Hrep).
  pose proof (Qfloor_le num) as H1. pose proof (Qlt_floor num) as H2.
  rewrite inject_Z_plus in H2. change (inject_Z 1) with 1%Q in H2.
  apply (exact_expansion_dyadic j); auto; [lra|].
  exists (m - Qfloor num * 2 ^ Z.of_nat j).
  unfold Zminus. rewrite inject_Z_plus, inject_Z_opp, inject_Z_mult, <- Hm. ring.
Qed.

Lemma expansion_dyadic_tail_witness :
  0 < 53 /\ representable 53 (5 # 16)
  /\ Qis_int ((5 # 16) * inject_Z (2 ^ Z.of_nat 4)) /\ (4 <= 6)%nat
  /\ nth 6 (get_binary_expansion 53 (5 # 16) 8) 0 = 0.
Proof.
  assert (Hint : Qis_int ((5 # 16) * inject_Z (2 ^ Z.of_nat 4)))
    by (exists 5; reflexivity).
  assert (Hle : (4 <= 6)%nat) by (repeat constructor).
  split; [reflexivity|]. split; [exact representable_5_16|].
  split; [exact Hint|]. split; [exact Hle|].
  exact (expansion_dyadic_tail 53 (5 # 16) 8 4 6 eq_refl representable_5_16
           Hint Hle).
Defined.

(** ** More on [find_zero_runs] *)

(** X6: an index holds a 0 exactly when it lies inside one of the runs
    that [find_zero_runs] reports, and that run is unique. *)
Theorem zero_bits_partitioned (binary : list Z) (k : nat) :
  (nth_error binary k = Some 0 <-> covered (find_zero_runs binary) k)
  /\ (forall r1 r2,
        In r1 (find_zero_runs binary) -> In r2 (find_zero_runs binary) ->
        inside r1 k -> inside r2 k -> r1 = r2).
Proof.
  split.
  - split; [apply find_zero_runs_cover|].
    intros (r & Hin & Hr).
    pose proof (find_zero_runs_maximal binary) as Hm.
    rewrite Forall_forall in Hm. destruct (Hm r Hin) as (_ & Hz & _).
    now apply Hz.
  - intros r1 r2 H1 H2 Hk1 Hk2.
    now apply (find_zero_runs_cover_unique binary k).
Qed.

Lemma scan_zeros (n : nat) :
  scan (repeat 0 (S n)) = mk_scan [] (S n) (Some O).
Proof.
  induction n as [|n IH]; [reflexivity|].
  change (repeat 0 (S (S n))) with (0 :: repeat 0 (S n)).
  rewrite repeat_cons, scan_snoc, IH. reflexivity.
Qed.

(** X7: [find_zero_runs] returns no run exactly when the sequence holds no
    0; a sequence of zeros only gives the single run [(0, n)] (the run open
    at the end of the scan is appended), a sequence of ones none. *)
Theorem find_zero_runs_extremes (binary : list Z) (n : nat) :
  (find_zero_runs binary = [] <-> ~ In 0 binary)
  /\ find_zero_runs (repeat 0 (S n)) = [(O, S n)]
  /\ find_zero_runs (repeat 1 n) = [].
Proof.
  assert (H : forall l, find_zero_runs l = [] <-> ~ In 0 l).
  { intros l. split.
    - intros E Hin. apply In_nth_error in Hin as (k & Hk).
      destruct (find_zero_runs_cover l k Hk) as (r & Hr & _).
      rewrite E in Hr. destruct Hr.
    - intros Hno. destruct (find_zero_runs l) as [|r rs] eqn:E; auto.
      exfalso. apply Hno.
      pose proof (find_zero_runs_maximal l) as Hm. rewrite E in Hm.
      inversion Hm as [|? ? (Hl & Hz & _) _]; subst.
      apply (nth_error_In l (fst r)). apply Hz. lia. }
  split; [apply H|]. split.
  - unfold find_zero_runs. rewrite scan_zeros. reflexivity.
  - apply H. intros Hin. apply repeat_spec in Hin. discriminate.
Qed.

Lemma sorted_runs_count (n : nat) (rs : list (nat * nat)) :
  StronglySorted run_before rs ->
  Forall (fun r => (0 < snd r)%nat /\ (fst r + snd r <= n)%nat) rs ->
  forall lo, Forall (fun r => (lo <= fst r)%nat) rs ->
    rs = [] \/ (lo + 2 * List.length rs <= n + 1)%nat.
Proof.
  induction 1 as [|r rs Hs IH Hr]; intros Hall lo Hlo; [now left|right].
  inversion Hall as [|? ? [Hl Hn] Hall']; subst.
  inversion Hlo as [|? ? Hlo1 _]; subst.
  destruct (IH Hall' (fst r + 2)%nat) as [->|Hb].
  - eapply Forall_impl; [|exact Hr]. unfold run_before. intros; lia.
  - simpl. lia.
  - simpl. lia.
Qed.

(** X8: a sequence of [n] elements has at most [(n + 1) / 2] runs; every
    run has a positive length and ends inside the sequence. *)
Theorem find_zero_runs_count (binary : list Z) :
  (2 * List.length (find_zero_runs binary) <= List.length binary + 1)%nat
  /\ Forall (fun r => (0 < snd r)%nat
                      /\ (fst r + snd r <= List.length binary)%nat)
            (find_zero_runs binary).
Proof.
  assert (Hin : Forall (fun r => (0 < snd r)%nat
                        /\ (fst r + snd r <= List.length binary)%nat)
                       (find_zero_runs binary)).
  { eapply Forall_impl; [|apply find_zero_runs_maximal].
    intros r (Hl & Hz & _). split; auto.
    assert (Hk : nth_error binary (fst r + snd r - 1) = Some 0)
      by (apply Hz; lia).
    assert (fst r + snd r - 1 < List.length binary)%nat
      by (apply nth_error_Some; congruence).
    lia. }
  split; auto.
  destruct (sorted_runs_count (List.length binary) _
              (find_zero_runs_sorted binary) Hin O) as [->|H].
  - apply Forall_forall. intros; lia.
  - simpl. lia.
  - lia.
Qed.

Lemma scan_from_shift (rs0 : list (nat * nat)) (d : nat) (l : list Z) :
  forall (i : nat) (st : scan_state),
    scan_from (d + i) (shift_state rs0 d st) l
    = shift_state rs0 d (scan_from i st l).
Proof.
  induction l as [|x l IH]; intros i st; [reflexivity|].
  unfold scan_from in *. cbn [List.length seq combine fold_left].
  rewrite <- Nat.add_succ_r, <- IH. f_equal.
  destruct st as [rs c s]. unfold scan_step, shift_state, append_run.
  cbn [runs current_run start_position].
  destruct (x =? 0); cbn [runs current_run start_position option_map].
  - destruct s; reflexivity.
  - destruct (0 <? c)%nat; [|reflexivity].
    destruct s as [s|]; cbn [option_map]; [|reflexivity].
    now rewrite map_app, app_assoc.
Qed.

Lemma combine_app_eq {A B : Type} (l1 l2 : list A) (m1 m2 : list B) :
  List.length l1 = List.length m1 ->
  combine (l1 ++ l2) (m1 ++ m2) = combine l1 m1 ++ combine l2 m2.
Proof.
  revert m1. induction l1 as [|x l1 IH]; intros [|y m1] H; simpl in *;
    try discriminate; auto.
  f_equal. apply IH. congruence.
Qed.

Lemma enumerate_app_cons (a : list Z) (b : Z) (c : list Z) :
  enumerate (a ++ b :: c)
  = enumerate a ++ (List.length a, b)
    :: combine (seq (S (List.length a)) (List.length c)) c.
Proof.
  unfold enumerate. rewrite length_app, seq_app. cbn [List.length seq Nat.add].
  rewrite combine_app_eq by apply length_seq. reflexivity.
Qed.

(** X9: a non-zero element separates the scan: the runs of [a ++ b :: c]
    are the runs of [a] followed by the runs of [c] moved [len(a) + 1]
    places to the right. *)
Theorem find_zero_runs_app_separator (a : list Z) (b : Z) (c : list Z) :
  b <> 0 ->
  find_zero_runs (a ++ b :: c)
  = find_zero_runs a
    ++ map (shift_run (S (List.length a))) (find_zero_runs c).
Proof.
  intros Hb. apply Z.eqb_neq in Hb.
  assert (E : scan (a ++ b :: c)
              = shift_state (find_zero_runs a) (S (List.length a)) (scan c)).
  { unfold scan at 1. rewrite enumerate_app_cons, fold_left_app.
    cbn [fold_left]. fold (scan a).
    change (fold_left scan_step
              (combine (seq (S (List.length a)) (List.length c)) c) ?st)
      with (scan_from (S (List.length a)) st c).
    replace (scan_step (scan a) (List.length a, b))
      with (shift_state (find_zero_runs a) (S (List.length a))
                        (mk_scan [] O None)).
    2:{ unfold scan_step, shift_state, find_zero_runs. rewrite Hb. simpl.
        now rewrite app_nil_r. }
    rewrite <- (Nat.add_0_r (S (List.length a))) at 1.
    now rewrite scan_from_shift. }
  unfold find_zero_runs at 1. rewrite E. clear E.
  set (rs0 := find_zero_runs a). unfold find_zero_runs, shift_state, append_run.
  cbn [runs current_run start_position].
  destruct (0 <? current_run (scan c))%nat; [|reflexivity].
  destruct (start_position (scan c)) as [s|]; cbn [option_map]; [|reflexivity].
  now rewrite map_app, app_assoc.
Qed.

Lemma find_zero_runs_app_separator_witness :
  1 <> 0
  /\ find_zero_runs ([0; 1; 0] ++ 1 :: [0; 0])
     = find_zero_runs [0; 1; 0] ++ map (shift_run 4) (find_zero_runs [0; 0]).
Proof.
  assert (H : 1 <> 0) by discriminate.
  split; [exact H|].
  exact (find_zero_runs_app_separator [0; 1; 0] 1 [0; 0] H).
Defined.

(** ** More on [validate_number] *)

Lemma filter_map_swap {A B : Type} (f : B -> bool) (g : A -> B) (l : list A) :
  filter f (map g l) = map g (filter (fun x => f (g x)) l).
Proof.
  induction l as [|x l IH]; simpl; auto.
  destruct (f (g x)); simpl; now rewrite IH.
Qed.

Lemma xltb_xleb_neg (a b : xfloat) : xltb a b = negb (xleb b a).
Proof.
  destruct (xltb a b) eqn:E.
  - now rewrite (xltb_not_xleb _ _ E).
  - now rewrite (xltb_false_xleb _ _ E).
Qed.

Lemma running_max_le (ratios : list xfloat) (init b : xfloat) :
  xleb (running_max init ratios) b = true
  <-> xleb init b = true /\ forall x, In x ratios -> xleb x b = true.
Proof.
  split.
  - intros H. split.
    + eapply xleb_trans; [apply running_max_ge_init | exact H].
    + intros x Hx. eapply xleb_trans; [apply running_max_ub; eauto | exact H].
  - intros [Hi Hall].
    destruct (running_max_cases ratios init) as [-> | Hin]; auto.
Qed.

Section ResultFacts.
Variable log2 : Z -> Q.
Variable sqrt : Q -> Q.
Variable stdev_nonfinite : list xfloat -> exc pyfloat.

Lemma result_fields prec number factor length is_transcendental r :
  validate_number log2 sqrt stdev_nonfinite prec number factor length
                  is_transcendental = OK r ->
  let zero_runs := find_zero_runs (get_binary_expansion prec number length) in
  run_data r = map (run_entry log2 factor) (analysed zero_runs)
  /\ violations r = map violation_of (filter exceeds (run_data r))
  /\ max_ratio r = running_max (Fin 0) (map RunData.ratio (run_data r))
  /\ valid r = Nat.eqb (List.length (violations r)) 0
  /\ total_runs r = List.length zero_runs
  /\ binary_prefix r = firstn 50 (get_binary_expansion prec number length)
  /\ compute_stats sqrt stdev_nonfinite (run_data r) = OK (result_stats r).
Proof.
  intros Hret.
  destruct (validate_number_inv _ _ _ _ _ _ _ _ _ Hret)
    as (Hst & Hv & Hviol & Hmax & Htot & Hpre & Hrd).
  rewrite analyze_eq in Hst, Hv, Hviol, Hmax, Hrd.
  cbn [a_violations a_run_data a_max_ratio] in *. cbv zeta.
  rewrite Hrd. split; [reflexivity|]. split; [|split; [|split; [|split; [|split]]]]; auto.
  - rewrite Hviol, filter_map_swap, map_map. reflexivity.
  - now rewrite Hmax, ratio_of_run_entry.
  - now rewrite Hv, Hviol.
Qed.
End ResultFacts.

(** X10: in every result that [validate_number] returns, ['valid'] equals
    [max_ratio <= 1], ['violations'] is ['run_data'] restricted to the
    entries with [ratio > 1] (same order, same four values), ['valid'] holds
    exactly when ['violations'] is empty, and there are no more violations
    than run-data entries. *)
Theorem verdict_fields_agree
        (log2 : Z -> Q) (sqrt : Q -> Q)
        (stdev_nonfinite : list xfloat -> exc pyfloat)
        (prec : Z) (number factor : Q) (length : nat)
        (is_transcendental : bool) (r : result) :
  validate_number log2 sqrt stdev_nonfinite prec number factor length
                  is_transcendental = OK r ->
  valid r = xleb (max_ratio r) (Fin 1)
  /\ violations r = map violation_of (filter exceeds (run_data r))
  /\ (valid r = true <-> violations r = [])
  /\ (List.length (violations r) <= List.length (run_data r))%nat.
Proof.
  intros Hret.
  destruct (result_fields _ _ _ _ _ _ _ _ _ Hret)
    as (_ & Hviol & Hmax & Hv & _).
  assert (Hiff : valid r = true <-> violations r = [])
    by (rewrite Hv; apply length_eqb_0).
  split; [|split; [exact Hviol | split; [exact Hiff|]]].
  - apply eq_true_iff_eq. rewrite Hiff, Hviol, Hmax, running_max_le.
    split.
    + intros E. apply map_eq_nil in E. rewrite filter_nil_iff in E.
      split; [reflexivity|]. intros x Hx.
      apply in_map_iff in Hx as (d & <- & Hd). specialize (E d Hd).
      unfold exceeds in E. now apply xltb_false_xleb.
    + intros [_ Hall].
      assert (E : filter exceeds (run_data r) = []).
      { apply filter_nil_iff. intros d Hd. unfold exceeds.
        rewrite xltb_xleb_neg, (Hall (RunData.ratio d)); auto.
        now apply in_map. }
      now rewrite E.
  - rewrite Hviol, length_map. apply filter_length_le.
Qed.

Lemma verdict_fields_agree_witness :
  exists r,
    validate_number log2_floor sqrt_approx stdev_raises 53 (5 # 16) 2 8 false
    = OK r
    /\ valid r = xleb (max_ratio r) (Fin 1).
Proof.
  eexists. split; [vm_compute; reflexivity|].
  refine (proj1 (verdict_fields_agree log2_floor sqrt_approx stdev_raises
                                      53 (5 # 16) 2 8 false _ _)).
  vm_compute. reflexivity.
Defined.

(** ** Runs skipped by the position guard *)

Lemma analysed_all (rs : list (nat * nat)) :
  Forall (fun r => (1 <= fst r)%nat) rs -> analysed rs = rs.
Proof.
  induction 1 as [|r rs Hr _ IH]; [reflexivity|].
  unfold analysed in *. cbn [filter].
  apply Nat.ltb_ge in Hr. rewrite Hr. cbn [negb]. now rewrite IH.
Qed.

Lemma sorted_runs_skipped (rs : list (nat * nat)) :
  StronglySorted run_before rs ->
  List.length rs =
  (List.length (analysed rs)
   + match rs with
     | (O, _) :: _ => 1
     | _ => 0
     end)%nat.
Proof.
  intros Hs. destruct rs as [|[s l] rs']; [reflexivity|].
  inversion Hs as [|? ? _ Hall]; subst.
  assert (Hrest : analysed rs' = rs').
  { apply analysed_all. eapply Forall_impl; [|exact Hall].
    intros r Hr. unfold run_before in Hr. simpl in Hr. lia. }
  change (analysed ((s, l) :: rs'))
    with (if negb (s <? 1)%nat then (s, l) :: analysed rs' else analysed rs').
  rewrite Hrest. destruct s as [|s]; simpl; lia.
Qed.

Lemma find_zero_runs_head (binary : list Z) :
  match find_zero_runs binary with
  | (O, _) :: _ => 1%nat
  | _ => 0%nat
  end = leading_zero binary.
Proof.
  pose proof (find_zero_runs_maximal binary) as Hmax.
  pose proof (find_zero_runs_sorted binary) as Hs.
  destruct binary as [|b t].
  - reflexivity.
  - assert (Hb : b = 0 -> exists l rs, find_zero_runs (b :: t) = (O, l) :: rs).
    { intros ->. destruct (find_zero_runs_cover (0 :: t) O eq_refl)
        as ([s l] & Hin & Hk). simpl in Hk.
      assert (s = O) by lia. subst s.
      destruct (find_zero_runs (0 :: t)) as [|[s' l'] rs] eqn:E; [destruct Hin|].
      destruct Hin as [Heq|Hin].
      - injection Heq as -> ->. eauto.
      - inversion Hs as [|? ? _ Hall]; subst. rewrite Forall_forall in Hall.
        specialize (Hall _ Hin). unfold run_before in Hall. simpl in Hall. lia. }
    destruct (Z.eq_dec b 0) as [->|Hne].
    + destruct (Hb eq_refl) as (l & rs & ->). reflexivity.
    + assert (leading_zero (b :: t) = O) as ->
        by (unfold leading_zero; destruct b; congruence).
      destruct (find_zero_runs (b :: t)) as [|[[|s] l] rs]; auto.
      inversion Hmax as [|? ? (Hl & Hz & _) _]; subst. simpl in *.
      specialize (Hz O ltac:(lia)). simpl in Hz. congruence.
Qed.

Lemma leading_zero_firstn (n : nat) (bits : list Z) :
  leading_zero (firstn (S n) bits) = leading_zero bits.
Proof. destruct bits as [|b t]; reflexivity. Qed.

(** X11: ['total_runs'] exceeds the number of ['run_data'] entries by one
    exactly when the expansion starts with a 0 (the run at position 0 is
    counted but not analysed) and equals it otherwise; every ['run_data']
    entry has position and length at least 1 and ends within the
    expansion. *)
Theorem total_runs_counts_leading_run
        (log2 : Z -> Q) (sqrt : Q -> Q)
        (stdev_nonfinite : list xfloat -> exc pyfloat)
        (prec : Z) (number factor : Q) (length : nat)
        (is_transcendental : bool) (r : result) :
  validate_number log2 sqrt stdev_nonfinite prec number factor length
                  is_transcendental = OK r ->
  total_runs r
  = (List.length (run_data r) + leading_zero (binary_prefix r))%nat
  /\ Forall (fun d => (1 <= RunData.position d)%nat
                      /\ (1 <= RunData.length d)%nat
                      /\ (RunData.position d + RunData.length d <= length)%nat)
            (run_data r).
Proof.
  intros Hret.
  destruct (result_fields _ _ _ _ _ _ _ _ _ Hret)
    as (Hrd & _ & _ & _ & Htot & Hpre & _).
  cbv zeta in Hrd.
  set (binary := get_binary_expansion prec number length) in *.
  assert (Hlen : List.length binary = length)
    by apply get_binary_expansion_length.
  split.
  - rewrite Htot, Hrd, Hpre, length_map.
    change 50%nat with (S 49). rewrite leading_zero_firstn.
    rewrite <- find_zero_runs_head.
    apply sorted_runs_skipped, find_zero_runs_sorted.
  - rewrite Hrd. apply Forall_map, Forall_forall. intros x Hx.
    apply analysed_In in Hx as [Hin Hp]. cbn [run_entry RunData.position RunData.length].
    pose proof (find_zero_runs_maximal binary) as Hmax.
    rewrite Forall_forall in Hmax. destruct (Hmax _ Hin) as (Hl & Hz & _).
    specialize (Hz (fst x + snd x - 1)%nat ltac:(lia)).
    assert (fst x + snd x - 1 < List.length binary)%nat
      by (apply nth_error_Some; congruence).
    lia.
Qed.

Lemma total_runs_counts_leading_run_witness :
  exists r,
    validate_number log2_floor sqrt_approx stdev_raises 53 (5 # 16) 2 8 false
    = OK r
    /\ total_runs r
       = (List.length (run_data r) + leading_zero (binary_prefix r))%nat.
Proof.
  eexists. split; [vm_compute; reflexivity|].
  refine (proj1 (total_runs_counts_leading_run log2_floor sqrt_approx
                   stdev_raises 53 (5 # 16) 2 8 false _ _)).
  vm_compute. reflexivity.
Defined.

(** ** Mean and median against the maximum *)

Lemma b64_grid_nonneg (q : Q) : b64_grid q -> (0 <= q)%Q.
Proof.
  intros (m & e & [Hm _] & _ & ->).
  apply Qmult_le_0_compat; [|apply Qlt_le_weak, P2_pos].
  change 0%Q with (inject_Z 0). now rewrite <- Zle_Qle.
Qed.

Lemma b64_grid_comp (p q : Q) : (p == q)%Q -> b64_grid p -> b64_grid q.
Proof. intros E (m & e & Hm & He & Ep). exists m, e. now rewrite <- E. Qed.

Lemma b64_grid_double (q : Q) : b64_grid q -> b64_grid (2 * q)%Q.
Proof.
  intros (m & e & Hm & He & E). exists m, (e + 1).
  split; auto. split; [lia|].
  rewrite E, P2_plus. change (2 ^ 1)%Q with 2%Q. ring.
Qed.

Lemma b64_nonneg_is_float (q : Q) : (0 <= q)%Q -> is_float (b64_nonneg q).
Proof.
  intros H. destruct (b64_nonneg_cases q) as [-> | ->]; [exact I|].
  now apply b64_nearest_is_grid.
Qed.

(** A result that is not [+inf] is below [2^1024]. *)
Lemma b64_nonneg_Fin (q r : Q) :
  b64_nonneg q = Fin r -> r = b64_nearest q /\ (r < 2 ^ 1024)%Q.
Proof.
  unfold b64_nonneg.
  destruct (Qle_bool (2 ^ 1024) (b64_nearest q)) eqn:E; [discriminate|].
  intros H. injection H as <-. split; auto. now apply Qle_bool_false.
Qed.

(** A rounded value below a float that was itself returned is returned. *)
Lemma b64_nonneg_le (q r : Q) :
  (0 <= q)%Q -> b64_grid r -> (r < 2 ^ 1024)%Q -> (q <= r)%Q ->
  xleb (b64_nonneg q) (Fin r) = true.
Proof.
  intros H0 Hr Hlt Hle.
  assert (Hn : (b64_nearest q <= r)%Q) by now apply b64_nearest_le.
  unfold b64_nonneg.
  replace (Qle_bool (2 ^ 1024) (b64_nearest q)) with false.
  - cbn [xleb]. now apply Qle_bool_iff.
  - symmetry. apply Qle_bool_false. lra.
Qed.

Lemma run_ratio_is_float (log2 : Z -> Q) (factor : Q)
      (position run_length : nat) :
  is_float (run_ratio log2 factor position run_length)
  /\ forall q, run_ratio log2 factor position run_length = Fin q ->
               (q < 2 ^ 1024)%Q.
Proof.
  unfold run_ratio.
  destruct (run_bound log2 factor position) as [[b|]| |];
    try (split; [exact I | discriminate]).
  - destruct (Qltb 0 b) eqn:Hb; [|split; [exact I | discriminate]].
    apply Qltb_lt in Hb. split.
    + apply b64_nonneg_is_float. apply Qle_shift_div_l; auto.
      rewrite Qmult_0_l. apply float_of_nat_nonneg.
    + intros q Hq. now apply b64_nonneg_Fin in Hq as [_ Hq].
  - split.
    + exists 0, 0. split; [lia|]. split; [lia|]. reflexivity.
    + intros q Hq. injection Hq as <-. apply P2_pos.
Qed.

Lemma ratio_value_0 : ratio_value (Fin 0).
Proof.
  split.
  - exists 0, 0. split; [lia|]. split; [lia|]. reflexivity.
  - intros q H. injection H as <-. apply P2_pos.
Qed.

Lemma running_max_ratio_value (ratios : list xfloat) (init : xfloat) :
  ratio_value init -> Forall ratio_value ratios ->
  ratio_value (running_max init ratios).
Proof.
  intros Hi Hall. destruct (running_max_cases ratios init) as [->|Hin]; auto.
  rewrite Forall_forall in Hall. now apply Hall.
Qed.

Lemma xsum_bounded (data : list xfloat) (q acc : Q) :
  Forall ratio_value data ->
  (forall x, In x data -> xleb x (Fin q) = true) ->
  exists s, fold_left xadd data (Fin acc) = Fin s
            /\ (acc <= s
                <= acc + inject_Z (Z.of_nat (List.length data)) * q)%Q.
Proof.
  intros Hval. revert acc.
  induction Hval as [|x t Hx _ IH]; intros acc Hall.
  - exists acc. split; [reflexivity|]. cbn [List.length Z.of_nat].
    change (inject_Z 0) with 0%Q. lra.
  - destruct x as [qx|];
      [|specialize (Hall PInf (or_introl eq_refl)); discriminate].
    assert (Hle : (qx <= q)%Q)
      by (apply Qle_bool_iff; apply (Hall (Fin qx)); now left).
    assert (H0 : (0 <= qx)%Q) by (apply b64_grid_nonneg, Hx).
    destruct (IH (acc + qx)%Q) as (s & Hs & Hb);
      [intros y Hy; apply Hall; now right|].
    exists s. split; [exact Hs|].
    change (List.length (Fin qx :: t)) with (S (List.length t)).
    rewrite Nat2Z.inj_succ. unfold Z.succ. rewrite inject_Z_plus.
    change (inject_Z 1) with 1%Q. lra.
Qed.

Lemma mean_le_bound (data : list xfloat) (b m : xfloat) :
  Forall ratio_value data -> ratio_value b ->
  (forall x, In x data -> xleb x b = true) ->
  mean data = OK m -> xleb m b = true.
Proof.
  intros Hval [Hb Hlt] Hall Hm. destruct b as [q|]; [|now destruct m].
  destruct data as [|x t]; [discriminate|].
  rewrite mean_OK in Hm by congruence. injection Hm as <-.
  destruct (xsum_bounded (x :: t) q 0 Hval Hall) as (s & Hs & Hle).
  unfold xsum. rewrite Hs. cbn [xdiv_nat xround].
  change (List.length (x :: t)) with (S (List.length t)) in *.
  set (n := inject_Z (Z.of_nat (S (List.length t)))) in *.
  assert (Hn : (0 < n)%Q).
  { unfold n. change 0%Q with (inject_Z 0). rewrite <- Zlt_Qlt. lia. }
  clearbody n. apply b64_nonneg_le; auto.
  - apply Qle_shift_div_l; auto. lra.
  - apply Qle_shift_div_r; auto. lra.
Qed.

Lemma nth_sorted_le (data : list xfloat) (b : xfloat) (i : nat) :
  (forall x, In x data -> xleb x b = true) ->
  (i < List.length data)%nat ->
  xleb (nth i (sorted data) PInf) b = true.
Proof.
  intros Hall Hi. apply Hall.
  apply (Permutation_in _ (sorted_perm data)).
  apply nth_In. now rewrite sorted_length.
Qed.

Lemma nth_sorted_value (data : list xfloat) (i : nat) :
  Forall ratio_value data -> (i < List.length data)%nat ->
  ratio_value (nth i (sorted data) PInf).
Proof.
  intros Hval Hi. rewrite Forall_forall in Hval. apply Hval.
  apply (Permutation_in _ (sorted_perm data)).
  apply nth_In. now rewrite sorted_length.
Qed.

(** The float average of two ratios is an infinity or at most their
    bound. *)
Lemma xavg_le_bound (x1 x2 b : xfloat) :
  ratio_value x1 -> ratio_value x2 -> ratio_value b ->
  xleb x1 b = true -> xleb x2 b = true ->
  xdiv_b64 (xadd_b64 x1 x2) 2 = PInf
  \/ xleb (xdiv_b64 (xadd_b64 x1 x2) 2) b = true.
Proof.
  intros [V1 _] [V2 _] [Vb Hlt] H1 H2.
  destruct b as [q|]; [|right; destruct (xdiv_b64 _ _); reflexivity].
  destruct x1 as [q1|]; [|discriminate].
  destruct x2 as [q2|]; [|discriminate].
  cbn [xleb is_float] in *. rewrite Qle_bool_iff in *.
  specialize (Hlt q eq_refl).
  pose proof (b64_grid_nonneg _ V1). pose proof (b64_grid_nonneg _ V2).
  cbn [xadd_b64].
  destruct (b64_nonneg_cases (q1 + q2)) as [-> | ->]; [now left | right].
  cbn [xdiv_b64]. change (inject_Z (Z.of_nat 2)) with 2%Q.
  assert (Hs : (0 <= b64_nearest (q1 + q2) <= 2 * q)%Q).
  { split; [apply b64_nearest_nonneg; lra|].
    apply b64_nearest_le; [now apply b64_grid_double | lra | lra]. }
  apply b64_nonneg_le; auto.
  - apply Qle_shift_div_l; [reflexivity|]. lra.
  - apply Qle_shift_div_r; [reflexivity|]. lra.
Qed.

Lemma median_le_bound (data : list xfloat) (b md : xfloat) :
  Forall ratio_value data -> ratio_value b ->
  (forall x, In x data -> xleb x b = true) ->
  median data = OK md -> md = PInf \/ xleb md b = true.
Proof.
  intros Hval Hb Hall Hm. unfold median in Hm. rewrite sorted_length in Hm.
  destruct (List.length data =? 0)%nat eqn:E0; [discriminate|].
  apply Nat.eqb_neq in E0.
  assert (Hhalf : (List.length data / 2 < List.length data)%nat)
    by (apply Nat.div_lt; lia).
  destruct (Nat.odd (List.length data)); injection Hm as <-.
  - right. now apply nth_sorted_le.
  - assert (Hprev : (List.length data / 2 - 1 < List.length data)%nat)
      by (clear - Hhalf; lia).
    apply xavg_le_bound.
    + now apply nth_sorted_value.
    + now apply nth_sorted_value.
    + exact Hb.
    + now apply nth_sorted_le.
    + now apply nth_sorted_le.
Qed.

Lemma stats_none_iff (sqrt : Q -> Q)
      (stdev_nonfinite : list xfloat -> exc pyfloat)
      (run_data : list RunData.t) (st : option stats) :
  compute_stats sqrt stdev_nonfinite run_data = OK st ->
  st = None <-> run_data = [].
Proof.
  intros Hst. split; intros H.
  - rewrite H in Hst. destruct run_data as [|d t]; [reflexivity|].
    unfold compute_stats in Hst.
    destruct (mean _); [|discriminate]. cbn [bind] in Hst.
    destruct (median _); [|discriminate]. cbn [bind] in Hst.
    destruct (stdev _ _ _); discriminate.
  - rewrite H in Hst. cbn in Hst. congruence.
Qed.

Lemma compute_stats_some_counts (sqrt : Q -> Q)
      (stdev_nonfinite : list xfloat -> exc pyfloat)
      (run_data : list RunData.t) (st : stats) :
  compute_stats sqrt stdev_nonfinite run_data = OK (Some st) ->
  (2 <= List.length run_data)%nat
  /\ (low (ratio_distribution st) + medium (ratio_distribution st)
      + high (ratio_distribution st))%nat = List.length run_data.
Proof.
  intros Hst.
  destruct (compute_stats_inv _ _ _ _ Hst) as (_ & _ & Hsd & Hdist). split.
  - unfold stdev in Hsd. rewrite length_map in Hsd.
    destruct run_data as [|d1 [|d2 t]]; simpl in *; try discriminate; lia.
  - rewrite Hdist, distribution_total. apply length_map.
Qed.

(** X12: in a returned result ['stats'] is empty exactly when ['run_data']
    is; then the result is valid with [max_ratio = 0].  Statistics, when
    present, come from at least two ratios, their three bucket counts sum to
    the number of ['run_data'] entries, the mean is at most [max_ratio], and
    the median is at most [max_ratio] unless the float sum of the two middle
    ratios overflows, when it is [+inf]. *)
Theorem stats_present_and_bounded
        (log2 : Z -> Q) (sqrt : Q -> Q)
        (stdev_nonfinite : list xfloat -> exc pyfloat)
        (prec : Z) (number factor : Q) (length : nat)
        (is_transcendental : bool) (r : result) :
  validate_number log2 sqrt stdev_nonfinite prec number factor length
                  is_transcendental = OK r ->
  (result_stats r = None <-> run_data r = [])
  /\ (result_stats r = None -> valid r = true /\ max_ratio r = Fin 0)
  /\ forall st, result_stats r = Some st ->
       (2 <= List.length (run_data r))%nat
       /\ (low (ratio_distribution st) + medium (ratio_distribution st)
           + high (ratio_distribution st))%nat = List.length (run_data r)
       /\ xleb (mean_ratio st) (max_ratio r) = true
       /\ (median_ratio st = PInf
           \/ xleb (median_ratio st) (max_ratio r) = true).
Proof.
  intros Hret.
  destruct (result_fields _ _ _ _ _ _ _ _ _ Hret)
    as (Hrd & Hviol & Hmax & Hv & _ & _ & Hst).
  cbv zeta in Hrd.
  assert (Hnone : result_stats r = None <-> run_data r = [])
    by (eapply stats_none_iff; eauto).
  split; [exact Hnone|split].
  - intros H. apply Hnone in H. rewrite Hv, Hviol, Hmax, H. split; reflexivity.
  - intros st Hsome. rewrite Hsome in Hst.
    destruct (compute_stats_inv _ _ _ _ Hst) as (Hm & Hmd & Hsd & Hdist).
    assert (Hub : forall x, In x (map RunData.ratio (run_data r)) ->
                            xleb x (max_ratio r) = true)
      by (intros x Hx; rewrite Hmax; now apply running_max_ub).
    assert (Hval : Forall ratio_value (map RunData.ratio (run_data r))).
    { rewrite Hrd, map_map. apply Forall_map, Forall_forall. intros run _.
      apply run_ratio_is_float. }
    assert (Hvmax : ratio_value (max_ratio r)).
    { rewrite Hmax. apply running_max_ratio_value; auto. apply ratio_value_0. }
    destruct (compute_stats_some_counts _ _ _ _ Hst) as (Hlen & Hsum).
    split; [exact Hlen|split; [exact Hsum|split]].
    + eapply mean_le_bound; eauto.
    + eapply median_le_bound; eauto.
Qed.

Lemma stats_present_and_bounded_witness :
  exists r,
    validate_number log2_floor sqrt_approx stdev_raises 53 (5 # 16) 2 8 false
    = OK r
    /\ (result_stats r = None <-> run_data r = []).
Proof.
  eexists. split; [vm_compute; reflexivity|].
  refine (proj1 (stats_present_and_bounded log2_floor sqrt_approx
                   stdev_raises 53 (5 # 16) 2 8 false _ _)).
  vm_compute. reflexivity.
Defined.

(** ** Returning and raising *)

Lemma finite_values_None (data : list xfloat) :
  Exists (fun x => xfinite x = false) data -> finite_values data = None.
Proof.
  induction 1 as [x l Hx | x l _ IH].
  - destruct x; [discriminate | reflexivity].
  - destruct x; [|reflexivity]. cbn [finite_values]. now rewrite IH.
Qed.

Section Outcome.
Variable log2 : Z -> Q.
Variable sqrt : Q -> Q.
Variable stdev_nonfinite : list xfloat -> exc pyfloat.

(** With two or more ratios, one of them infinite, the statistics are what
    [stdev] makes of non-finite data. *)
Lemma compute_stats_nonfinite (run_data : list RunData.t) :
  (2 <= List.length run_data)%nat ->
  Exists (fun x => xfinite x = false) (map RunData.ratio run_data) ->
  exists m md,
    compute_stats sqrt stdev_nonfinite run_data
    = (sd <- stdev_nonfinite (map RunData.ratio run_data) ;;
       OK (Some (mk_stats m md sd
                          (distribution_of (map RunData.ratio run_data))))).
Proof.
  intros Hlen Hinf.
  assert (Hne : map RunData.ratio run_data <> [])
    by (destruct run_data; simpl in *; [lia | congruence]).
  destruct (median_OK _ Hne) as (md & Hmd).
  exists (xround (xdiv_nat (xsum (map RunData.ratio run_data))
                           (List.length (map RunData.ratio run_data)))), md.
  unfold compute_stats. destruct run_data as [|d t]; [simpl in Hlen; lia|].
  rewrite (mean_OK _ Hne), Hmd. cbn [bind]. unfold stdev.
  rewrite length_map. apply Nat.ltb_ge in Hlen. rewrite Hlen.
  now rewrite (finite_values_None _ Hinf).
Qed.
End Outcome.

(** X13: the outcome of [validate_number] is decided by the number [n] of
    runs at position 1 or later and by their ratios: [n = 1] raises
    [StatisticsError]; any other [n] with finite ratios returns a result
    with [n] ['run_data'] entries, with empty ['stats'] exactly when
    [n = 0]; with two or more ratios, one of them infinite, the call
    raises what [stdev] raises on non-finite data, and returns if [stdev]
    returns. *)
Theorem validate_number_outcome
        (log2 : Z -> Q) (sqrt : Q -> Q)
        (stdev_nonfinite : list xfloat -> exc pyfloat)
        (prec : Z) (number factor : Q) (length : nat)
        (is_transcendental : bool) :
  let rs := analysed (find_zero_runs
                        (get_binary_expansion prec number length)) in
  let ratios := map (ratio_of log2 factor) rs in
  (List.length rs = 1%nat ->
   validate_number log2 sqrt stdev_nonfinite prec number factor length
                   is_transcendental = Raise StatisticsError)
  /\ (List.length rs <> 1%nat ->
      Forall (fun x => xfinite x = true) ratios ->
      exists r,
        validate_number log2 sqrt stdev_nonfinite prec number factor length
                        is_transcendental = OK r
        /\ List.length (run_data r) = List.length rs
        /\ (result_stats r = None <-> List.length rs = O))
  /\ ((2 <= List.length rs)%nat ->
      Exists (fun x => xfinite x = false) ratios ->
      (forall e, stdev_nonfinite ratios = Raise e ->
         validate_number log2 sqrt stdev_nonfinite prec number factor length
                         is_transcendental = Raise e)
      /\ (forall sd, stdev_nonfinite ratios = OK sd ->
            exists r,
              validate_number log2 sqrt stdev_nonfinite prec number factor
                              length is_transcendental = OK r
              /\ exists st, result_stats r = Some st /\ std_ratio st = sd)).
Proof.
  intros rs ratios. split; [|split].
  - apply validate_number_one_analysed.
  - intros Hn Hfin.
    destruct (validate_number_returns log2 sqrt stdev_nonfinite prec number
                factor length is_transcendental Hfin Hn) as (r & Hr).
    exists r. split; [exact Hr|].
    destruct (result_fields _ _ _ _ _ _ _ _ _ Hr)
      as (Hrd & _ & _ & _ & _ & _ & Hst).
    cbv zeta in Hrd.
    assert (Hlen : List.length (run_data r) = List.length rs)
      by (rewrite Hrd; apply length_map).
    split; [exact Hlen|].
    rewrite (stats_none_iff _ _ _ _ Hst), <- Hlen.
    split; [now intros ->|apply length_zero_iff_nil].
  - intros Hn Hinf. unfold validate_number. rewrite analyze_eq.
    cbn [a_run_data a_violations a_max_ratio]. fold rs.
    destruct (compute_stats_nonfinite sqrt stdev_nonfinite
                (map (run_entry log2 factor) rs)) as (m & md & ->).
    + now rewrite length_map.
    + now rewrite ratio_of_run_entry.
    + rewrite ratio_of_run_entry. fold ratios. split.
      * intros e ->. reflexivity.
      * intros sd ->. cbn [bind]. eexists. split; [reflexivity|].
        cbn [result_stats]. eexists. split; reflexivity.
Qed.

(** ** A larger factor *)

Lemma filter_length_mono {A : Type} (f g : A -> bool) (l : list A) :
  (forall x, In x l -> f x = true -> g x = true) ->
  (List.length (filter f l) <= List.length (filter g l))%nat.
Proof.
  induction l as [|x l IH]; intros H; [reflexivity|]. cbn [filter].
  assert (IH' := IH (fun y Hy => H y (or_intror Hy))).
  destruct (f x) eqn:Ef.
  - rewrite (H x (or_introl eq_refl) Ef). simpl. lia.
  - destruct (g x); simpl; lia.
Qed.

Lemma b64_nonneg_lt (q : Q) :
  (b64_nearest q < 2 ^ 1024)%Q -> b64_nonneg q = Fin (b64_nearest q).
Proof.
  intros H. unfold b64_nonneg.
  now rewrite (proj2 (Qle_bool_false _ _) H).
Qed.

(** Float operations are monotone. *)
Lemma b64_nonneg_mono (p q : Q) :
  (0 <= p)%Q -> (p <= q)%Q ->
  xleb (b64_nonneg p) (b64_nonneg q) = true.
Proof.
  intros H0 Hpq. pose proof (b64_nearest_mono p q H0 Hpq) as Hm.
  destruct (b64_nonneg q) as [r|] eqn:E;
    [|destruct (b64_nonneg p); reflexivity].
  apply b64_nonneg_Fin in E as [-> Hlt].
  rewrite b64_nonneg_lt by lra. cbn [xleb]. now apply Qle_bool_iff.
Qed.

Lemma ratio_of_antitone (log2 : Z -> Q) (f1 f2 : Q) (r : nat * nat) :
  log2_sound log2 -> (0 < f1)%Q -> (f1 <= f2)%Q -> (1 <= fst r)%nat ->
  xleb (ratio_of log2 f2 r) (ratio_of log2 f1 r) = true.
Proof.
  intros Hlog H1 H12 Hp.
  pose proof (run_ratio_nonneg log2 f1 (fst r) (snd r)) as Hnn.
  unfold ratio_of, run_ratio, run_bound in *.
  assert (HL : (1 <= log2 (Z.of_nat (fst r) + 1)%Z)%Q)
    by (apply log2_sound_ge_1; auto; lia).
  set (L := log2 (Z.of_nat (fst r) + 1)%Z) in *.
  assert (Hx1 : (0 <= f1 * L)%Q) by nra.
  assert (Hx12 : (f1 * L <= f2 * L)%Q) by nra.
  rewrite (b64_of_nonneg (f1 * L) Hx1) in Hnn |- *.
  rewrite (b64_of_nonneg (f2 * L)) by lra.
  pose proof (b64_nearest_mono _ _ Hx1 Hx12) as Hm.
  destruct (b64_nonneg (f2 * L)) as [r2|] eqn:E2; [|exact Hnn].
  apply b64_nonneg_Fin in E2 as [-> Hlt2].
  assert (E1 : b64_nonneg (f1 * L) = Fin (b64_nearest (f1 * L)))
    by (apply b64_nonneg_lt; lra).
  rewrite E1 in Hnn |- *. clear E1.
  set (r1 := b64_nearest (f1 * L)) in *.
  set (r2 := b64_nearest (f2 * L)) in *.
  destruct (Qltb 0 r1) eqn:Hr1;
    [|destruct (if Qltb 0 r2 then _ else _); reflexivity].
  apply Qltb_lt in Hr1.
  rewrite (proj2 (Qltb_lt 0 r2)) by lra.
  pose proof (float_of_nat_nonneg (snd r)) as Hl.
  apply b64_nonneg_mono.
  - apply Qle_shift_div_l; [lra|]. lra.
  - apply Qdiv_le_cross; [lra | lra |].
    set (l := float_of_nat (snd r)) in *. clearbody l r1 r2. nra.
Qed.

(** X14: when [validate_number] returns at a positive factor and at a
    larger one, the same runs are analysed, [max_ratio] at the larger
    factor is no larger, there are no more violations, and ['valid'] is
    kept once it holds: float multiplication and division are monotone. *)
Theorem larger_factor_is_weaker
        (log2 : Z -> Q) (sqrt : Q -> Q)
        (stdev_nonfinite : list xfloat -> exc pyfloat)
        (prec : Z) (number f1 f2 : Q) (length : nat)
        (is_transcendental : bool) (r1 r2 : result) :
  log2_sound log2 -> (0 < f1)%Q -> (f1 <= f2)%Q ->
  validate_number log2 sqrt stdev_nonfinite prec number f1 length
                  is_transcendental = OK r1 ->
  validate_number log2 sqrt stdev_nonfinite prec number f2 length
                  is_transcendental = OK r2 ->
  xleb (max_ratio r2) (max_ratio r1) = true
  /\ (valid r1 = true -> valid r2 = true)
  /\ (List.length (violations r2) <= List.length (violations r1))%nat
  /\ total_runs r2 = total_runs r1
  /\ binary_prefix r2 = binary_prefix r1
  /\ map RunData.position (run_data r2) = map RunData.position (run_data r1)
  /\ map RunData.length (run_data r2) = map RunData.length (run_data r1).
Proof.
  intros Hlog H1 H12 Hr1 Hr2.
  set (rs := analysed (find_zero_runs
                         (get_binary_expansion prec number length))).
  destruct (validate_number_inv _ _ _ _ _ _ _ _ _ Hr1)
    as (_ & Hv1 & Hviol1 & Hmax1 & Htot1 & Hpre1 & Hrd1).
  destruct (validate_number_inv _ _ _ _ _ _ _ _ _ Hr2)
    as (_ & Hv2 & Hviol2 & Hmax2 & Htot2 & Hpre2 & Hrd2).
  rewrite analyze_eq in *. cbn [a_violations a_run_data a_max_ratio] in *.
  fold rs in Hv1, Hviol1, Hmax1, Hrd1, Hv2, Hviol2, Hmax2, Hrd2.
  assert (Hanti : forall r, In r rs ->
            xleb (ratio_of log2 f2 r) (ratio_of log2 f1 r) = true).
  { intros r Hr. apply analysed_In in Hr as [_ Hp].
    now apply ratio_of_antitone. }
  assert (Hcount : (List.length (violations r2)
                    <= List.length (violations r1))%nat).
  { rewrite Hviol1, Hviol2, !length_map. apply filter_length_mono.
    intros r Hr. unfold violates. intros Hlt.
    destruct (xltb (Fin 1) (ratio_of log2 f1 r)) eqn:E; [reflexivity|].
    apply xltb_false_xleb in E. apply xltb_not_xleb in Hlt.
    rewrite (xleb_trans _ _ _ (Hanti r Hr) E) in Hlt. discriminate. }
  split; [|split; [|split; [exact Hcount|split; [congruence|split;
    [congruence|split]]]]].
  - rewrite Hmax1, Hmax2. apply running_max_le. split.
    + apply running_max_ge_init.
    + intros x Hx. apply in_map_iff in Hx as (r & <- & Hr).
      eapply xleb_trans; [apply (Hanti r Hr)|].
      apply running_max_ub. now apply in_map.
  - rewrite Hv1, Hv2 in *. rewrite Hviol1, Hviol2 in Hcount.
    rewrite !Nat.eqb_eq. lia.
  - rewrite Hrd1, Hrd2, !map_map. reflexivity.
  - rewrite Hrd1, Hrd2, !map_map. reflexivity.
Qed.

Lemma larger_factor_is_weaker_witness :
  log2_sound log2_floor /\ (0 < 2)%Q /\ (2 <= 3)%Q
  /\ exists r1 r2,
      validate_number log2_floor sqrt_approx stdev_raises 53 (5 # 16) 2 8 false
      = OK r1
      /\ validate_number log2_floor sqrt_approx stdev_raises 53 (5 # 16) 3 8
                         false = OK r2
      /\ xleb (max_ratio r2) (max_ratio r1) = true.
Proof.
  assert (H23 : (2 <= 3)%Q) by discriminate.
  split; [exact log2_floor_sound|]. split; [reflexivity|].
  split; [exact H23|]. eexists. eexists.
  split; [vm_compute; reflexivity|]. split; [vm_compute; reflexivity|].
  refine (proj1 (larger_factor_is_weaker log2_floor sqrt_approx stdev_raises
                   53 (5 # 16) 2 3 8 false _ _ log2_floor_sound eq_refl H23
                   _ _)); vm_compute; reflexivity.
Defined.

(** ** The printed prefix *)

Lemma concat_empty_cons (s : string) (l : list string) :
  String.concat "" (s :: l) = (s ++ String.concat "" l)%string.
Proof.
  destruct l as [|y l]; cbn [String.concat].
  - induction s as [|c s IH]; simpl; congruence.
  - reflexivity.
Qed.

Lemma join_bits (bits : list Z) :
  Forall is_bit bits ->
  let s := String.concat "" (map str_int bits) in
  String.length s = List.length bits
  /\ binary_digits s = true
  /\ bits_of_string s = bits.
Proof.
  induction 1 as [|b t Hb _ IH]; [repeat split|].
  cbn [map]. cbv zeta. rewrite concat_empty_cons.
  destruct IH as (IH1 & IH2 & IH3).
  destruct Hb as [-> | ->].
  - change (str_int 0) with "0"%string. cbn. rewrite IH1, IH2, IH3. auto.
  - change (str_int 1) with "1"%string. cbn. rewrite IH1, IH2, IH3. auto.
Qed.

(** X15: for a non-negative number the ['binary_prefix'] string that
    [create_report] writes has [min(50, length)] characters, each a 0 or a
    1, and spells the first 50 digits of the expansion. *)
Theorem report_binary_prefix
        (log2 : Z -> Q) (sqrt : Q -> Q)
        (stdev_nonfinite : list xfloat -> exc pyfloat)
        (prec : Z) (number factor : Q) (length : nat)
        (is_transcendental : bool) (case : Case.t) (r : result) :
  0 < prec -> (0 <= number)%Q ->
  validate_number log2 sqrt stdev_nonfinite prec number factor length
                  is_transcendental = OK r ->
  exists s,
    getitem (report_entry case r) "binary_prefix" = Some (PyStr s)
    /\ String.length s = Nat.min 50 length
    /\ binary_digits s = true
    /\ bits_of_string s
       = firstn 50 (get_binary_expansion prec number length).
Proof.
  intros Hprec Hnum Hret.
  destruct (validate_number_inv _ _ _ _ _ _ _ _ _ Hret)
    as (_ & _ & _ & _ & _ & Hpre & _).
  exists (String.concat "" (map str_int (binary_prefix r))).
  split; [reflexivity|].
  assert (Hbits : Forall is_bit (binary_prefix r)).
  { rewrite Hpre.
    pose proof (get_binary_expansion_nonneg prec number length Hprec Hnum) as H.
    rewrite <- (firstn_skipn 50) in H. now apply Forall_app in H as [H _]. }
  destruct (join_bits _ Hbits) as (H1 & H2 & H3).
  split; [|split; [exact H2|now rewrite H3]].
  rewrite H1, Hpre, length_firstn, get_binary_expansion_length. reflexivity.
Qed.

Lemma report_binary_prefix_witness :
  0 < 53 /\ (0 <= 5 # 16)%Q
  /\ exists r,
      validate_number log2_floor sqrt_approx stdev_raises 53 (5 # 16) 2 8 false
      = OK r
      /\ exists s,
          getitem (report_entry sample_case r) "binary_prefix"
          = Some (PyStr s)
          /\ String.length s = Nat.min 50 8
          /\ binary_digits s = true
          /\ bits_of_string s = firstn 50 (get_binary_expansion 53 (5 # 16) 8).
Proof.
  assert (H0 : (0 <= 5 # 16)%Q) by discriminate.
  split; [reflexivity|]. split; [exact H0|].
  eexists. split; [vm_compute; reflexivity|].
  refine (report_binary_prefix log2_floor sqrt_approx stdev_raises
            53 (5 # 16) 2 8 false sample_case _ eq_refl H0 _).
  vm_compute. reflexivity.
Defined.

(** ** [convert_to_serializable] *)

Lemma pyobj_nested_ind (P : pyobj -> Prop) :
  (forall z, P (PyInt z)) ->
  (forall x, P (PyFloat x)) ->
  (forall q, P (PyMpf q)) ->
  (forall b, P (PyBool b)) ->
  (forall s, P (PyStr s)) ->
  (forall l, Forall P l -> P (PyList l)) ->
  (forall l, Forall P l -> P (PyTuple l)) ->
  (forall d, Forall (fun kv => P (snd kv)) d -> P (PyDict d)) ->
  (forall repr, P (PyOther repr)) ->
  forall obj, P obj.
Proof.
  intros Hint Hfloat Hmpf Hbool Hstr Hlist Htuple Hdict Hother.
  fix IH 1. intros [z|x|q|b|s|l|l|d|o].
  - apply Hint.
  - apply Hfloat.
  - apply Hmpf.
  - apply Hbool.
  - apply Hstr.
  - apply Hlist. induction l as [|o l IHl]; constructor; [apply IH|exact IHl].
  - apply Htuple. induction l as [|o l IHl]; constructor; [apply IH|exact IHl].
  - apply Hdict. induction d as [|[k v] d IHd]; constructor;
      [apply IH|exact IHd].
  - apply Hother.
Qed.

Lemma convert_items_native (l : list pyobj) :
  Forall (fun o => fully_converted (convert_to_serializable o) = true) l ->
  forallb fully_converted (map convert_to_serializable l) = true.
Proof.
  induction 1 as [|o l Ho _ IH]; [reflexivity|].
  cbn [map forallb]. now rewrite Ho, IH.
Qed.

Lemma convert_native (obj : pyobj) :
  fully_converted (convert_to_serializable obj) = true.
Proof.
  induction obj as [z|x|q|b|s|l IH|l IH|d IH|o] using pyobj_nested_ind;
    try reflexivity.
  - cbn [convert_to_serializable fully_converted]. now apply convert_items_native.
  - cbn [convert_to_serializable fully_converted]. now apply convert_items_native.
  - cbn [convert_to_serializable fully_converted].
    induction IH as [|[k v] d Hv _ IHd]; [reflexivity|].
    cbn [map forallb snd] in *. now rewrite Hv, IHd.
Qed.

Lemma convert_fixes_native (obj : pyobj) :
  fully_converted obj = true -> convert_to_serializable obj = obj.
Proof.
  induction obj as [z|x|q|b|s|l IH|l IH|d IH|o] using pyobj_nested_ind;
    try reflexivity; try discriminate.
  - cbn [convert_to_serializable fully_converted]. intros H. f_equal.
    induction IH as [|o l Ho _ IHl]; [reflexivity|].
    cbn [map forallb] in *. apply andb_true_iff in H as [H1 H2].
    now rewrite Ho, IHl.
  - cbn [convert_to_serializable fully_converted]. intros H. f_equal.
    induction IH as [|[k v] d Hv _ IHd]; [reflexivity|].
    cbn [map forallb snd] in *. apply andb_true_iff in H as [H1 H2].
    now rewrite Hv, IHd.
Qed.

Lemma lookup_convert (key : string) (d : list (string * pyobj)) :
  lookup key (map (fun kv => match kv with
                             | (k, v) => (k, convert_to_serializable v)
                             end) d)
  = option_map convert_to_serializable (lookup key d).
Proof.
  induction d as [|[k v] d IH]; [reflexivity|].
  cbn [map lookup]. destruct (String.eqb k key); auto.
Qed.

(** X16: in the value returned by [convert_to_serializable] no list item
    and no dict value, at any depth reached through lists, tuples and dict
    values, is a tuple or a number of the converted kinds ([np.integer],
    [np.floating], [mp.mpf], [Decimal]); dict keys and every other object
    are returned as they are and not looked into.  Converting twice is
    converting once, and a value is returned unchanged exactly when it is
    already of this form. *)
Theorem convert_to_serializable_normalises (obj : pyobj) :
  fully_converted (convert_to_serializable obj) = true
  /\ convert_to_serializable (convert_to_serializable obj)
     = convert_to_serializable obj
  /\ (convert_to_serializable obj = obj <-> fully_converted obj = true).
Proof.
  split; [apply convert_native|split].
  - apply convert_fixes_native, convert_native.
  - split.
    + intros E. rewrite <- E. apply convert_native.
    + apply convert_fixes_native.
Qed.

(** X17: [convert_to_serializable] keeps the shape of a value: a
    subscript by key, or by index in a list or tuple, commutes with the
    conversion; sizes, keys and their order are kept. *)
Theorem convert_to_serializable_keeps_shape (obj : pyobj) (key : string) :
  getitem (convert_to_serializable obj) key
  = option_map convert_to_serializable (getitem obj key)
  /\ container_size (convert_to_serializable obj) = container_size obj
  /\ (forall d, obj = PyDict d ->
        exists d', convert_to_serializable obj = PyDict d'
                   /\ map fst d' = map fst d)
  /\ (forall l i, obj = PyList l \/ obj = PyTuple l ->
        exists l', convert_to_serializable obj = PyList l'
                   /\ nth_error l' i
                      = option_map convert_to_serializable (nth_error l i)).
Proof.
  split; [|split; [|split]].
  - destruct obj; try reflexivity. apply lookup_convert.
  - destruct obj; cbn [convert_to_serializable container_size];
      try reflexivity; now rewrite length_map.
  - intros d ->. eexists. split; [reflexivity|].
    rewrite map_map. apply map_ext. now intros [k v].
  - intros l i [-> | ->]; eexists; (split; [reflexivity|]);
      apply nth_error_map.
Qed.

(** *** Facts on [replace] *)

Lemma prefix_nil (s : string) : String.prefix EmptyString s = true.
Proof. destruct s; reflexivity. Qed.

Lemma occurs_tail (p : string) (c : ascii) (t : string) :
  occurs p t = true -> occurs p (String c t) = true.
Proof. intros H. cbn [occurs]. rewrite H. apply orb_true_r. Qed.

Lemma occurs_cons (p : string) (c : ascii) (t : string) :
  occurs p (String c t) = String.prefix p (String c t) || occurs p t.
Proof. reflexivity. Qed.

Lemma occurs_drop (p : string) (n : nat) (s : string) :
  occurs p (drop n s) = true -> occurs p s = true.
Proof.
  revert s. induction n as [|n IH]; intros s H; [exact H|].
  destruct s as [|c t]; [exact H|]. apply occurs_tail, IH, H.
Qed.

Section Replace.
Variables old new : string.
Hypothesis new_low : all_bytes (fun c => negb (high_byte c)) new = true.
Hypothesis new_nonempty : new <> EmptyString.

(** A sequence of high bytes does not start inside the replacement. *)
Lemma prefix_new (p rest : string) :
  p <> EmptyString -> all_bytes high_byte p = true ->
  String.prefix p (new ++ rest) = false.
Proof.
  intros Hp Hhi. destruct new as [|a n]; [congruence|].
  destruct p as [|c p']; [congruence|].
  cbn [all_bytes] in *. apply andb_true_iff in Hhi as [Hc _].
  apply andb_true_iff in new_low as [Ha _].
  cbn [append String.prefix]. destruct (ascii_dec c a) as [->|]; auto.
  rewrite Hc in Ha. discriminate.
Qed.

Lemma occurs_new (p rest : string) :
  p <> EmptyString -> all_bytes high_byte p = true ->
  occurs p (new ++ rest) = occurs p rest.
Proof.
  intros Hp Hhi. clear new_nonempty.
  induction new as [|a n IH]; [reflexivity|].
  cbn [all_bytes] in new_low. apply andb_true_iff in new_low as [Ha Hn].
  cbn [append]. rewrite occurs_cons, (IH Hn).
  destruct p as [|c p']; [congruence|].
  cbn [all_bytes] in Hhi. apply andb_true_iff in Hhi as [Hc _].
  cbn [String.prefix]. destruct (ascii_dec c a) as [->|]; auto.
  rewrite Hc in Ha. discriminate.
Qed.

(** A sequence of high bytes at the head of the output was at the head of
    the input. *)
Lemma prefix_replace_from (p text : string) :
  all_bytes high_byte p = true ->
  String.prefix p (replace_from old new O text) = true ->
  String.prefix p text = true.
Proof.
  revert p. induction text as [|c t IH]; intros p Hhi H; [exact H|].
  destruct p as [|a p']; [reflexivity|].
  cbn [replace_from] in H.
  destruct (String.prefix old (String c t)).
  - rewrite prefix_new in H by (auto; congruence). discriminate.
  - cbn [String.prefix] in *. destruct (ascii_dec a c); [|discriminate].
    cbn [all_bytes] in Hhi. apply andb_true_iff in Hhi as [_ Hhi].
    now apply IH.
Qed.

Lemma prefix_cons_replace_from (p : string) (c : ascii) (t : string) :
  all_bytes high_byte p = true ->
  String.prefix p (String c (replace_from old new O t)) = true ->
  String.prefix p (String c t) = true.
Proof.
  intros Hhi H. destruct p as [|a p']; [reflexivity|].
  cbn [String.prefix] in *. destruct (ascii_dec a c); [|discriminate].
  cbn [all_bytes] in Hhi. apply andb_true_iff in Hhi as [_ Hhi].
  now apply prefix_replace_from.
Qed.

(** No occurrence of a sequence of high bytes is created. *)
Lemma occurs_replace_from (p : string) (skip : nat) (text : string) :
  p <> EmptyString -> all_bytes high_byte p = true ->
  occurs p (replace_from old new skip text) = true ->
  occurs p (drop skip text) = true.
Proof.
  intros Hp Hhi. revert skip.
  induction text as [|c t IH]; intros skip H.
  - destruct skip; exact H.
  - destruct skip as [|k]; cbn [replace_from drop] in *; [|now apply IH].
    destruct (String.prefix old (String c t)) eqn:E.
    + rewrite occurs_new in H by auto.
      apply occurs_tail. eapply occurs_drop. apply IH. exact H.
    + rewrite occurs_cons in H. apply orb_true_iff in H as [H|H].
      * rewrite occurs_cons.
        now rewrite (prefix_cons_replace_from p c t Hhi H).
      * apply occurs_tail. now apply (IH O).
Qed.

(** Every occurrence of [old] is removed. *)
Lemma replace_from_removes (skip : nat) (text : string) :
  old <> EmptyString -> all_bytes high_byte old = true ->
  occurs old (replace_from old new skip text) = false.
Proof.
  intros Ho Hhi. revert skip.
  induction text as [|c t IH]; intros skip.
  - assert (E : occurs old EmptyString = false)
      by (destruct old; [congruence|reflexivity]).
    destruct skip; exact E.
  - destruct skip as [|k]; cbn [replace_from]; [|apply IH].
    destruct (String.prefix old (String c t)) eqn:E.
    + rewrite occurs_new by auto. apply IH.
    + rewrite occurs_cons, IH, orb_false_r.
      destruct (String.prefix old (String c (replace_from old new 0 t)))
        eqn:E'; [|reflexivity].
      rewrite (prefix_cons_replace_from old c t Hhi E') in E. discriminate.
Qed.
End Replace.

(** Without an occurrence the text is returned as it is. *)
Lemma replace_from_absent (old new text : string) :
  occurs old text = false -> replace_from old new O text = text.
Proof.
  induction text as [|c t IH]; intros H; [reflexivity|].
  rewrite occurs_cons in H. apply orb_false_iff in H as [H1 H2].
  cbn [replace_from]. rewrite H1. now rewrite IH.
Qed.

Lemma replace_nonempty (old new text : string) :
  old <> EmptyString -> replace old new text = replace_from old new O text.
Proof. destruct old; [congruence|reflexivity]. Qed.

Lemma replace_keeps_free (on : string * string) (p text : string) :
  ascii_for_symbol on ->
  p <> EmptyString -> all_bytes high_byte p = true ->
  occurs p text = false ->
  occurs p (replace (fst on) (snd on) text) = false.
Proof.
  intros (Ho & _ & Hn & Hlo) Hp Hhi Hfree.
  rewrite replace_nonempty by auto.
  destruct (occurs p (replace_from _ _ _ _)) eqn:E; [|reflexivity].
  apply (occurs_replace_from _ _ Hlo Hn p O text Hp Hhi) in E.
  cbn [drop] in E. congruence.
Qed.

Lemma replace_removes (on : string * string) (text : string) :
  ascii_for_symbol on ->
  occurs (fst on) (replace (fst on) (snd on) text) = false.
Proof.
  intros (Ho & Hhi & Hn & Hlo). rewrite replace_nonempty by auto.
  now apply replace_from_removes.
Qed.

Lemma replace_all_keeps_free (reps : list (string * string)) (p text : string) :
  Forall ascii_for_symbol reps ->
  p <> EmptyString -> all_bytes high_byte p = true ->
  occurs p text = false ->
  occurs p (fold_left (fun text on => replace (fst on) (snd on) text)
                      reps text) = false.
Proof.
  intros Hreps Hp Hhi. revert text.
  induction Hreps as [|on reps Hon _ IH]; intros text Hfree; [exact Hfree|].
  cbn [fold_left]. apply IH. now apply replace_keeps_free.
Qed.

Lemma replace_all_clears (reps : list (string * string)) (text : string) :
  Forall ascii_for_symbol reps ->
  Forall (fun on =>
            occurs (fst on)
                   (fold_left (fun text on => replace (fst on) (snd on) text)
                              reps text) = false) reps.
Proof.
  intros Hreps. revert text.
  induction Hreps as [|on reps Hon Hreps IH]; intros text; constructor.
  - cbn [fold_left]. destruct Hon as (Ho & Hhi & Hn & Hlo).
    apply replace_all_keeps_free; auto.
    apply replace_removes. repeat split; auto.
  - apply IH.
Qed.

Lemma replace_all_absent (reps : list (string * string)) (text : string) :
  Forall (fun on => fst on <> EmptyString) reps ->
  Forall (fun on => occurs (fst on) text = false) reps ->
  fold_left (fun text on => replace (fst on) (snd on) text) reps text = text.
Proof.
  induction 1 as [|on reps Hon _ IH]; intros Hfree; [reflexivity|].
  inversion Hfree as [|? ? H1 H2]; subst. cbn [fold_left].
  rewrite replace_nonempty by auto. rewrite replace_from_absent by auto.
  now apply IH.
Qed.

Lemma replacements_ascii_for_symbol : Forall ascii_for_symbol replacements.
Proof.
  repeat constructor; cbn; try discriminate.
Qed.

(** X18: the text returned by [replace_special_chars] holds none of the
    four symbols; a text is returned unchanged exactly when it holds none of
    them; replacing twice is replacing once. *)
Theorem replace_special_chars_clears (text : string) :
  free_of_symbols (replace_special_chars text)
  /\ (replace_special_chars text = text <-> free_of_symbols text)
  /\ replace_special_chars (replace_special_chars text)
     = replace_special_chars text.
Proof.
  assert (Hclear : forall t, free_of_symbols (replace_special_chars t)).
  { intros t. unfold free_of_symbols, symbols. apply Forall_map.
    apply replace_all_clears, replacements_ascii_for_symbol. }
  assert (Hfix : forall t, free_of_symbols t -> replace_special_chars t = t).
  { intros t Ht. unfold free_of_symbols, symbols in Ht.
    apply Forall_map in Ht. apply replace_all_absent; auto.
    eapply Forall_impl; [|apply replacements_ascii_for_symbol].
    now intros on (H & _). }
  split; [apply Hclear|split; [split|]].
  - intros E. rewrite <- E. apply Hclear.
  - apply Hfix.
  - apply Hfix, Hclear.
Qed.

(** ** [load_data] on the report *)

Lemma process_item_report (case : Case.t) (r : result) :
  process_item (report_entry case r) =
  match result_stats r with
  | Some st => OK (dashboard_entry case r st)
  | None => Raise (OtherError "KeyError")
  end.
Proof.
  rewrite report_entry_eq. destruct (result_stats r) as [st|].
  - unfold process_item, dashboard_entry. cbn.
    destruct (String.eqb (Case.type case) "algebraic"); reflexivity.
  - reflexivity.
Qed.

Lemma process_items_report (results : list (Case.t * result)) :
  process_items (create_report results) =
  match results with
  | [] => OK []
  | (case, r) :: rest =>
      match result_stats r with
      | Some st =>
          processed_data <- process_items (create_report rest) ;;
          OK (dashboard_entry case r st :: processed_data)
      | None => Raise (OtherError "KeyError")
      end
  end.
Proof.
  destruct results as [|[case r] rest]; [reflexivity|].
  cbn [create_report map process_items fst snd].
  rewrite process_item_report. destruct (result_stats r); reflexivity.
Qed.

(** X19: [load_data] applied to the records written by [create_report]
    raises [KeyError] as soon as one result has empty ['stats']; when every
    result has statistics it returns one dashboard record per result, in
    order, with the name cleaned by [replace_special_chars], the statistics
    and run count copied, and the factor under ['degree'] for type
    ['algebraic'] and under ['measure'] otherwise. *)
Theorem load_data_of_report (results : list (Case.t * result)) :
  (Exists (fun cr => result_stats (snd cr) = None) results ->
   load_data (PyList (create_report results)) = Raise (OtherError "KeyError"))
  /\ (Forall (fun cr => result_stats (snd cr) <> None) results ->
      exists items,
        load_data (PyList (create_report results)) = OK items
        /\ Forall2 (fun cr item =>
                      exists st, result_stats (snd cr) = Some st
                                 /\ item = dashboard_entry (fst cr) (snd cr) st)
                   results items).
Proof.
  cbn [load_data]. split.
  - induction results as [|[case r] rest IH]; intros Hex;
      [inversion Hex|].
    rewrite process_items_report.
    destruct (result_stats r) as [st|] eqn:E; [|reflexivity].
    inversion Hex as [? ? H|? ? H]; subst; [cbn in H; congruence|].
    now rewrite (IH H).
  - induction results as [|[case r] rest IH]; intros Hall.
    + exists []. split; [reflexivity|constructor].
    + inversion Hall as [|? ? H1 H2]; subst. cbn [snd] in H1.
      destruct (IH H2) as (items & Hitems & Hrel).
      rewrite process_items_report.
      destruct (result_stats r) as [st|] eqn:E; [|congruence].
      rewrite Hitems. eexists. split; [reflexivity|].
      constructor; [|exact Hrel]. exists st. now split.
Qed.

Section RunAnalysisFacts.
Variable log2 : Z -> Q.
Variable sqrt : Q -> Q.
Variable stdev_nonfinite : list xfloat -> exc pyfloat.
Variable prec : Z.
Variable test_length : nat.

Lemma run_analysis_inv (test_cases : list Case.t)
      (results : list (Case.t * result)) :
  run_analysis log2 sqrt stdev_nonfinite prec test_length test_cases
  = OK results ->
  map fst results = test_cases
  /\ Forall (fun cr => validate_case log2 sqrt stdev_nonfinite prec
                                     test_length (fst cr) = OK (snd cr))
            results.
Proof.
  revert results. induction test_cases as [|case rest IH]; intros results H.
  - injection H as <-. split; [reflexivity|constructor].
  - cbn [run_analysis] in H.
    destruct (validate_case _ _ _ _ _ case) as [r|] eqn:Ec; [|discriminate].
    cbn [bind] in H.
    destruct (run_analysis _ _ _ _ _ rest) as [rs|]; [|discriminate].
    injection H as <-. destruct (IH rs eq_refl) as (Hmap & Hall).
    split; [cbn; now rewrite Hmap | constructor; auto].
Qed.

(** The first case that fails decides the exception. *)
Lemma run_analysis_raises (pre : list Case.t) (case : Case.t)
      (post : list Case.t) (e : exn) :
  Forall (fun c => exists r, validate_case log2 sqrt stdev_nonfinite prec
                                           test_length c = OK r) pre ->
  validate_case log2 sqrt stdev_nonfinite prec test_length case = Raise e ->
  run_analysis log2 sqrt stdev_nonfinite prec test_length
               (pre ++ case :: post) = Raise e.
Proof.
  induction 1 as [|c pre (r & Hr) _ IH]; intros He; cbn [app run_analysis].
  - now rewrite He.
  - rewrite Hr. cbn [bind]. now rewrite (IH He).
Qed.

Lemma run_analysis_returns (test_cases : list Case.t) :
  Forall (fun case =>
            exists r, validate_case log2 sqrt stdev_nonfinite prec
                                    test_length case = OK r) test_cases ->
  exists results,
    run_analysis log2 sqrt stdev_nonfinite prec test_length test_cases
    = OK results.
Proof.
  induction 1 as [|case rest (r & Hr) _ (rs & IH)].
  - exists []. reflexivity.
  - exists ((case, r) :: rs). cbn [run_analysis]. now rewrite Hr, IH.
Qed.
End RunAnalysisFacts.

(** X20: the loop of [run_analysis] returns, if it returns, one result per
    test case in the order of the cases, each the result of
    [validate_number] on that case's number and factor and labelled
    transcendental exactly when the case is; it returns when every case
    validates; otherwise the first case whose validation raises decides: its
    exception is raised and no result is returned, [StatisticsError] if that
    case has exactly one analysed run. *)
Theorem run_analysis_outcome
        (log2 : Z -> Q) (sqrt : Q -> Q)
        (stdev_nonfinite : list xfloat -> exc pyfloat)
        (prec : Z) (test_length : nat) (test_cases : list Case.t) :
  let validates case :=
    exists r, validate_case log2 sqrt stdev_nonfinite prec test_length case
              = OK r in
  (forall results,
     run_analysis log2 sqrt stdev_nonfinite prec test_length test_cases
     = OK results ->
     map fst results = test_cases
     /\ Forall (fun cr =>
                  validate_case log2 sqrt stdev_nonfinite prec test_length
                                (fst cr) = OK (snd cr)
                  /\ number (snd cr) = Case.number (fst cr)
                  /\ factor (snd cr) = Case.factor (fst cr)
                  /\ (number_type (snd cr) = "transcendental"%string
                      <-> Case.type (fst cr) = "transcendental"%string))
               results)
  /\ (Forall validates test_cases ->
      exists results,
        run_analysis log2 sqrt stdev_nonfinite prec test_length test_cases
        = OK results)
  /\ (forall pre case post e,
        test_cases = pre ++ case :: post -> Forall validates pre ->
        validate_case log2 sqrt stdev_nonfinite prec test_length case
        = Raise e ->
        run_analysis log2 sqrt stdev_nonfinite prec test_length test_cases
        = Raise e)
  /\ (forall pre case post,
        test_cases = pre ++ case :: post -> Forall validates pre ->
        analysed_count prec test_length case = 1%nat ->
        run_analysis log2 sqrt stdev_nonfinite prec test_length test_cases
        = Raise StatisticsError).
Proof.
  intros validates. split; [|split; [|split]].
  - intros results Hres.
    destruct (run_analysis_inv _ _ _ _ _ _ _ Hres) as (Hmap & Hval).
    split; [exact Hmap|].
    eapply Forall_impl; [|exact Hval]. intros [case r] Hr. cbn [fst snd] in *.
    split; [exact Hr|]. unfold validate_case, validate_number in Hr.
    destruct (compute_stats _ _ _); [|discriminate]. cbn [bind] in Hr.
    injection Hr as <-. cbn [number factor number_type].
    split; [reflexivity|split; [reflexivity|]].
    destruct (String.eqb_spec (Case.type case) "transcendental") as [E|E].
    + split; auto.
    + split; [discriminate|intros H; now destruct E].
  - apply run_analysis_returns.
  - intros pre case post e -> Hpre He. now apply run_analysis_raises.
  - intros pre case post -> Hpre Hone. apply run_analysis_raises; auto.
    now apply validate_number_one_analysed.
Qed.

(** ** From the validator to the dashboard *)

(** X21: for a result returned by [validate_number], [load_data] raises
    [KeyError] on its report record when no run was analysed (as for an
    integer input); otherwise it returns its dashboard record, in which
    ['totalRuns'] is at least 2 and the ['low'] count is at most
    ['totalRuns']. *)
Theorem load_data_after_validation
        (log2 : Z -> Q) (sqrt : Q -> Q)
        (stdev_nonfinite : list xfloat -> exc pyfloat)
        (prec : Z) (number factor : Q) (length : nat)
        (is_transcendental : bool) (case : Case.t) (r : result) :
  validate_number log2 sqrt stdev_nonfinite prec number factor length
                  is_transcendental = OK r ->
  (run_data r = [] ->
   load_data (PyList (create_report [(case, r)]))
   = Raise (OtherError "KeyError"))
  /\ (run_data r <> [] ->
      exists st,
        result_stats r = Some st
        /\ load_data (PyList (create_report [(case, r)]))
           = OK [dashboard_entry case r st]
        /\ (2 <= total_runs r)%nat
        /\ (low (ratio_distribution st) <= total_runs r)%nat).
Proof.
  intros Hret.
  destruct (validate_number_inv _ _ _ _ _ _ _ _ _ Hret)
    as (Hst & _ & _ & _ & Htot & _ & Hrd).
  rewrite <- Hrd in Hst.
  assert (Hle : (List.length (run_data r) <= total_runs r)%nat).
  { rewrite Hrd, Htot, analyze_eq. cbn [a_run_data]. rewrite length_map.
    apply filter_length_le. }
  pose proof (stats_none_iff _ _ _ _ Hst) as Hnone.
  cbn [load_data]. rewrite process_items_report. split.
  - intros E. apply Hnone in E. now rewrite E.
  - intros E. destruct (result_stats r) as [st|] eqn:Es.
    + exists st. split; [reflexivity|]. split; [reflexivity|].
      destruct (compute_stats_some_counts _ _ _ _ Hst) as (Hlen & Hsum). lia.
    + destruct E. now apply Hnone.
Qed.

Lemma load_data_after_validation_witness :
  exists r,
    validate_number log2_floor sqrt_approx stdev_raises 53 1 2 8 false = OK r
    /\ load_data (PyList (create_report [(sample_case, r)]))
       = Raise (OtherError "KeyError").
Proof.
  eexists. split; [vm_compute; reflexivity|].
  refine (proj1 (load_data_after_validation log2_floor sqrt_approx
                   stdev_raises 53 1 2 8 false sample_case _ _) _);
    [vm_compute; reflexivity | reflexivity].
Defined.
